(** * Andes static load model: residual and Jacobian assembly

    A shallow embedding of [andes/models/pq.py] (the legacy vectorised
    [PQ] model with its [gcall] and [gycall] passes, and the symbolic
    [PQNew] declaration) and of the declarations of
    [andes/models/experimental/TCSCbase.py].

    Numbers are exact rationals ([Qc], canonical fractions with Leibniz
    equality): every statement below is about the arithmetic the code
    writes down, not about IEEE rounding.  cvxopt column matrices are
    lists; the library calls the code makes can fail, so every pass runs
    in an error monad. *)

From Stdlib Require Import String QArith Qcanon List Bool Arith Lia Permutation.
Import ListNotations.

Local Open Scope Qc_scope.

(** ** Numbers *)

(** The literal [n/d]. *)
Definition qc (n : Z) (d : positive) : Qc := Q2Qc (n # d).

Definition Qc_eqb (x y : Qc) : bool := Qeq_bool x y.
Definition Qc_ltb (x y : Qc) : bool := negb (Qle_bool y x).
Definition Qc_leb (x y : Qc) : bool := Qle_bool x y.

(** A comparison result cast with [.astype('float')]. *)
Definition b2q (b : bool) : Qc := if b then 1 else 0.

(** Python truthiness of a float. *)
Definition q2b (x : Qc) : bool := negb (Qc_eqb x 0).

(** [x ** 2] *)
Definition sq (x : Qc) : Qc := x * x.

(** ** Failures *)

Inductive exn : Type :=
| TypeError          (* cvxopt: incompatible dimensions *)
| IndexError         (* cvxopt: index out of range *)
| ValueError         (* scipy: coo_matrix shape or length check *)
| DimensionMismatch  (* the assembler's contract violation of the design
                        document, section 4.4 *)
| ArithmeticFailure  (* elementwise division met a zero divisor.  The
                        passes on rationals stop there, the quotient
                        being no rational; what the code does there
                        (the library raises, or returns inf or nan and
                        the pass goes on) is given by the passes on
                        floats, gcall_x and gycall_x *)
| NumericFailure (instance : nat) (variable : string).
                     (* the failure report of the design document,
                        section 7; no statement of pq.py builds one *)

Inductive result (A : Type) : Type :=
| Ok (a : A)
| Err (e : exn).
Arguments Ok {A} a.
Arguments Err {A} e.

Definition bind {A B : Type} (m : result A) (f : A -> result B) : result B :=
  match m with
  | Ok a => f a
  | Err e => Err e
  end.

Notation "x <- m ;; k" := (bind m (fun x => k))
  (at level 61, m at next level, right associativity).

(** ** Column matrices *)

Definition vec := list Qc.

Fixpoint map2 {A B C : Type} (f : A -> B -> C) (xs : list A) (ys : list B) : list C :=
  match xs, ys with
  | x :: xs', y :: ys' => f x y :: map2 f xs' ys'
  | _, _ => []
  end.

(** [zeros(n, 1)] and [ones(n, 1)] *)
Definition zeros (n : nat) : vec := repeat 0 n.
Definition ones (n : nat) : vec := repeat 1 n.

(** Elementwise operation of two column matrices; cvxopt refuses
    operands of different sizes. *)
Definition ew (f : Qc -> Qc -> Qc) (a b : vec) : result vec :=
  if Nat.eqb (length a) (length b) then Ok (map2 f a b) else Err TypeError.

(** [mul(a, b)] *)
Definition mul (a b : vec) : result vec := ew Qcmult a b.

(** [a + b], as in [k += ...] and [dae.g += ...] *)
Definition vadd (a b : vec) : result vec := ew Qcplus a b.

(** [div(a, b)] on rationals: the quotients, where every divisor is
    nonzero.  At a zero divisor the rational passes stop with
    [ArithmeticFailure] and say nothing on what the code does there;
    [xdiv] gives the two outcomes the library can have, and is the
    same as [div] wherever every divisor is nonzero ([xdiv_inj]). *)
Definition div (a b : vec) : result vec :=
  if Nat.eqb (length a) (length b) then
    if forallb q2b b then Ok (map2 Qcdiv a b) else Err ArithmeticFailure
  else Err TypeError.

(** [a ** 2] *)
Definition vsq (a : vec) : vec := map sq a.

(** [2 * a] *)
Definition vdouble (a : vec) : vec := map (Qcmult (qc 2 1)) a.

(** [y[idx]]: the entries of [y] at a list of positions. *)
Fixpoint gather (y : vec) (idx : list nat) : result vec :=
  match idx with
  | [] => Ok []
  | i :: idx' =>
      match nth_error y i with
      | Some x => r <- gather y idx' ;; Ok (x :: r)
      | None => Err IndexError
      end
  end.

(** Truth value of a cvxopt matrix in [if self.v0:]: some entry is
    nonzero (an empty or all-zero matrix is false). *)
Definition truthy (a : vec) : bool := existsb q2b a.

(** Replace position [i] of a list. *)
Fixpoint upd {A : Type} (l : list A) (i : nat) (x : A) : list A :=
  match l, i with
  | [], _ => []
  | _ :: t, O => x :: t
  | h :: t, S j => h :: upd t j x
  end.

(** [g[i] += x] *)
Definition add_at (g : vec) (i : nat) (x : Qc) : result vec :=
  match nth_error g i with
  | Some y => Ok (upd g i (y + x))
  | None => Err IndexError
  end.

(** ** The objects the passes work on *)

(** [system.config] *)
Record config : Type := Config {
  forcez : bool;
  forcepq : bool
}.

(** One stamped Jacobian entry: row, column, value. *)
Definition triplet : Type := (nat * nat * Qc)%type.

(** The part of [dae] the load model touches: the algebraic iterate
    [y], the algebraic residual [g] with its size [m], and the block
    [Gy] of the Jacobian as a coordinate list. *)
Module Dae.
Record t : Type := mk {
  y : vec;
  g : vec;
  m : nat;
  Gy : list triplet
}.
End Dae.

(** The fields of a [PQ] object: data columns [u], [p], [q], [vmin],
    [vmax] with one row per instance, the offsets [a] and [v] of the
    bus angle and voltage, and the service columns [gcall] writes. *)
Module Pq.
Record t : Type := mk {
  n : nat;
  u : vec;
  p : vec;
  q : vec;
  vmin : vec;
  vmax : vec;
  a : list nat;
  v : list nat;
  v0 : vec;
  p0 : vec;
  q0 : vec;
  below : vec;
  above : vec
}.
End Pq.

(** ** Residual accumulation *)

(** [zip(self.a, self.v, self.p0, self.q0)]: stops at the shortest. *)
Fixpoint zip4 (la lv : list nat) (lp lq : vec) : list (nat * nat * Qc * Qc) :=
  match la, lv, lp, lq with
  | ia :: la', iv :: lv', xp :: lp', xq :: lq' =>
      (ia, iv, xp, xq) :: zip4 la' lv' lp' lq'
  | _, _, _, _ => []
  end.

(** The loop of the dense path:
    [for a, v, p, q in zip(...): dae.g[a] += p; dae.g[v] += q]. *)
Fixpoint dense_loop (gv : vec) (rows : list (nat * nat * Qc * Qc)) : result vec :=
  match rows with
  | [] => Ok gv
  | (ia, iv, xp, xq) :: rest =>
      g1 <- add_at gv ia xp ;;
      g2 <- add_at g1 iv xq ;;
      dense_loop g2 rest
  end.

(** [coo_matrix((data, (row, zeros(ncol))), shape=(m, 1)).toarray()]:
    scipy checks that the three arrays have one length and that every
    row index is below [m]; [toarray] adds the entries of a repeated
    position. *)
Definition coo_toarray (m : nat) (data : vec) (row : list nat) (ncol : nat) : result vec :=
  if Nat.eqb (length data) (length row) && Nat.eqb (length row) ncol then
    if forallb (fun r => Nat.ltb r m) row then
      Ok (fold_left (fun B rx => upd B (fst rx) (nth (fst rx) B 0 + snd rx))
            (combine row data) (zeros m))
    else Err ValueError
  else Err ValueError.

(** The sparse path. *)
Definition sparse_accumulate (m : nat) (gv : vec) (la lv : list nat) (lp lq : vec)
    (n : nat) : result vec :=
  P0 <- coo_toarray m lp la n ;;
  Q0 <- coo_toarray m lq lv n ;;
  g1 <- vadd gv P0 ;;
  vadd g1 Q0.

(** Lines 98-113 of [gcall]. *)
Definition accumulate (n m : nat) (gv : vec) (la lv : list nat) (lp lq : vec) : result vec :=
  if Nat.leb n 400 then dense_loop gv (zip4 la lv lp lq)
  else sparse_accumulate m gv la lv lp lq n.

(** ** Jacobian stamping *)

(** Modelled from the spec: [dae.add_jac] is not part of pq.py.  Section
    4.4 step 2: each value is stamped at (row, column) and accumulates
    with what is already there; a per-instance vector of the wrong
    length is a [DimensionMismatch]. *)
Definition add_jac (J : list triplet) (val : vec) (row col : list nat) : result (list triplet) :=
  if Nat.eqb (length val) (length row) && Nat.eqb (length row) (length col) then
    Ok (J ++ combine (combine row col) val)
  else Err DimensionMismatch.

(** The value of the cell (r, c): the sum of everything stamped there. *)
Fixpoint cell (J : list triplet) (r c : nat) : Qc :=
  match J with
  | [] => 0
  | (r', c', x) :: J' =>
      (if Nat.eqb r' r && Nat.eqb c' c then x else 0) + cell J' r c
  end.

(** ** The legacy [PQ] passes *)

Section Legacy.

(** The elementwise tests behind [utils.math.altb] and [utils.math.agtb];
    utils/math.py lies outside the two modules embedded here, so both
    stay parameters of the passes. *)
Variable altb_test : Qc -> Qc -> bool.
Variable agtb_test : Qc -> Qc -> bool.

(** [altb(a, b)], [agtb(a, b)]: a matrix of the test results as floats. *)
Definition altb (x y : vec) : result vec := ew (fun s t => b2q (altb_test s t)) x y.
Definition agtb (x y : vec) : result vec := ew (fun s t => b2q (agtb_test s t)) x y.

(** [aorb(a, b)]: logical or of two 0/1 matrices, as floats. *)
Definition aorb (x y : vec) : result vec := ew (fun s t => b2q (q2b s || q2b t)) x y.

(** [nota(a)]: logical not, as floats. *)
Definition nota (x : vec) : vec := map (fun s => b2q (negb (q2b s))) x.

(** Lines 75-92 of [gcall]: the voltage factor [k], and the object with
    [below] and [above] rewritten when the switching branch runs. *)
Definition gcall_k (cfg : config) (self : Pq.t) (dae : Dae.t) : result (Pq.t * vec) :=
  let n := Pq.n self in
  if forcez cfg then
    if truthy (Pq.v0 self) then
      yv <- gather (Dae.y dae) (Pq.v self) ;;
      k <- div (vsq yv) (vsq (Pq.v0 self)) ;;
      Ok (self, k)
    else Ok (self, ones n)
  else if forcepq cfg then Ok (self, ones n)
  else
    yv <- gather (Dae.y dae) (Pq.v self) ;;
    bl <- altb yv (Pq.vmin self) ;;
    d1 <- div (vsq yv) (vsq (Pq.vmin self)) ;;
    t1 <- mul bl d1 ;;
    k1 <- vadd (zeros n) t1 ;;
    ab <- agtb yv (Pq.vmax self) ;;
    d2 <- div (vsq yv) (vsq (Pq.vmax self)) ;;
    t2 <- mul ab d2 ;;
    k2 <- vadd k1 t2 ;;
    bo <- aorb bl ab ;;
    let normal := nota bo in
    t3 <- mul normal (ones n) ;;
    k3 <- vadd k2 t3 ;;
    Ok (Pq.mk n (Pq.u self) (Pq.p self) (Pq.q self) (Pq.vmin self) (Pq.vmax self)
          (Pq.a self) (Pq.v self) (Pq.v0 self) (Pq.p0 self) (Pq.q0 self) bl ab,
        k3).

(** [gcall]: the residual pass.  A failure is returned without the
    partly updated objects. *)
Definition gcall (cfg : config) (self : Pq.t) (dae : Dae.t) : result (Pq.t * Dae.t) :=
  sk <- gcall_k cfg self dae ;;
  let self1 := fst sk in
  k <- mul (Pq.u self1) (snd sk) ;;
  np0 <- mul k (Pq.p self1) ;;
  nq0 <- mul k (Pq.q self1) ;;
  ng <- accumulate (Pq.n self1) (Dae.m dae) (Dae.g dae) (Pq.a self1) (Pq.v self1) np0 nq0 ;;
  Ok (Pq.mk (Pq.n self1) (Pq.u self1) (Pq.p self1) (Pq.q self1) (Pq.vmin self1)
        (Pq.vmax self1) (Pq.a self1) (Pq.v self1) (Pq.v0 self1) np0 nq0
        (Pq.below self1) (Pq.above self1),
      Dae.mk (Dae.y dae) ng (Dae.m dae) (Dae.Gy dae)).

(** Lines 116-124 of [gycall]: the derivative factor. *)
Definition gycall_k (cfg : config) (self : Pq.t) (dae : Dae.t) : result vec :=
  let k := zeros (Pq.n self) in
  if forcez cfg then
    if truthy (Pq.v0 self) then
      yv <- gather (Dae.y dae) (Pq.v self) ;;
      div (vdouble yv) (vsq (Pq.v0 self))
    else Ok k
  else
    yv <- gather (Dae.y dae) (Pq.v self) ;;
    d1 <- div (vdouble yv) (vsq (Pq.vmin self)) ;;
    t1 <- mul (Pq.below self) d1 ;;
    k1 <- vadd k t1 ;;
    d2 <- div (vdouble yv) (vsq (Pq.vmax self)) ;;
    t2 <- mul (Pq.above self) d2 ;;
    vadd k1 t2.

(** [gycall]: the Jacobian pass. *)
Definition gycall (cfg : config) (self : Pq.t) (dae : Dae.t) : result Dae.t :=
  if forcepq cfg then Ok dae
  else
    k0 <- gycall_k cfg self dae ;;
    k <- mul (Pq.u self) k0 ;;
    pv <- mul (Pq.p self) k ;;
    J1 <- add_jac (Dae.Gy dae) pv (Pq.a self) (Pq.v self) ;;
    qv <- mul (Pq.q self) k ;;
    J2 <- add_jac J1 qv (Pq.v self) (Pq.v self) ;;
    Ok (Dae.mk (Dae.y dae) (Dae.g dae) (Dae.m dae) J2).

End Legacy.

(** ** The declarative [PQNew] model *)

(** Modelled from the spec: [andes.core.limiter.Comparer] is imported by
    pq.py and defined outside it.  Section 4.5: [evaluate(value, lower, upper)]
    gives three real-valued indicators, [value <= lower] is below,
    [lower < value < upper] is within, [value >= upper] is above.  The
    fields carry the names the equations of [PQNew] use: [zl], [zi],
    [zu]. *)
Module Comparer.
Record t : Type := mk {
  zl : Qc;
  zi : Qc;
  zu : Qc
}.
Definition evaluate (value lower upper : Qc) : t :=
  mk (b2q (Qc_leb value lower))
     (b2q (Qc_ltb lower value && Qc_ltb value upper))
     (b2q (Qc_leb upper value)).
End Comparer.

(** The tests of the comparator as the two helpers of the legacy pass
    take them: [altb(value, lower)] and [agtb(value, upper)]. *)
Definition closed_below (value lower : Qc) : bool := Qc_leb value lower.
Definition closed_above (value upper : Qc) : bool := Qc_leb upper value.

(** The reading of the helpers' names alone, "a less than b" and
    "a greater than b". *)
Definition strict_below (value lower : Qc) : bool := Qc_ltb value lower.
Definition strict_above (value upper : Qc) : bool := Qc_ltb upper value.

(** A quotient of two numbers. *)
Definition qdiv (x d : Qc) : result Qc :=
  if q2b d then Ok (x / d) else Err ArithmeticFailure.

(** The common shape of [a.e_symbolic] and [v.e_symbolic], with the power
    [s] standing for [p] or [q]:
    [u * (s * v_cmp_zi + s * v_cmp_zl * (v ** 2 / vmin ** 2)
                       + s * v_cmp_zu * (v ** 2 / vmax ** 2))]. *)
Definition PQNew_e (u s vv lo hi : Qc) : result Qc :=
  let c := Comparer.evaluate vv lo hi in
  rl <- qdiv (sq vv) (sq lo) ;;
  ru <- qdiv (sq vv) (sq hi) ;;
  Ok (u * (s * Comparer.zi c + s * Comparer.zl c * rl + s * Comparer.zu c * ru)).

(** ** What accumulation adds at one offset *)

(** The sum of the values whose target position is [o]. *)
Fixpoint contrib (o : nat) (row : list nat) (vals : vec) : Qc :=
  match row, vals with
  | r :: row', x :: vals' => (if Nat.eqb r o then x else 0) + contrib o row' vals'
  | _, _ => 0
  end.

(** The same for the rows the dense loop walks through. *)
Fixpoint contrib_rows (o : nat) (rows : list (nat * nat * Qc * Qc)) : Qc :=
  match rows with
  | [] => 0
  | (ia, iv, xp, xq) :: rest =>
      (if Nat.eqb ia o then xp else 0) + (if Nat.eqb iv o then xq else 0)
      + contrib_rows o rest
  end.

Definition rows_in_range (k : nat) (rows : list (nat * nat * Qc * Qc)) : Prop :=
  Forall (fun r => (fst (fst (fst r)) < k)%nat /\ (snd (fst (fst r)) < k)%nat) rows.

(** ** Reading the objects per instance *)

(** Entry [i] of a column. *)
Definition at_ (l : vec) (i : nat) : Qc := nth i l 0.

(** The voltage iterate of instance [i]: [dae.y[self.v][i]]. *)
Definition volt (self : Pq.t) (dae : Dae.t) (i : nat) : Qc :=
  nth (nth i (Pq.v self) 0%nat) (Dae.y dae) 0.

(** Every data column and both offset lists have [n] rows. *)
Definition sized (self : Pq.t) : bool :=
  let n := Pq.n self in
  Nat.eqb (length (Pq.u self)) n && Nat.eqb (length (Pq.p self)) n &&
  Nat.eqb (length (Pq.q self)) n && Nat.eqb (length (Pq.vmin self)) n &&
  Nat.eqb (length (Pq.vmax self)) n && Nat.eqb (length (Pq.a self)) n &&
  Nat.eqb (length (Pq.v self)) n.

(** The offsets point into [dae.y] and [dae.g], and [dae.g] has [dae.m]
    entries. *)
Definition addressed (self : Pq.t) (dae : Dae.t) : bool :=
  Nat.eqb (length (Dae.g dae)) (Dae.m dae) &&
  forallb (fun i => Nat.ltb i (length (Dae.y dae))) (Pq.v self) &&
  forallb (fun i => Nat.ltb i (Dae.m dae)) (Pq.a self) &&
  forallb (fun i => Nat.ltb i (Dae.m dae)) (Pq.v self).

Definition nonzero (l : vec) : bool := forallb q2b l.

(** [nota(aorb(below, above))] for one instance. *)
Definition normal_of (bl ab : Qc) : Qc := b2q (negb (q2b bl || q2b ab)).

(** The factor the switching branch of [gcall] builds for one instance,
    term by term as lines 83-92 add them. *)
Definition k_switch (bl ab x lo hi : Qc) : Qc :=
  0 + bl * (sq x / sq lo) + ab * (sq x / sq hi) + normal_of bl ab * 1.

(** The factor the switching branch of [gycall] builds for one
    instance, lines 116 and 123-124. *)
Definition dk_switch (bl ab x lo hi : Qc) : Qc :=
  0 + bl * (qc 2 1 * x / sq lo) + ab * (qc 2 1 * x / sq hi).

(** The residual contribution of one instance as a function of its
    voltage [x], with everything else fixed: [mul(mul(u, k), s)] where
    [s] is the power [p] or [q]. *)
Definition residual_switch (u s bl ab lo hi : Qc) (x : Qc) : Qc :=
  (u * k_switch bl ab x lo hi) * s.

Definition residual_forcez (u s ref : Qc) (x : Qc) : Qc :=
  (u * (sq x / sq ref)) * s.

(** [J] is the derivative of the polynomial [f] at [x]: the coefficient
    of the linear term of its expansion around [x]. *)
Definition derivative_at (f : Qc -> Qc) (x J : Qc) : Prop :=
  exists c, forall h, f (x + h) - f x = J * h + c * h * h.

(** The branch a configuration selects in [gcall] divides by nothing
    that is zero: the reference voltages when the impedance branch
    scales, the two limits when the switching branch runs. *)
Definition divides_g (cfg : config) (self : Pq.t) : bool :=
  if forcez cfg then
    if truthy (Pq.v0 self) then
      Nat.eqb (length (Pq.v0 self)) (Pq.n self) && nonzero (Pq.v0 self)
    else true
  else if forcepq cfg then true
  else nonzero (Pq.vmin self) && nonzero (Pq.vmax self).

(** The voltage factor [gcall] gives instance [i], branch by branch. *)
Definition k_inst (altb_test agtb_test : Qc -> Qc -> bool)
    (cfg : config) (self : Pq.t) (dae : Dae.t) (i : nat) : Qc :=
  let x := volt self dae i in
  if forcez cfg then
    if truthy (Pq.v0 self) then sq x / sq (at_ (Pq.v0 self) i) else 1
  else if forcepq cfg then 1
  else k_switch (b2q (altb_test x (at_ (Pq.vmin self) i)))
                (b2q (agtb_test x (at_ (Pq.vmax self) i)))
                x (at_ (Pq.vmin self) i) (at_ (Pq.vmax self) i).

(** The same for the branches of [gycall] that stamp; the switching
    branch also needs the stored indicator columns to have [n] rows. *)
Definition divides_gy (cfg : config) (self : Pq.t) : bool :=
  if forcez cfg then
    if truthy (Pq.v0 self) then
      Nat.eqb (length (Pq.v0 self)) (Pq.n self) && nonzero (Pq.v0 self)
    else true
  else nonzero (Pq.vmin self) && nonzero (Pq.vmax self) &&
       Nat.eqb (length (Pq.below self)) (Pq.n self) &&
       Nat.eqb (length (Pq.above self)) (Pq.n self).

(** The derivative factor [gycall] gives instance [i]. *)
Definition dk_inst (cfg : config) (self : Pq.t) (dae : Dae.t) (i : nat) : Qc :=
  let x := volt self dae i in
  if forcez cfg then
    if truthy (Pq.v0 self) then qc 2 1 * x / sq (at_ (Pq.v0 self) i) else 0
  else dk_switch (at_ (Pq.below self) i) (at_ (Pq.above self) i)
                 x (at_ (Pq.vmin self) i) (at_ (Pq.vmax self) i).

(** The triplets one call of [gycall] stamps. *)
Definition stamps (self : Pq.t) (pv qv : vec) : list triplet :=
  combine (combine (Pq.a self) (Pq.v self)) pv ++
  combine (combine (Pq.v self) (Pq.v self)) qv.

(** The object [gcall] returns, given the columns it rewrites. *)
Definition with_services (self : Pq.t) (np0 nq0 bl ab : vec) : Pq.t :=
  Pq.mk (Pq.n self) (Pq.u self) (Pq.p self) (Pq.q self) (Pq.vmin self)
        (Pq.vmax self) (Pq.a self) (Pq.v self) (Pq.v0 self) np0 nq0 bl ab.

(** Exactly one of three indicators is 1 and the two others are 0. *)
Definition exactly_one (bl wi ab : Qc) : Prop :=
  (bl = 1 /\ wi = 0 /\ ab = 0) \/
  (bl = 0 /\ wi = 1 /\ ab = 0) \/
  (bl = 0 /\ wi = 0 /\ ab = 1).

(** The caller of a pass receives a [NumericFailure]. *)
Definition raises_numeric_failure {A : Type} (r : result A) : Prop :=
  exists instance variable, r = Err (NumericFailure instance variable).

(** ** The initialisation passes *)

(** [matrix(x, (n, 1), 'd')]: a column of [n] floats from the [n]
    entries of [x]; cvxopt refuses any other number of entries. *)
Definition as_column (x : vec) (n : nat) : result vec :=
  if Nat.eqb (length x) n then Ok x else Err TypeError.

(** [init0]: set the initial [p0] and [q0] for power flow. *)
Definition init0 (self : Pq.t) (dae : Dae.t) : result Pq.t :=
  np0 <- as_column (Pq.p self) (Pq.n self) ;;
  nq0 <- as_column (Pq.q self) (Pq.n self) ;;
  Ok (Pq.mk (Pq.n self) (Pq.u self) (Pq.p self) (Pq.q self) (Pq.vmin self)
        (Pq.vmax self) (Pq.a self) (Pq.v self) (Pq.v0 self) np0 nq0
        (Pq.below self) (Pq.above self)).

(** [init1]: store the voltage of the buses as the reference voltage,
    [self.v0 = matrix(dae.y[self.v])]. *)
Definition init1 (self : Pq.t) (dae : Dae.t) : result Pq.t :=
  nv0 <- gather (Dae.y dae) (Pq.v self) ;;
  Ok (Pq.mk (Pq.n self) (Pq.u self) (Pq.p self) (Pq.q self) (Pq.vmin self)
        (Pq.vmax self) (Pq.a self) (Pq.v self) nv0 (Pq.p0 self) (Pq.q0 self)
        (Pq.below self) (Pq.above self)).

(** ** The residual expression of [PQNew] over given indicators *)

(** [a.e_symbolic] and [v.e_symbolic] with the three indicator values
    [v_cmp_zi], [v_cmp_zl], [v_cmp_zu] as inputs. *)
Definition PQNew_expr (u s vv lo hi zi zl zu : Qc) : result Qc :=
  rl <- qdiv (sq vv) (sq lo) ;;
  ru <- qdiv (sq vv) (sq hi) ;;
  Ok (u * (s * zi + s * zl * rl + s * zu * ru)).

(** ** Columns of a list of instance rows *)

Definition col_a (rows : list (nat * nat * Qc * Qc)) : list nat :=
  map (fun r => fst (fst (fst r))) rows.
Definition col_v (rows : list (nat * nat * Qc * Qc)) : list nat :=
  map (fun r => snd (fst (fst r))) rows.
Definition col_p (rows : list (nat * nat * Qc * Qc)) : vec :=
  map (fun r => snd (fst r)) rows.
Definition col_q (rows : list (nat * nat * Qc * Qc)) : vec :=
  map (fun r => snd r) rows.

(** The sum of the entries of a column. *)
Definition vsum (x : vec) : Qc := fold_right Qcplus 0 x.

(** ** Concrete cases *)

(** No flag set: the switching branch runs. *)
Definition cfg_switch : config := Config false false.
Definition cfg_forcez : config := Config true false.
Definition cfg_forcepq : config := Config false true.
Definition cfg_both : config := Config true true.

(** One enabled load with the default limits 0.9 and 1.1 on a bus whose
    angle has offset 0 and whose voltage has offset 1. *)
Definition load1 (p q : Qc) : Pq.t :=
  Pq.mk 1 [1] [p] [q] [qc 9 10] [qc 11 10] [0%nat] [1%nat] [] [] [] [] [].

(** The same load after [init1] stored the reference voltage [ref]. *)
Definition load1_ref (p q ref : Qc) : Pq.t :=
  Pq.mk 1 [1] [p] [q] [qc 9 10] [qc 11 10] [0%nat] [1%nat] [ref] [] [] [] [].

(** A one-bus iterate with voltage [x] and a zero residual. *)
Definition bus1 (x : Qc) : Dae.t := Dae.mk [0; x] [0; 0] 2 [].

(** The load of [load1] with the indicator columns a previous [gcall]
    left behind. *)
Definition load1_ind (p q bl ab : Qc) : Pq.t :=
  Pq.mk 1 [1] [p] [q] [qc 9 10] [qc 11 10] [0%nat] [1%nat] [] [] [] [bl] [ab].

(** Two loads on the bus of [bus1], the second one switched off. *)
Definition load2_off (p q : Qc) : Pq.t :=
  Pq.mk 2 [1; 0] [p; p] [q; q] [qc 9 10; qc 9 10] [qc 11 10; qc 11 10]
        [0%nat; 0%nat] [1%nat; 1%nat] [] [] [] [] [].

(** Two enabled loads on the bus of [bus1] whose stored reference
    voltages are 1 and 0. *)
Definition load2_zero_ref (p q : Qc) : Pq.t :=
  Pq.mk 2 [1; 1] [p; p] [q; q] [qc 9 10; qc 9 10] [qc 11 10; qc 11 10]
        [0%nat; 0%nat] [1%nat; 1%nat] [1; 0] [] [] [] [].

(** A model without instances. *)
Definition no_load : Pq.t := Pq.mk 0 [] [] [] [] [] [] [] [] [] [] [] [].

(** An iterate too short for the voltage offset of [load1]. *)
Definition short_iterate : Dae.t := Dae.mk [0] [0; 0] 2 [].

(** Two instance rows aiming at the same two offsets. *)
Definition rows2 : list (nat * nat * Qc * Qc) :=
  [(0%nat, 1%nat, qc 5 1, 1); (0%nat, 1%nat, qc 3 1, 0)].

(** ** The passes over floats with non-finite values *)

(** A float is a rational or one of inf, -inf, nan.  The three are kept
    as one value [NonFinite]: every sum and every product that has it as
    an operand returns it again (inf * 0 and inf - inf are nan). *)
Inductive xq : Type :=
| Fin (x : Qc)
| NonFinite.

Definition xvec := list xq.

(** A column of rationals read as a column of floats. *)
Definition inj (x : vec) : xvec := map Fin x.

Definition xlift (f : Qc -> Qc -> Qc) (s t : xq) : xq :=
  match s, t with
  | Fin x, Fin y => Fin (f x y)
  | _, _ => NonFinite
  end.

(** The IEEE quotient of two rationals: x/0 is inf, -inf or nan. *)
Definition xquot (x d : Qc) : xq :=
  if q2b d then Fin (x / d) else NonFinite.

Definition xew (f : Qc -> Qc -> Qc) (a b : xvec) : result xvec :=
  if Nat.eqb (length a) (length b) then Ok (map2 (xlift f) a b) else Err TypeError.

(** [mul(a, b)] and [a + b] on columns of floats. *)
Definition xmul (a b : xvec) : result xvec := xew Qcmult a b.
Definition xvadd (a b : xvec) : result xvec := xew Qcplus a b.

(** [g[i] += x] *)
Definition xadd_at (g : xvec) (i : nat) (x : xq) : result xvec :=
  match nth_error g i with
  | Some y => Ok (upd g i (xlift Qcplus y x))
  | None => Err IndexError
  end.

Fixpoint xzip4 (la lv : list nat) (lp lq : xvec) : list (nat * nat * xq * xq) :=
  match la, lv, lp, lq with
  | ia :: la', iv :: lv', cp :: lp', cq :: lq' =>
      (ia, iv, cp, cq) :: xzip4 la' lv' lp' lq'
  | _, _, _, _ => []
  end.

Fixpoint xdense_loop (gv : xvec) (rows : list (nat * nat * xq * xq)) : result xvec :=
  match rows with
  | [] => Ok gv
  | (ia, iv, cp, cq) :: rest =>
      g1 <- xadd_at gv ia cp ;;
      g2 <- xadd_at g1 iv cq ;;
      xdense_loop g2 rest
  end.

Definition xcoo_toarray (m : nat) (data : xvec) (row : list nat) (ncol : nat) : result xvec :=
  if Nat.eqb (length data) (length row) && Nat.eqb (length row) ncol then
    if forallb (fun r => Nat.ltb r m) row then
      Ok (fold_left (fun B rx => upd B (fst rx)
                                   (xlift Qcplus (nth (fst rx) B (Fin 0)) (snd rx)))
            (combine row data) (inj (zeros m)))
    else Err ValueError
  else Err ValueError.

Definition xsparse_accumulate (m : nat) (gv : xvec) (la lv : list nat) (lp lq : xvec)
    (n : nat) : result xvec :=
  P0 <- xcoo_toarray m lp la n ;;
  Q0 <- xcoo_toarray m lq lv n ;;
  g1 <- xvadd gv P0 ;;
  xvadd g1 Q0.

(** Lines 98-113 of [gcall] on floats. *)
Definition xaccumulate (n m : nat) (gv : xvec) (la lv : list nat) (lp lq : xvec)
    : result xvec :=
  if Nat.leb n 400 then xdense_loop gv (xzip4 la lv lp lq)
  else xsparse_accumulate m gv la lv lp lq n.

(** What [gcall] writes: [self.below], [self.above], [self.p0],
    [self.q0] and [dae.g]. *)
Record written : Type := Written {
  w_below : vec;
  w_above : vec;
  w_p0 : xvec;
  w_q0 : xvec;
  w_g : xvec
}.

(** One stamped Jacobian entry with a float value. *)
Definition xtriplet : Type := (nat * nat * xq)%type.

(** [dae.add_jac] on float values; see [add_jac]. *)
Definition xadd_jac (J : list xtriplet) (val : xvec) (row col : list nat)
    : result (list xtriplet) :=
  if Nat.eqb (length val) (length row) && Nat.eqb (length row) (length col) then
    Ok (J ++ combine (combine row col) val)
  else Err DimensionMismatch.

Section Floats.

(** What the library's elementwise [div] does with a zero divisor is
    settled outside pq.py: it either raises an exception of its own or
    returns the IEEE quotient.  The passes below are given for both. *)
Variable raises_on_zero : bool.

(** [div(a, b)] on two columns of rationals. *)
Definition xdiv (a b : vec) : result xvec :=
  if Nat.eqb (length a) (length b) then
    if raises_on_zero && negb (forallb q2b b) then Err ArithmeticFailure
    else Ok (map2 xquot a b)
  else Err TypeError.

Variable altb_test : Qc -> Qc -> bool.
Variable agtb_test : Qc -> Qc -> bool.

(** Lines 75-92 of [gcall]: the indicator columns and the factor. *)
Definition gcall_k_x (cfg : config) (self : Pq.t) (y : vec) : result (vec * vec * xvec) :=
  let n := Pq.n self in
  if forcez cfg then
    if truthy (Pq.v0 self) then
      yv <- gather y (Pq.v self) ;;
      k <- xdiv (vsq yv) (vsq (Pq.v0 self)) ;;
      Ok (Pq.below self, Pq.above self, k)
    else Ok (Pq.below self, Pq.above self, inj (ones n))
  else if forcepq cfg then Ok (Pq.below self, Pq.above self, inj (ones n))
  else
    yv <- gather y (Pq.v self) ;;
    bl <- altb altb_test yv (Pq.vmin self) ;;
    d1 <- xdiv (vsq yv) (vsq (Pq.vmin self)) ;;
    t1 <- xmul (inj bl) d1 ;;
    k1 <- xvadd (inj (zeros n)) t1 ;;
    ab <- agtb agtb_test yv (Pq.vmax self) ;;
    d2 <- xdiv (vsq yv) (vsq (Pq.vmax self)) ;;
    t2 <- xmul (inj ab) d2 ;;
    k2 <- xvadd k1 t2 ;;
    bo <- aorb bl ab ;;
    let normal := nota bo in
    t3 <- xmul (inj normal) (inj (ones n)) ;;
    k3 <- xvadd k2 t3 ;;
    Ok (bl, ab, k3).

(** [gcall] on the iterate [y] and the residual [gx] of [m] entries. *)
Definition gcall_x (cfg : config) (self : Pq.t) (y : vec) (m : nat) (gx : xvec)
    : result written :=
  sk <- gcall_k_x cfg self y ;;
  k <- xmul (inj (Pq.u self)) (snd sk) ;;
  np0 <- xmul k (inj (Pq.p self)) ;;
  nq0 <- xmul k (inj (Pq.q self)) ;;
  ng <- xaccumulate (Pq.n self) m gx (Pq.a self) (Pq.v self) np0 nq0 ;;
  Ok (Written (fst (fst sk)) (snd (fst sk)) np0 nq0 ng).

(** Lines 116-124 of [gycall]. *)
Definition gycall_k_x (cfg : config) (self : Pq.t) (y : vec) : result xvec :=
  let k := inj (zeros (Pq.n self)) in
  if forcez cfg then
    if truthy (Pq.v0 self) then
      yv <- gather y (Pq.v self) ;;
      xdiv (vdouble yv) (vsq (Pq.v0 self))
    else Ok k
  else
    yv <- gather y (Pq.v self) ;;
    d1 <- xdiv (vdouble yv) (vsq (Pq.vmin self)) ;;
    t1 <- xmul (inj (Pq.below self)) d1 ;;
    k1 <- xvadd k t1 ;;
    d2 <- xdiv (vdouble yv) (vsq (Pq.vmax self)) ;;
    t2 <- xmul (inj (Pq.above self)) d2 ;;
    xvadd k1 t2.

(** [gycall] on the iterate [y] and the Jacobian block [J]. *)
Definition gycall_x (cfg : config) (self : Pq.t) (y : vec) (J : list xtriplet)
    : result (list xtriplet) :=
  if forcepq cfg then Ok J
  else
    k0 <- gycall_k_x cfg self y ;;
    k <- xmul (inj (Pq.u self)) k0 ;;
    pv <- xmul (inj (Pq.p self)) k ;;
    J1 <- xadd_jac J pv (Pq.a self) (Pq.v self) ;;
    qv <- xmul (inj (Pq.q self)) k ;;
    xadd_jac J1 qv (Pq.v self) (Pq.v self).

End Floats.

(** The outcome of the rational pass read among the floats. *)
Definition rmap {A B : Type} (f : A -> B) (r : result A) : result B :=
  match r with
  | Ok a => Ok (f a)
  | Err e => Err e
  end.

Definition written_of (sd : Pq.t * Dae.t) : written :=
  Written (Pq.below (fst sd)) (Pq.above (fst sd))
          (inj (Pq.p0 (fst sd))) (inj (Pq.q0 (fst sd))) (inj (Dae.g (snd sd))).

Definition xtriplets (J : list triplet) : list xtriplet :=
  map (fun t => (fst t, Fin (snd t))) J.

(** A disabled load on the bus of [bus1] whose lower voltage limit is
    zero. *)
Definition load1_off_zero_limit (p q : Qc) : Pq.t :=
  Pq.mk 1 [0] [p] [q] [0] [qc 11 10] [0%nat] [1%nat] [] [] [] [0] [0].

(** Instance [i] has a zero among the divisors the selected branch of
    the passes reads: its reference voltage once forced impedance
    scales, one of its two limits in the switching branch. *)
Definition zero_divisor_at (cfg : config) (self : Pq.t) (i : nat) : bool :=
  if forcez cfg then truthy (Pq.v0 self) && Qc_eqb (at_ (Pq.v0 self) i) 0
  else if forcepq cfg then false
  else Qc_eqb (at_ (Pq.vmin self) i) 0 || Qc_eqb (at_ (Pq.vmax self) i) 0.

(** ** Composition of models *)

Module Composition.

Local Open Scope string_scope.

(** A model class as composition sees it: its name, the names it
    declares, the names reachable through its bound references, and the
    names its declarations refer to (indexers and the symbols of its
    initialiser and residual expressions), in the order they occur. *)
Record model : Type := mk {
  name : string;
  declared : list string;
  bound : list string;
  referenced : list string
}.

(** The composition-time errors of section 7, each with the model and
    the field or symbol it is about. *)
Inductive cause : Type :=
| DuplicateDeclaration (m field : string)
| UnresolvedReference (m field : string)
| DuplicateKey (m field : string)
| UndefinedSymbol (m symbol : string).

Inductive error : Type :=
| ModelCompositionError (c : cause).

Record CompiledSystem : Type := system {
  models : list model
}.

Definition mem (x : string) (l : list string) : bool := existsb (String.eqb x) l.

Fixpoint first_duplicate (l : list string) : option string :=
  match l with
  | [] => None
  | x :: t => if mem x t then Some x else first_duplicate t
  end.

(** Modelled from the spec: the registry is defined outside the two
    modules embedded here.  Section 4.1: declaring a duplicate name fails with
    [DuplicateDeclaration]. *)
Definition build_registry (m : model) : option cause :=
  match first_duplicate (declared m) with
  | Some x => Some (DuplicateDeclaration (name m) x)
  | None => None
  end.

(** A name is known to a model when the model declares it or a bound
    reference reaches it. *)
Definition known (m : model) (x : string) : bool :=
  mem x (declared m) || mem x (bound m).

(** Modelled from the spec: the equation compiler is defined outside
    the two modules embedded here.  Section 4.3: compilation fails with
    [UndefinedSymbol] if an expression references a name not declared by
    the model or reachable via a bound reference. *)
Definition compile (m : model) : cause + model :=
  match find (fun x => negb (known m x)) (referenced m) with
  | Some x => inl (UndefinedSymbol (name m) x)
  | None => inr m
  end.

Fixpoint compile_all (case : list model) : cause + list model :=
  match case with
  | [] => inr []
  | m :: rest =>
      match compile m with
      | inl c => inl c
      | inr cm =>
          match compile_all rest with
          | inl c => inl c
          | inr cms => inr (cm :: cms)
          end
      end
  end.

(** The first failure a stage reports over the models of a case. *)
Fixpoint first_failure (stage : model -> option cause) (case : list model) : option cause :=
  match case with
  | [] => None
  | m :: rest =>
      match stage m with
      | Some c => Some c
      | None => first_failure stage rest
      end
  end.

Section Initialize.

(** The resolver of section 4.2 reads the instance tables of a case,
    which model classes do not carry; the failure it reports for a model
    of a case, if any, stays a parameter. *)
Variable resolve : list model -> model -> option cause.

(** Modelled from the spec: [initialize] is defined outside the two
    modules embedded here.  Section 6: it builds registries, resolves references,
    compiles equations, and fails with [ModelCompositionError] wrapping
    the cause if any model is malformed. *)
Definition initialize (case : list model) : error + CompiledSystem :=
  match first_failure build_registry case with
  | Some c => inl (ModelCompositionError c)
  | None =>
      match first_failure (resolve case) case with
      | Some c => inl (ModelCompositionError c)
      | None =>
          match compile_all case with
          | inl c => inl (ModelCompositionError c)
          | inr cms => inr (system cms)
          end
      end
  end.

End Initialize.

(** The names [TCSCBase.__init__] assigns and the names it refers to:
    [indexer=self.syn] twice, then [v_str='wref0'] and
    [e_str='wref0 - wref'].  Nothing assigns [syn]. *)
Definition TCSCBase : model :=
  mk "TCSCBase" ["Sg"; "Vn"; "wref"] []
     ["syn"; "syn"; "wref0"; "wref0"; "wref"]%string.

(** The names [TCSCBaseData.__init__] assigns. *)
Definition TCSCBaseData_declared : list string :=
  ["tcsc"; "P"; "wref0"; "Xc"; "Xl"; "alpha"]%string.

(** [TCSC]: the data columns together with the base model.  (The class
    statement names its data base [TCSCModelData]; the file defines
    [TCSCBaseData].) *)
Definition TCSC : model :=
  mk "TCSC" (TCSCBaseData_declared ++ declared TCSCBase) []
     (referenced TCSCBase).

(** A resolver that reports nothing. *)
Definition resolve_nothing (case : list model) (m : model) : option cause := None.

End Composition.

(** * Properties *)

(** ** Basic facts: numbers *)

Lemma Qc_leb_iff (x y : Qc) : Qc_leb x y = true <-> x <= y.
Proof. unfold Qc_leb, Qcle. apply Qle_bool_iff. Qed.

Lemma Qc_ltb_iff (x y : Qc) : Qc_ltb x y = true <-> x < y.
Proof.
  unfold Qc_ltb, Qclt. rewrite negb_true_iff.
  split; intro H.
  - apply Qnot_le_lt. intro L. apply Qle_bool_iff in L. congruence.
  - destruct (Qle_bool y x) eqn:E; [|reflexivity].
    apply Qle_bool_iff in E. exfalso. exact (Qlt_not_le _ _ H E).
Qed.

Lemma Qc_eqb_iff (x y : Qc) : Qc_eqb x y = true <-> x = y.
Proof.
  unfold Qc_eqb. rewrite Qeq_bool_iff. split; intro H.
  - now apply Qc_is_canon.
  - now subst.
Qed.

Lemma q2b_true (x : Qc) : q2b x = true <-> x <> 0.
Proof.
  unfold q2b. rewrite negb_true_iff. split; intro H.
  - intro E. apply Qc_eqb_iff in E. congruence.
  - destruct (Qc_eqb x 0) eqn:E; [|reflexivity]. apply Qc_eqb_iff in E. contradiction.
Qed.

Lemma q2b_false (x : Qc) : q2b x = false <-> x = 0.
Proof.
  unfold q2b. rewrite negb_false_iff. apply Qc_eqb_iff.
Qed.

Lemma q2b_b2q (b : bool) : q2b (b2q b) = b.
Proof. destruct b; reflexivity. Qed.

Lemma b2q_one (b : bool) : b2q b = 1 <-> b = true.
Proof.
  destruct b; simpl; split; intro H; try reflexivity; discriminate.
Qed.

Lemma sq_nonzero (x : Qc) : x <> 0 -> sq x <> 0.
Proof.
  unfold sq. intros H E. apply Qcmult_integral in E. tauto.
Qed.

(** ** Basic facts: lists *)

Local Open Scope nat_scope.

Lemma map2_length {A B C} (f : A -> B -> C) xs ys :
  length xs = length ys -> length (map2 f xs ys) = length xs.
Proof.
  revert ys. induction xs as [|x xs IH]; intros [|y ys] H; simpl in *; try lia.
  rewrite IH; lia.
Qed.

Lemma map2_nth {A B C} (f : A -> B -> C) xs ys i da db dc :
  i < length xs -> i < length ys ->
  nth i (map2 f xs ys) dc = f (nth i xs da) (nth i ys db).
Proof.
  revert ys i. induction xs as [|x xs IH]; intros [|y ys] [|i] Hx Hy; simpl in *; try lia.
  - reflexivity.
  - apply IH; lia.
Qed.

Lemma map_nth_in {A B} (f : A -> B) l i da db :
  i < length l -> nth i (map f l) db = f (nth i l da).
Proof.
  revert i. induction l as [|x l IH]; intros [|i] H; simpl in *; try lia.
  - reflexivity.
  - apply IH; lia.
Qed.

Lemma repeat_nth {A} (x d : A) k i : i < k -> nth i (repeat x k) d = x.
Proof.
  revert i. induction k as [|k IH]; intros [|i] H; simpl; try lia.
  - reflexivity.
  - apply IH; lia.
Qed.

Lemma upd_length {A} (l : list A) i x : length (upd l i x) = length l.
Proof.
  revert i. induction l as [|h t IH]; intros [|i]; simpl; auto.
Qed.

Lemma upd_nth {A} (l : list A) i j x d :
  i < length l -> nth j (upd l i x) d = if Nat.eqb i j then x else nth j l d.
Proof.
  revert i j. induction l as [|h t IH]; intros [|i] [|j] H; simpl in *; try lia; auto.
  apply IH; lia.
Qed.

Lemma forallb_nth {A} (f : A -> bool) l i d :
  forallb f l = true -> i < length l -> f (nth i l d) = true.
Proof.
  intros H Hi. rewrite forallb_forall in H. apply H. now apply nth_In.
Qed.

(** ** Basic facts: the library calls succeed on well-sized operands *)

Lemma ew_ok f x y : length x = length y -> ew f x y = Ok (map2 f x y).
Proof. intro H. unfold ew. rewrite H, Nat.eqb_refl. reflexivity. Qed.

Lemma div_ok x y :
  length x = length y -> forallb q2b y = true -> div x y = Ok (map2 Qcdiv x y).
Proof. intros H N. unfold div. rewrite H, Nat.eqb_refl, N. reflexivity. Qed.

Lemma gather_ok yv idx :
  forallb (fun i => Nat.ltb i (length yv)) idx = true ->
  gather yv idx = Ok (map (fun i => nth i yv 0%Qc) idx).
Proof.
  induction idx as [|i idx IH]; simpl; intro H; [reflexivity|].
  apply andb_true_iff in H. destruct H as [Hi Hr].
  apply Nat.ltb_lt in Hi.
  destruct (nth_error yv i) as [x|] eqn:E.
  - rewrite (IH Hr). simpl. f_equal. f_equal.
    symmetry. now apply nth_error_nth.
  - apply nth_error_None in E. lia.
Qed.

Lemma add_at_ok gv i x :
  i < length gv -> add_at gv i x = Ok (upd gv i ((nth i gv 0 + x)%Qc)).
Proof.
  intro H. unfold add_at.
  destruct (nth_error gv i) as [z|] eqn:E.
  - now rewrite (nth_error_nth _ _ 0%Qc E).
  - apply nth_error_None in E. lia.
Qed.

Lemma vsq_length x : length (vsq x) = length x.
Proof. apply length_map. Qed.

Lemma vsq_nonzero x : forallb q2b x = true -> forallb q2b (vsq x) = true.
Proof.
  unfold vsq. rewrite !forallb_forall. intros H z Hz.
  apply in_map_iff in Hz. destruct Hz as [w [<- Hw]].
  apply q2b_true, sq_nonzero, q2b_true. now apply H.
Qed.

(** ** Accumulation *)

Local Open Scope Qc_scope.

Lemma contrib_rows_zip4 o la lv lp lq :
  length la = length lv -> length la = length lp -> length la = length lq ->
  contrib_rows o (zip4 la lv lp lq) = contrib o la lp + contrib o lv lq.
Proof.
  revert lv lp lq.
  induction la as [|ia la IH]; intros [|iv lv] [|xp lp] [|xq lq] H1 H2 H3;
    simpl in *; try discriminate; try ring.
  rewrite IH by congruence. ring.
Qed.

Lemma rows_in_range_zip4 k la lv lp lq :
  Forall (fun i => (i < k)%nat) la -> Forall (fun i => (i < k)%nat) lv ->
  rows_in_range k (zip4 la lv lp lq).
Proof.
  revert lv lp lq.
  induction la as [|ia la IH]; intros [|iv lv] [|xp lp] [|xq lq] Ha Hv;
    simpl; try constructor.
  - inversion Ha; inversion Hv; subst. simpl. split; assumption.
  - inversion Ha; inversion Hv; subst. apply IH; assumption.
Qed.

(** The dense loop returns, keeps the size of [g], and leaves at every
    position the old entry plus what the rows aim there. *)
Lemma dense_loop_spec rows : forall gv,
  rows_in_range (length gv) rows ->
  exists g', dense_loop gv rows = Ok g' /\ length g' = length gv /\
             forall o, nth o g' 0 = nth o gv 0 + contrib_rows o rows.
Proof.
  induction rows as [|[[[ia iv] xp] xq] rest IH]; intros gv Hr.
  - exists gv. simpl. repeat split; auto. intro o. ring.
  - inversion Hr as [|? ? [Ha Hv] Hrest]; subst. simpl in Ha, Hv.
    simpl. rewrite (add_at_ok gv ia xp Ha). simpl.
    set (g1 := upd gv ia (nth ia gv 0 + xp)).
    assert (L1 : length g1 = length gv) by apply upd_length.
    rewrite (add_at_ok g1 iv xq) by (rewrite L1; exact Hv). simpl.
    set (g2 := upd g1 iv (nth iv g1 0 + xq)).
    assert (L2 : length g2 = length gv) by (unfold g2; rewrite upd_length; exact L1).
    destruct (IH g2) as [g' [E [L N]]].
    { unfold rows_in_range in *. rewrite L2. exact Hrest. }
    exists g'. split; [exact E|]. split; [congruence|].
    intro o. rewrite N. unfold g2.
    rewrite (upd_nth g1 iv o) by (rewrite L1; exact Hv).
    unfold g1.
    rewrite (upd_nth gv ia o) by exact Ha.
    rewrite (upd_nth gv ia iv) by exact Ha.
    destruct (Nat.eqb iv o) eqn:Evo; destruct (Nat.eqb ia o) eqn:Eao;
      try apply Nat.eqb_eq in Evo; try apply Nat.eqb_eq in Eao; subst.
    + rewrite Nat.eqb_refl. ring.
    + rewrite Eao. ring.
    + ring.
    + ring.
Qed.

Lemma contrib_out_of_range o row vals k :
  Forall (fun i => (i < k)%nat) row -> (k <= o)%nat -> contrib o row vals = 0.
Proof.
  revert vals. induction row as [|r row IH]; intros [|x vals] H Ho; simpl; auto.
  inversion H; subst.
  assert (E : Nat.eqb r o = false) by (apply Nat.eqb_neq; lia).
  rewrite E, IH by assumption. ring.
Qed.

Lemma coo_fold_spec row : forall data B,
  Forall (fun i => (i < length B)%nat) row ->
  let B' := fold_left (fun B rx => upd B (fst rx) (nth (fst rx) B 0 + snd rx))
              (combine row data) B in
  length B' = length B /\ forall o, nth o B' 0 = nth o B 0 + contrib o row data.
Proof.
  induction row as [|r row IH]; intros [|x data] B H; simpl;
    try (split; [reflexivity | intro o; ring]).
  inversion H as [|? ? Hr Hrest]; subst.
  set (B1 := upd B r (nth r B 0 + x)).
  assert (L1 : length B1 = length B) by apply upd_length.
  destruct (IH data B1) as [L N].
  { rewrite L1. exact Hrest. }
  split; [congruence|].
  intro o. rewrite N. unfold B1.
  rewrite (upd_nth B r o) by exact Hr.
  destruct (Nat.eqb r o) eqn:E.
  - apply Nat.eqb_eq in E. subst. ring.
  - ring.
Qed.

Lemma forallb_ltb_Forall k row :
  forallb (fun r => Nat.ltb r k) row = true <-> Forall (fun i => (i < k)%nat) row.
Proof.
  rewrite forallb_forall, Forall_forall. split; intros H x Hx.
  - apply Nat.ltb_lt. now apply H.
  - apply Nat.ltb_lt. now apply H.
Qed.

Lemma coo_toarray_spec k data row :
  length data = length row ->
  Forall (fun i => (i < k)%nat) row ->
  exists B, coo_toarray k data row (length row) = Ok B /\ length B = k /\
            forall o, nth o B 0 = contrib o row data.
Proof.
  intros HL Hr. unfold coo_toarray.
  rewrite HL, !Nat.eqb_refl. simpl.
  rewrite (proj2 (forallb_ltb_Forall k row) Hr).
  eexists. split; [reflexivity|].
  destruct (coo_fold_spec row data (zeros k)) as [L N].
  { unfold zeros. rewrite repeat_length. exact Hr. }
  split.
  - rewrite L. apply repeat_length.
  - intro o. rewrite N.
    assert (Z : nth o (zeros k) 0 = 0).
    { unfold zeros. destruct (Nat.lt_ge_cases o k) as [Hlt|Hge].
      - now apply repeat_nth.
      - apply nth_overflow. now rewrite repeat_length. }
    rewrite Z. ring.
Qed.

Lemma vadd_spec x y :
  length x = length y ->
  exists z, vadd x y = Ok z /\ length z = length x /\
            forall o, nth o z 0 = nth o x 0 + nth o y 0.
Proof.
  intro H. unfold vadd. rewrite (ew_ok _ _ _ H).
  eexists. split; [reflexivity|]. split; [now apply map2_length|].
  intro o. destruct (Nat.lt_ge_cases o (length x)) as [Hlt|Hge].
  - apply map2_nth; lia.
  - rewrite !nth_overflow; try lia; try ring.
    rewrite map2_length; lia.
Qed.

(** The sparse path returns, keeps the size of [g], and adds the same
    sums. *)
Lemma sparse_accumulate_spec k gv la lv lp lq cnt :
  length gv = k -> length la = cnt -> length lv = cnt ->
  length lp = cnt -> length lq = cnt ->
  Forall (fun i => (i < k)%nat) la -> Forall (fun i => (i < k)%nat) lv ->
  exists g', sparse_accumulate k gv la lv lp lq cnt = Ok g' /\ length g' = length gv /\
             forall o, nth o g' 0 = nth o gv 0 + (contrib o la lp + contrib o lv lq).
Proof.
  intros Hg Ha Hv Hp Hq Ra Rv. unfold sparse_accumulate.
  destruct (coo_toarray_spec k lp la) as [P0 [EP [LP NP]]]; [congruence|exact Ra|].
  destruct (coo_toarray_spec k lq lv) as [Q0 [EQ [LQ NQ]]]; [congruence|exact Rv|].
  rewrite Ha in EP. rewrite Hv in EQ. rewrite EP, EQ. simpl.
  destruct (vadd_spec gv P0) as [g1 [E1 [L1 N1]]]; [congruence|].
  rewrite E1. simpl.
  destruct (vadd_spec g1 Q0) as [g2 [E2 [L2 N2]]]; [congruence|].
  exists g2. split; [exact E2|]. split; [congruence|].
  intro o. rewrite N2, N1, NP, NQ. ring.
Qed.

Lemma list_eq_nth (x z : vec) :
  length x = length z -> (forall o, nth o x 0 = nth o z 0) -> x = z.
Proof.
  intros L N. apply (nth_ext x z 0 0 L). intros o _. apply N.
Qed.

Lemma contrib_rows_perm o rows rows' :
  Permutation rows rows' -> contrib_rows o rows = contrib_rows o rows'.
Proof.
  induction 1 as [| [[[ia iv] xp] xq] l l' _ IH
                  | [[[ia iv] xp] xq] [[[ib iw] yp] yq] l
                  | l l' l'' _ IH1 _ IH2]; simpl.
  - reflexivity.
  - now rewrite IH.
  - ring.
  - congruence.
Qed.

Lemma rows_in_range_perm k rows rows' :
  Permutation rows rows' -> rows_in_range k rows -> rows_in_range k rows'.
Proof. intros P H. unfold rows_in_range in *. now rewrite <- P. Qed.

Lemma dense_loop_perm gv rows rows' :
  rows_in_range (length gv) rows -> Permutation rows rows' ->
  exists g', dense_loop gv rows = Ok g' /\ dense_loop gv rows' = Ok g' /\
             forall o, nth o g' 0 = nth o gv 0 + contrib_rows o rows.
Proof.
  intros Hr P.
  destruct (dense_loop_spec rows gv Hr) as [g1 [E1 [L1 N1]]].
  destruct (dense_loop_spec rows' gv (rows_in_range_perm _ _ _ P Hr)) as [g2 [E2 [L2 N2]]].
  exists g1. split; [exact E1|]. split; [|exact N1].
  rewrite E2. f_equal. apply list_eq_nth; [congruence|].
  intro o. rewrite N1, N2. f_equal. symmetry. now apply contrib_rows_perm.
Qed.

Lemma qc_5_3_8 : qc 5 1 + qc 3 1 = qc 8 1.
Proof. apply Qc_is_canon. reflexivity. Qed.

(** Both paths of the accumulation step return the same vector. *)
Lemma accumulate_paths (cnt k : nat) (gv : vec) (la lv : list nat) (lp lq : vec) :
  length gv = k ->
  length la = cnt -> length lv = cnt -> length lp = cnt -> length lq = cnt ->
  Forall (fun i => (i < k)%nat) la -> Forall (fun i => (i < k)%nat) lv ->
  exists g',
    dense_loop gv (zip4 la lv lp lq) = Ok g' /\
    sparse_accumulate k gv la lv lp lq cnt = Ok g' /\
    accumulate cnt k gv la lv lp lq = Ok g' /\
    forall o, nth o g' 0 = nth o gv 0 + (contrib o la lp + contrib o lv lq).
Proof.
  intros Hg Ha Hv Hp Hq Ra Rv.
  destruct (dense_loop_spec (zip4 la lv lp lq) gv) as [g1 [E1 [L1 N1]]].
  { apply rows_in_range_zip4; rewrite Hg; assumption. }
  destruct (sparse_accumulate_spec k gv la lv lp lq cnt Hg Ha Hv Hp Hq Ra Rv)
    as [g2 [E2 [L2 N2]]].
  assert (EQ : g1 = g2).
  { apply list_eq_nth; [congruence|]. intro o.
    rewrite N1, N2, contrib_rows_zip4 by congruence. reflexivity. }
  subst g2. exists g1. repeat split; auto.
  unfold accumulate. destruct (Nat.leb cnt 400); assumption.
Qed.

(** The instance counts around the threshold: 400 instances take the
    dense loop, 401 the coordinate lists. *)
Lemma accumulate_threshold (k : nat) (gv : vec) (la lv : list nat) (lp lq : vec) :
  accumulate 400 k gv la lv lp lq = dense_loop gv (zip4 la lv lp lq) /\
  accumulate 401 k gv la lv lp lq = sparse_accumulate k gv la lv lp lq 401.
Proof. split; reflexivity. Qed.

(** C4: accumulation into the residual is additive and independent of the
    order of the rows: any reordering of the instances gives the same
    vector, and two instances that aim +5 and +3 at one offset leave
    there the old value plus 8 in either order. *)
Theorem shared_offset_accumulation :
  (forall gv rows rows',
      rows_in_range (length gv) rows -> Permutation rows rows' ->
      exists g', dense_loop gv rows = Ok g' /\ dense_loop gv rows' = Ok g' /\
                 forall o, nth o g' 0 = nth o gv 0 + contrib_rows o rows) /\
  (forall gv o w1 w2 q1 q2,
      (o < length gv)%nat -> (w1 < length gv)%nat -> (w2 < length gv)%nat ->
      w1 <> o -> w2 <> o ->
      exists g',
        dense_loop gv [(o, w1, qc 5 1, q1); (o, w2, qc 3 1, q2)] = Ok g' /\
        dense_loop gv [(o, w2, qc 3 1, q2); (o, w1, qc 5 1, q1)] = Ok g' /\
        nth o g' 0 = nth o gv 0 + qc 8 1).
Proof.
  split.
  - intros gv rows rows' Hr P. now apply dense_loop_perm.
  - intros gv o w1 w2 q1 q2 Ho H1 H2 N1 N2.
    destruct (dense_loop_perm gv [(o, w1, qc 5 1, q1); (o, w2, qc 3 1, q2)]
                [(o, w2, qc 3 1, q2); (o, w1, qc 5 1, q1)]) as [g' [E1 [E2 N]]].
    { repeat constructor; simpl; assumption. }
    { apply perm_swap. }
    exists g'. split; [exact E1|]. split; [exact E2|].
    rewrite N. simpl. rewrite Nat.eqb_refl.
    apply Nat.eqb_neq in N1, N2. rewrite N1, N2.
    rewrite <- qc_5_3_8. ring.
Qed.

Lemma shared_offset_accumulation_witness :
  exists g',
    dense_loop [qc 1 2; 0; 0] [(0%nat, 1%nat, qc 5 1, 1); (0%nat, 2%nat, qc 3 1, 0)] = Ok g' /\
    dense_loop [qc 1 2; 0; 0] [(0%nat, 2%nat, qc 3 1, 0); (0%nat, 1%nat, qc 5 1, 1)] = Ok g' /\
    nth 0 g' 0 = nth 0 [qc 1 2; 0; 0] 0 + qc 8 1.
Proof.
  apply (proj2 shared_offset_accumulation [qc 1 2; 0; 0] 0%nat 1%nat 2%nat 1 0);
    simpl; lia.
Defined.

(** ** The residual pass, regime by regime *)

Lemma map2_length_min {A B C} (f : A -> B -> C) xs ys :
  length (map2 f xs ys) = Nat.min (length xs) (length ys).
Proof.
  revert ys. induction xs as [|x xs IH]; intros [|y ys]; simpl; auto.
Qed.

Ltac len :=
  unfold vsq, vdouble, nota, zeros, ones in *;
  repeat rewrite ?map2_length_min, ?length_map, ?repeat_length in *;
  lia.

Lemma sized_elim self :
  sized self = true ->
  let n := Pq.n self in
  length (Pq.u self) = n /\ length (Pq.p self) = n /\ length (Pq.q self) = n /\
  length (Pq.vmin self) = n /\ length (Pq.vmax self) = n /\
  length (Pq.a self) = n /\ length (Pq.v self) = n.
Proof.
  unfold sized. intro H.
  repeat (apply andb_true_iff in H; destruct H as [H ?]).
  repeat match goal with E : Nat.eqb _ _ = true |- _ => apply Nat.eqb_eq in E end.
  repeat split; assumption.
Qed.

Lemma addressed_elim self dae :
  addressed self dae = true ->
  length (Dae.g dae) = Dae.m dae /\
  forallb (fun i => Nat.ltb i (length (Dae.y dae))) (Pq.v self) = true /\
  Forall (fun i => (i < Dae.m dae)%nat) (Pq.a self) /\
  Forall (fun i => (i < Dae.m dae)%nat) (Pq.v self).
Proof.
  unfold addressed. intro H.
  repeat (apply andb_true_iff in H; destruct H as [H ?]).
  apply Nat.eqb_eq in H.
  repeat split; try assumption; now apply forallb_ltb_Forall.
Qed.

Lemma gather_volt self dae i :
  (i < length (Pq.v self))%nat ->
  nth i (map (fun j => nth j (Dae.y dae) 0) (Pq.v self)) 0 = volt self dae i.
Proof.
  intro H. unfold volt. now rewrite (map_nth_in _ _ _ 0%nat 0).
Qed.

Section Residual.

Variable altb_test : Qc -> Qc -> bool.
Variable agtb_test : Qc -> Qc -> bool.

(** The factor of the switching branch, as columns. *)
Lemma gcall_k_switch cfg self dae :
  forcez cfg = false -> forcepq cfg = false ->
  sized self = true -> addressed self dae = true ->
  nonzero (Pq.vmin self) = true -> nonzero (Pq.vmax self) = true ->
  exists bl ab k,
    gcall_k altb_test agtb_test cfg self dae
      = Ok (with_services self (Pq.p0 self) (Pq.q0 self) bl ab, k) /\
    length bl = Pq.n self /\ length ab = Pq.n self /\ length k = Pq.n self /\
    forall i, (i < Pq.n self)%nat ->
      at_ bl i = b2q (altb_test (volt self dae i) (at_ (Pq.vmin self) i)) /\
      at_ ab i = b2q (agtb_test (volt self dae i) (at_ (Pq.vmax self) i)) /\
      at_ k i = k_switch (at_ bl i) (at_ ab i) (volt self dae i)
                  (at_ (Pq.vmin self) i) (at_ (Pq.vmax self) i).
Proof.
  intros Fz Fpq Hs Ha Nmin Nmax.
  destruct (sized_elim self Hs) as (Lu & Lp & Lq & Lmin & Lmax & La & Lv).
  destruct (addressed_elim self dae Ha) as (Lg & Ry & Ra & Rv).
  unfold gcall_k. rewrite Fz, Fpq.
  rewrite (gather_ok _ _ Ry). cbn [bind].
  set (yv := map (fun i => nth i (Dae.y dae) 0) (Pq.v self)).
  assert (Lyv : length yv = Pq.n self) by (unfold yv; rewrite length_map; exact Lv).
  unfold altb, agtb, aorb, mul, vadd.
  rewrite ew_ok by len. cbn [bind].
  set (bl := map2 (fun s t => b2q (altb_test s t)) yv (Pq.vmin self)).
  assert (Lbl : length bl = Pq.n self) by (unfold bl; len).
  rewrite div_ok by (try apply vsq_nonzero; try assumption; len). cbn [bind].
  rewrite ew_ok by len. cbn [bind].
  rewrite ew_ok by len. cbn [bind].
  rewrite ew_ok by len. cbn [bind].
  set (ab := map2 (fun s t => b2q (agtb_test s t)) yv (Pq.vmax self)).
  assert (Lab : length ab = Pq.n self) by (unfold ab; len).
  rewrite div_ok by (try apply vsq_nonzero; try assumption; len). cbn [bind].
  rewrite ew_ok by len. cbn [bind].
  rewrite ew_ok by len. cbn [bind].
  rewrite ew_ok by len. cbn [bind].
  rewrite ew_ok by len. cbn [bind].
  rewrite ew_ok by len. cbn [bind].
  eexists bl, ab, _. split; [reflexivity|].
  split; [exact Lbl|]. split; [exact Lab|]. split; [len|].
  intros i Hi. unfold at_.
  assert (Vi : nth i yv 0 = volt self dae i).
  { unfold yv. apply gather_volt. lia. }
  split; [|split].
  - unfold bl. rewrite (map2_nth _ _ _ _ 0 0 0) by lia. now rewrite Vi.
  - unfold ab. rewrite (map2_nth _ _ _ _ 0 0 0) by lia. now rewrite Vi.
  - unfold k_switch, normal_of.
    repeat (rewrite (map2_nth _ _ _ _ 0 0 0) by len).
    unfold nota. rewrite (map_nth_in _ _ _ 0 0) by len.
    repeat (rewrite (map2_nth _ _ _ _ 0 0 0) by len).
    unfold zeros, ones, vsq. rewrite !repeat_nth by lia.
    rewrite !(map_nth_in _ _ _ 0 0) by lia.
    rewrite Vi, q2b_b2q. reflexivity.
Qed.

Lemma with_services_same (self : Pq.t) :
  with_services self (Pq.p0 self) (Pq.q0 self) (Pq.below self) (Pq.above self) = self.
Proof. destruct self; reflexivity. Qed.

(** The factor in every branch. *)
Lemma gcall_k_spec cfg self dae :
  sized self = true -> addressed self dae = true -> divides_g cfg self = true ->
  exists bl ab k,
    gcall_k altb_test agtb_test cfg self dae
      = Ok (with_services self (Pq.p0 self) (Pq.q0 self) bl ab, k) /\
    length k = Pq.n self /\
    (forall i, (i < Pq.n self)%nat ->
       at_ k i = k_inst altb_test agtb_test cfg self dae i) /\
    (forcez cfg = false -> forcepq cfg = false ->
       length bl = Pq.n self /\ length ab = Pq.n self /\
       forall i, (i < Pq.n self)%nat ->
         at_ bl i = b2q (altb_test (volt self dae i) (at_ (Pq.vmin self) i)) /\
         at_ ab i = b2q (agtb_test (volt self dae i) (at_ (Pq.vmax self) i))) /\
    (forcez cfg = true \/ forcepq cfg = true ->
       bl = Pq.below self /\ ab = Pq.above self).
Proof.
  intros Hs Ha Hd.
  destruct (forcez cfg) eqn:Fz; [|destruct (forcepq cfg) eqn:Fpq].
  - (* forced impedance *)
    exists (Pq.below self), (Pq.above self).
    rewrite with_services_same.
    unfold divides_g in Hd. rewrite Fz in Hd.
    unfold gcall_k, k_inst. rewrite Fz.
    destruct (truthy (Pq.v0 self)) eqn:T.
    + apply andb_true_iff in Hd. destruct Hd as [L0 N0]. apply Nat.eqb_eq in L0.
      destruct (sized_elim self Hs) as (Lu & Lp & Lq & Lmin & Lmax & La & Lv).
      destruct (addressed_elim self dae Ha) as (Lg & Ry & Ra & Rv).
      rewrite (gather_ok _ _ Ry). cbn [bind].
      rewrite div_ok by (try apply vsq_nonzero; try assumption; len). cbn [bind].
      eexists. split; [reflexivity|]. split; [len|].
      split; [|split; [discriminate | auto]].
      intros i Hi. unfold at_.
      rewrite (map2_nth _ _ _ _ 0 0 0) by len.
      unfold vsq. rewrite !(map_nth_in _ _ _ 0 0) by len.
      rewrite gather_volt by lia. reflexivity.
    + exists (ones (Pq.n self)). split; [reflexivity|].
      split; [len|]. split; [|split; [discriminate | auto]].
      intros i Hi. unfold at_, ones. now apply repeat_nth.
  - (* forced constant power *)
    exists (Pq.below self), (Pq.above self), (ones (Pq.n self)).
    rewrite with_services_same.
    unfold gcall_k, k_inst. rewrite Fz, Fpq.
    split; [reflexivity|]. split; [len|].
    split; [|split; [discriminate | auto]].
    intros i Hi. unfold at_, ones. now apply repeat_nth.
  - (* switching *)
    unfold divides_g in Hd. rewrite Fz, Fpq in Hd.
    apply andb_true_iff in Hd. destruct Hd as [Nmin Nmax].
    destruct (gcall_k_switch cfg self dae Fz Fpq Hs Ha Nmin Nmax)
      as (bl & ab & k & E & Lbl & Lab & Lk & N).
    exists bl, ab, k. split; [exact E|]. split; [exact Lk|].
    split; [|split].
    + intros i Hi. destruct (N i Hi) as (Nb & Na & Nk).
      unfold k_inst. rewrite Fz, Fpq, <- Nb, <- Na. exact Nk.
    + intros _ _. split; [exact Lbl|]. split; [exact Lab|].
      intros i Hi. destruct (N i Hi) as (Nb & Na & Nk). now split.
    + intros [X|X]; discriminate.
Qed.

(** The whole pass: it returns, and says what it leaves in [p0], [q0],
    [below], [above] and in the residual. *)
Lemma gcall_spec cfg self dae :
  sized self = true -> addressed self dae = true -> divides_g cfg self = true ->
  exists bl ab np0 nq0 ng,
    gcall altb_test agtb_test cfg self dae
      = Ok (with_services self np0 nq0 bl ab,
            Dae.mk (Dae.y dae) ng (Dae.m dae) (Dae.Gy dae)) /\
    length np0 = Pq.n self /\ length nq0 = Pq.n self /\
    length ng = length (Dae.g dae) /\
    (forall i, (i < Pq.n self)%nat ->
       at_ np0 i = (at_ (Pq.u self) i * k_inst altb_test agtb_test cfg self dae i)
                   * at_ (Pq.p self) i /\
       at_ nq0 i = (at_ (Pq.u self) i * k_inst altb_test agtb_test cfg self dae i)
                   * at_ (Pq.q self) i) /\
    (forall o, nth o ng 0 = nth o (Dae.g dae) 0
                 + (contrib o (Pq.a self) np0 + contrib o (Pq.v self) nq0)) /\
    (forcez cfg = false -> forcepq cfg = false ->
       length bl = Pq.n self /\ length ab = Pq.n self /\
       forall i, (i < Pq.n self)%nat ->
         at_ bl i = b2q (altb_test (volt self dae i) (at_ (Pq.vmin self) i)) /\
         at_ ab i = b2q (agtb_test (volt self dae i) (at_ (Pq.vmax self) i))) /\
    (forcez cfg = true \/ forcepq cfg = true ->
       bl = Pq.below self /\ ab = Pq.above self).
Proof.
  intros Hs Ha Hd.
  destruct (gcall_k_spec cfg self dae Hs Ha Hd) as (bl & ab & k & E & Lk & Nk & Sw & Fr).
  destruct (sized_elim self Hs) as (Lu & Lp & Lq & Lmin & Lmax & La & Lv).
  destruct (addressed_elim self dae Ha) as (Lg & Ry & Ra & Rv).
  unfold gcall. rewrite E. cbn [bind fst snd with_services Pq.u Pq.p Pq.q Pq.a Pq.v Pq.n
                                 Pq.vmin Pq.vmax Pq.v0 Pq.below Pq.above].
  unfold mul. rewrite ew_ok by len. cbn [bind].
  rewrite ew_ok by len. cbn [bind].
  rewrite ew_ok by len. cbn [bind].
  set (np0 := map2 Qcmult (map2 Qcmult (Pq.u self) k) (Pq.p self)).
  set (nq0 := map2 Qcmult (map2 Qcmult (Pq.u self) k) (Pq.q self)).
  assert (Lnp : length np0 = Pq.n self) by (unfold np0; len).
  assert (Lnq : length nq0 = Pq.n self) by (unfold nq0; len).
  destruct (accumulate_paths (Pq.n self) (Dae.m dae) (Dae.g dae)
              (Pq.a self) (Pq.v self) np0 nq0 Lg La Lv Lnp Lnq Ra Rv)
    as (ng & Ed & Es & Eacc & Ng).
  rewrite Eacc. cbn [bind].
  exists bl, ab, np0, nq0, ng. split; [reflexivity|].
  split; [exact Lnp|]. split; [exact Lnq|].
  split.
  { destruct (dense_loop_spec (zip4 (Pq.a self) (Pq.v self) np0 nq0) (Dae.g dae))
      as (g1 & E1 & L1 & _).
    - apply rows_in_range_zip4; rewrite Lg; assumption.
    - congruence. }
  split; [|split; [exact Ng | split; assumption]].
  intros i Hi. unfold at_, np0, nq0.
  repeat (rewrite (map2_nth _ _ _ _ 0 0 0) by len).
  rewrite <- (Nk i Hi). unfold at_. split; reflexivity.
Qed.

End Residual.

(** ** The two accumulation paths *)

(** C3: on the same columns the dense loop (taken for [n <= 400]) and
    the coordinate-list path (taken for [n > 400]) return the same
    residual vector, so the accumulation step gives that vector for
    every instance count: each entry is the old one plus the sum of the
    contributions aimed at it.  For [gcall] as a whole: the residual it
    returns is the one either path computes from the columns [p0] and
    [q0] of that evaluation. *)
Theorem dense_sparse_agree :
  (forall (cnt k : nat) (gv : vec) (la lv : list nat) (lp lq : vec),
     length gv = k ->
     length la = cnt -> length lv = cnt -> length lp = cnt -> length lq = cnt ->
     Forall (fun i => (i < k)%nat) la -> Forall (fun i => (i < k)%nat) lv ->
     exists g',
       dense_loop gv (zip4 la lv lp lq) = Ok g' /\
       sparse_accumulate k gv la lv lp lq cnt = Ok g' /\
       accumulate cnt k gv la lv lp lq = Ok g' /\
       forall o, nth o g' 0 = nth o gv 0 + (contrib o la lp + contrib o lv lq)) /\
  (forall altb_test agtb_test cfg self dae,
     sized self = true -> addressed self dae = true -> divides_g cfg self = true ->
     exists self' dae',
       gcall altb_test agtb_test cfg self dae = Ok (self', dae') /\
       dense_loop (Dae.g dae)
         (zip4 (Pq.a self) (Pq.v self) (Pq.p0 self') (Pq.q0 self')) = Ok (Dae.g dae') /\
       sparse_accumulate (Dae.m dae) (Dae.g dae)
         (Pq.a self) (Pq.v self) (Pq.p0 self') (Pq.q0 self') (Pq.n self)
         = Ok (Dae.g dae')).
Proof.
  split; [exact accumulate_paths|].
  intros altb_test agtb_test cfg self dae Hs Ha Hd.
  destruct (gcall_spec altb_test agtb_test cfg self dae Hs Ha Hd)
    as (bl & ab & np0 & nq0 & ng & E & Lnp & Lnq & Lng & _ & Ng & _).
  destruct (sized_elim self Hs) as (Lu & Lp & Lq & Lmin & Lmax & La & Lv).
  destruct (addressed_elim self dae Ha) as (Lg & Ry & Ra & Rv).
  destruct (accumulate_paths (Pq.n self) (Dae.m dae) (Dae.g dae)
              (Pq.a self) (Pq.v self) np0 nq0 Lg La Lv Lnp Lnq Ra Rv)
    as (g' & Ed & Es & _ & N').
  destruct (dense_loop_spec (zip4 (Pq.a self) (Pq.v self) np0 nq0) (Dae.g dae))
    as (g1 & E1 & L1 & _).
  { apply rows_in_range_zip4; rewrite Lg; assumption. }
  assert (EQ : ng = g').
  { apply list_eq_nth.
    - rewrite Lng, <- L1. congruence.
    - intro o. now rewrite Ng, N'. }
  subst g'. eexists _, _. split; [exact E|].
  cbn [with_services Pq.p0 Pq.q0 Dae.g]. split; assumption.
Qed.

Lemma dense_sparse_agree_witness :
  exists g',
    dense_loop [qc 1 2; 0] (zip4 (repeat 1%nat 401) (repeat 0%nat 401)
                              (repeat (qc 1 3) 401) (repeat 1 401)) = Ok g' /\
    sparse_accumulate 2 [qc 1 2; 0] (repeat 1%nat 401) (repeat 0%nat 401)
                              (repeat (qc 1 3) 401) (repeat 1 401) 401 = Ok g' /\
    accumulate 401 2 [qc 1 2; 0] (repeat 1%nat 401) (repeat 0%nat 401)
                              (repeat (qc 1 3) 401) (repeat 1 401) = Ok g' /\
    forall o, nth o g' 0 = nth o [qc 1 2; 0] 0
                 + (contrib o (repeat 1%nat 401) (repeat (qc 1 3) 401)
                    + contrib o (repeat 0%nat 401) (repeat 1 401)).
Proof.
  apply (proj1 dense_sparse_agree 401%nat 2%nat);
    try apply repeat_length; try reflexivity.
  - apply Forall_forall. intros x Hx. apply repeat_spec in Hx. lia.
  - apply Forall_forall. intros x Hx. apply repeat_spec in Hx. lia.
Defined.

(** ** The indicators of the switching branch *)

Lemma normal_of_b2q (b c : bool) : normal_of (b2q b) (b2q c) = b2q (negb (b || c)).
Proof. unfold normal_of. now rewrite !q2b_b2q. Qed.

Lemma b2q_zero (b : bool) : b2q b = 0 <-> b = false.
Proof. destruct b; simpl; split; intro H; try reflexivity; discriminate. Qed.

Lemma k_switch_normal x lo hi : k_switch 0 0 x lo hi = 1.
Proof.
  unfold k_switch.
  replace (normal_of 0 0) with 1 by (apply Qc_is_canon; reflexivity).
  ring.
Qed.

Lemma k_switch_below x lo hi : lo <> 0 -> k_switch 1 0 x lo hi = sq (x / lo).
Proof.
  intro H. unfold k_switch.
  replace (normal_of 1 0) with 0 by (apply Qc_is_canon; reflexivity).
  transitivity (sq x / sq lo); [unfold Qcdiv; ring | unfold sq; field; exact H].
Qed.

Lemma k_switch_above x lo hi : hi <> 0 -> k_switch 0 1 x lo hi = sq (x / hi).
Proof.
  intro H. unfold k_switch.
  replace (normal_of 0 1) with 0 by (apply Qc_is_canon; reflexivity).
  transitivity (sq x / sq hi); [unfold Qcdiv; ring | unfold sq; field; exact H].
Qed.

Lemma qc_lt (a : Z) (b : positive) (c : Z) (d : positive) :
  Qc_ltb (qc a b) (qc c d) = true -> qc a b < qc c d.
Proof. apply Qc_ltb_iff. Qed.

Section Switching.

Variable altb_test : Qc -> Qc -> bool.
Variable agtb_test : Qc -> Qc -> bool.

(** What the statements of this section ask of the two helpers: away
    from a tie they answer as their names say.  Nothing is asked at a
    tie, so both the strict and the closed reading qualify. *)
Hypothesis altb_below : forall x y, x < y -> altb_test x y = true.
Hypothesis altb_above : forall x y, y < x -> altb_test x y = false.
Hypothesis agtb_above : forall x y, y < x -> agtb_test x y = true.
Hypothesis agtb_below : forall x y, x < y -> agtb_test x y = false.

(** The three indicator statements of the switching branch (lines 85,
    88 and 91) for one instance. *)
Lemma indicators_partition value lower upper :
  lower < upper ->
  exactly_one (b2q (altb_test value lower))
              (normal_of (b2q (altb_test value lower)) (b2q (agtb_test value upper)))
              (b2q (agtb_test value upper)).
Proof.
  intro Hlt. rewrite normal_of_b2q. unfold exactly_one.
  destruct (altb_test value lower) eqn:Eb;
    destruct (agtb_test value upper) eqn:Ea; simpl; auto.
  exfalso.
  destruct (Qclt_le_dec lower value) as [L|L].
  - rewrite (altb_above _ _ L) in Eb. discriminate.
  - assert (L' : value < upper) by (eapply Qcle_lt_trans; eassumption).
    rewrite (agtb_below _ _ L') in Ea. discriminate.
Qed.

(** C2: for any value and any limits with [lower < upper], exactly one
    of below, normal, above is 1 and the two others are 0; and every
    evaluation of the switching branch of [gcall] leaves such indicators
    for each instance whose limits satisfy [vmin < vmax]. *)
Theorem partition_invariant :
  (forall value lower upper,
     lower < upper ->
     exactly_one (b2q (altb_test value lower))
                 (normal_of (b2q (altb_test value lower)) (b2q (agtb_test value upper)))
                 (b2q (agtb_test value upper))) /\
  (forall cfg self dae,
     forcez cfg = false -> forcepq cfg = false ->
     sized self = true -> addressed self dae = true -> divides_g cfg self = true ->
     exists self' dae',
       gcall altb_test agtb_test cfg self dae = Ok (self', dae') /\
       forall i, (i < Pq.n self)%nat ->
         at_ (Pq.below self') i = b2q (altb_test (volt self dae i) (at_ (Pq.vmin self) i)) /\
         at_ (Pq.above self') i = b2q (agtb_test (volt self dae i) (at_ (Pq.vmax self) i)) /\
         (at_ (Pq.vmin self) i < at_ (Pq.vmax self) i ->
          exactly_one (at_ (Pq.below self') i)
                      (normal_of (at_ (Pq.below self') i) (at_ (Pq.above self') i))
                      (at_ (Pq.above self') i))).
Proof.
  split; [exact indicators_partition|].
  intros cfg self dae Fz Fpq Hs Ha Hd.
  destruct (gcall_spec altb_test agtb_test cfg self dae Hs Ha Hd)
    as (bl & ab & np0 & nq0 & ng & E & _ & _ & _ & _ & _ & Sw & _).
  destruct (Sw Fz Fpq) as (_ & _ & N).
  eexists _, _. split; [exact E|].
  intros i Hi. cbn [with_services Pq.below Pq.above].
  destruct (N i Hi) as [Nb Na].
  split; [exact Nb|]. split; [exact Na|].
  intro Hlt. rewrite Nb, Na. now apply indicators_partition.
Qed.

(** C5: an enabled load with limits 0.9 and 1.1.  At voltage 1.0 the
    normal indicator is 1 and the pass contributes the plain powers [p]
    and [q]; at voltage 0.8 the below indicator is 1 and it contributes
    [p] and [q] times [(0.8/0.9)^2].  The contributions are what the
    residual receives at the offsets of the load. *)
Theorem load_scenario cfg self dae i :
  forcez cfg = false -> forcepq cfg = false ->
  sized self = true -> addressed self dae = true -> divides_g cfg self = true ->
  (i < Pq.n self)%nat ->
  at_ (Pq.u self) i = 1 ->
  at_ (Pq.vmin self) i = qc 9 10 -> at_ (Pq.vmax self) i = qc 11 10 ->
  exists self' dae',
    gcall altb_test agtb_test cfg self dae = Ok (self', dae') /\
    (forall o, nth o (Dae.g dae') 0 =
               nth o (Dae.g dae) 0 + (contrib o (Pq.a self) (Pq.p0 self')
                                      + contrib o (Pq.v self) (Pq.q0 self'))) /\
    (volt self dae i = 1 ->
       normal_of (at_ (Pq.below self') i) (at_ (Pq.above self') i) = 1 /\
       at_ (Pq.p0 self') i = at_ (Pq.p self) i /\
       at_ (Pq.q0 self') i = at_ (Pq.q self) i) /\
    (volt self dae i = qc 8 10 ->
       at_ (Pq.below self') i = 1 /\
       at_ (Pq.p0 self') i = sq (qc 8 10 / qc 9 10) * at_ (Pq.p self) i /\
       at_ (Pq.q0 self') i = sq (qc 8 10 / qc 9 10) * at_ (Pq.q self) i).
Proof.
  intros Fz Fpq Hs Ha Hd Hi Hu Hlo Hhi.
  destruct (gcall_spec altb_test agtb_test cfg self dae Hs Ha Hd)
    as (bl & ab & np0 & nq0 & ng & E & _ & _ & _ & Np & Ng & Sw & _).
  destruct (Sw Fz Fpq) as (_ & _ & N).
  destruct (N i Hi) as [Nb Na]. destruct (Np i Hi) as [Ep Eq].
  eexists _, _. split; [exact E|].
  cbn [with_services Pq.below Pq.above Pq.p0 Pq.q0 Dae.g].
  split; [exact Ng|].
  unfold k_inst in Ep, Eq. rewrite Fz, Fpq, Hu, Hlo, Hhi in Ep, Eq.
  rewrite Hlo in Nb. rewrite Hhi in Na.
  split; intro Hv; rewrite Hv in *.
  - assert (B : altb_test 1 (qc 9 10) = false)
      by (apply altb_above; apply Qc_ltb_iff; reflexivity).
    assert (A : agtb_test 1 (qc 11 10) = false)
      by (apply agtb_below; apply Qc_ltb_iff; reflexivity).
    rewrite B, A in *. cbn [b2q] in *.
    rewrite Nb, Na, Ep, Eq, k_switch_normal.
    split; [apply Qc_is_canon; reflexivity|]. split; ring.
  - assert (B : altb_test (qc 8 10) (qc 9 10) = true)
      by (apply altb_below; apply Qc_ltb_iff; reflexivity).
    assert (A : agtb_test (qc 8 10) (qc 11 10) = false)
      by (apply agtb_below; apply Qc_ltb_iff; reflexivity).
    rewrite B, A in *. cbn [b2q] in *.
    rewrite Nb, Ep, Eq, k_switch_below by (apply q2b_true; reflexivity).
    split; [reflexivity|]. split; ring.
Qed.

End Switching.

(** ** The two readings of the helpers *)

Lemma Qc_leb_false (x y : Qc) : Qc_leb x y = false <-> y < x.
Proof.
  split; intro H.
  - apply Qcnot_le_lt. intro L. apply Qc_leb_iff in L. congruence.
  - destruct (Qc_leb x y) eqn:E; [|reflexivity].
    apply Qc_leb_iff in E. exfalso. exact (Qclt_not_le _ _ H E).
Qed.

Lemma Qc_ltb_false (x y : Qc) : Qc_ltb x y = false <-> y <= x.
Proof.
  split; intro H.
  - apply Qcnot_lt_le. intro L. apply Qc_ltb_iff in L. congruence.
  - destruct (Qc_ltb x y) eqn:E; [|reflexivity].
    apply Qc_ltb_iff in E. exfalso. exact (Qcle_not_lt _ _ H E).
Qed.

Lemma closed_below_lt x y : x < y -> closed_below x y = true.
Proof. intro H. apply Qc_leb_iff. now apply Qclt_le_weak. Qed.

Lemma closed_below_gt x y : y < x -> closed_below x y = false.
Proof. intro H. now apply Qc_leb_false. Qed.

Lemma closed_above_gt x y : y < x -> closed_above x y = true.
Proof. intro H. apply Qc_leb_iff. now apply Qclt_le_weak. Qed.

Lemma closed_above_lt x y : x < y -> closed_above x y = false.
Proof. intro H. now apply Qc_leb_false. Qed.

Lemma strict_below_lt x y : x < y -> strict_below x y = true.
Proof. intro H. now apply Qc_ltb_iff. Qed.

Lemma strict_below_gt x y : y < x -> strict_below x y = false.
Proof. intro H. apply Qc_ltb_false. now apply Qclt_le_weak. Qed.

Lemma strict_above_gt x y : y < x -> strict_above x y = true.
Proof. intro H. now apply Qc_ltb_iff. Qed.

Lemma strict_above_lt x y : x < y -> strict_above x y = false.
Proof. intro H. apply Qc_ltb_false. now apply Qclt_le_weak. Qed.

Lemma partition_invariant_witness :
  exists self' dae',
    gcall strict_below strict_above cfg_switch (load1 (qc 1 2) (qc 1 4)) (bus1 (qc 11 10))
      = Ok (self', dae') /\
    exactly_one (at_ (Pq.below self') 0)
                (normal_of (at_ (Pq.below self') 0) (at_ (Pq.above self') 0))
                (at_ (Pq.above self') 0).
Proof.
  destruct (proj2 (partition_invariant strict_below strict_above
                     strict_below_gt strict_above_lt)
              cfg_switch (load1 (qc 1 2) (qc 1 4)) (bus1 (qc 11 10)))
    as (self' & dae' & E & N); try reflexivity.
  exists self', dae'. split; [exact E|].
  destruct (N 0%nat) as (_ & _ & P); [simpl; lia|].
  apply P. apply Qc_ltb_iff. reflexivity.
Defined.

Lemma load_scenario_witness :
  exists self' dae',
    gcall closed_below closed_above cfg_switch (load1 (qc 1 2) (qc 1 4)) (bus1 (qc 8 10))
      = Ok (self', dae') /\
    (forall o, nth o (Dae.g dae') 0 =
               nth o [0; 0] 0 + (contrib o [0%nat] (Pq.p0 self')
                                 + contrib o [1%nat] (Pq.q0 self'))) /\
    (qc 8 10 = 1 ->
       normal_of (at_ (Pq.below self') 0) (at_ (Pq.above self') 0) = 1 /\
       at_ (Pq.p0 self') 0 = qc 1 2 /\
       at_ (Pq.q0 self') 0 = qc 1 4) /\
    (qc 8 10 = qc 8 10 ->
       at_ (Pq.below self') 0 = 1 /\
       at_ (Pq.p0 self') 0 = sq (qc 8 10 / qc 9 10) * qc 1 2 /\
       at_ (Pq.q0 self') 0 = sq (qc 8 10 / qc 9 10) * qc 1 4).
Proof.
  apply (load_scenario closed_below closed_above
           closed_below_lt closed_below_gt closed_above_lt
           cfg_switch (load1 (qc 1 2) (qc 1 4)) (bus1 (qc 8 10)) 0%nat);
    try reflexivity.
  simpl. lia.
Defined.

(** The declarative model gives the same two contributions. *)
Lemma PQNew_scenario (s : Qc) :
  Comparer.zi (Comparer.evaluate 1 (qc 9 10) (qc 11 10)) = 1 /\
  PQNew_e 1 s 1 (qc 9 10) (qc 11 10) = Ok s /\
  Comparer.zl (Comparer.evaluate (qc 8 10) (qc 9 10) (qc 11 10)) = 1 /\
  PQNew_e 1 s (qc 8 10) (qc 9 10) (qc 11 10) = Ok (sq (qc 8 10 / qc 9 10) * s).
Proof.
  split; [reflexivity|]. split; [|split; [reflexivity|]].
  - unfold PQNew_e, qdiv.
    replace (q2b (sq (qc 9 10))) with true by reflexivity.
    replace (q2b (sq (qc 11 10))) with true by reflexivity.
    cbn [bind]. f_equal.
    replace (Comparer.zi (Comparer.evaluate 1 (qc 9 10) (qc 11 10))) with 1 by reflexivity.
    replace (Comparer.zl (Comparer.evaluate 1 (qc 9 10) (qc 11 10))) with 0 by reflexivity.
    replace (Comparer.zu (Comparer.evaluate 1 (qc 9 10) (qc 11 10))) with 0 by reflexivity.
    ring.
  - unfold PQNew_e, qdiv.
    replace (q2b (sq (qc 9 10))) with true by reflexivity.
    replace (q2b (sq (qc 11 10))) with true by reflexivity.
    cbn [bind]. f_equal.
    replace (Comparer.zi (Comparer.evaluate (qc 8 10) (qc 9 10) (qc 11 10))) with 0
      by reflexivity.
    replace (Comparer.zl (Comparer.evaluate (qc 8 10) (qc 9 10) (qc 11 10))) with 1
      by reflexivity.
    replace (Comparer.zu (Comparer.evaluate (qc 8 10) (qc 9 10) (qc 11 10))) with 0
      by reflexivity.
    replace (sq (qc 8 10) / sq (qc 9 10)) with (sq (qc 8 10 / qc 9 10))
      by (apply Qc_is_canon; reflexivity).
    ring.
Qed.

(** ** The closed tie-break *)

Lemma normal_one_iff (b c : bool) :
  normal_of (b2q b) (b2q c) = 1 <-> b = false /\ c = false.
Proof.
  rewrite normal_of_b2q, b2q_one, negb_true_iff, orb_false_iff. reflexivity.
Qed.

(** C1: with the closed tests of the comparator, below is 1 exactly when
    [value <= lower], within is 1 exactly when [lower < value < upper],
    above is 1 exactly when [value >= upper]: for the comparator itself,
    and for the indicators the switching branch of [gcall] computes
    through the two helpers.  A value of exactly 1.1 against the limits
    0.9 and 1.1 gives above = 1. *)
Theorem closed_bound_indicators :
  (forall value lower upper, lower < upper ->
     let c := Comparer.evaluate value lower upper in
     (Comparer.zl c = 1 <-> value <= lower) /\
     (Comparer.zi c = 1 <-> lower < value /\ value < upper) /\
     (Comparer.zu c = 1 <-> upper <= value)) /\
  Comparer.zu (Comparer.evaluate (qc 11 10) (qc 9 10) (qc 11 10)) = 1 /\
  (forall cfg self dae,
     forcez cfg = false -> forcepq cfg = false ->
     sized self = true -> addressed self dae = true -> divides_g cfg self = true ->
     exists self' dae',
       gcall closed_below closed_above cfg self dae = Ok (self', dae') /\
       forall i, (i < Pq.n self)%nat ->
         at_ (Pq.vmin self) i < at_ (Pq.vmax self) i ->
         let value := volt self dae i in
         let lower := at_ (Pq.vmin self) i in
         let upper := at_ (Pq.vmax self) i in
         let below := at_ (Pq.below self') i in
         let above := at_ (Pq.above self') i in
         (below = 1 <-> value <= lower) /\
         (normal_of below above = 1 <-> lower < value /\ value < upper) /\
         (above = 1 <-> upper <= value)).
Proof.
  split; [|split].
  - intros value lower upper _. cbn.
    rewrite !b2q_one, andb_true_iff, !Qc_leb_iff, !Qc_ltb_iff. tauto.
  - reflexivity.
  - intros cfg self dae Fz Fpq Hs Ha Hd.
    destruct (gcall_spec closed_below closed_above cfg self dae Hs Ha Hd)
      as (bl & ab & np0 & nq0 & ng & E & _ & _ & _ & _ & _ & Sw & _).
    destruct (Sw Fz Fpq) as (_ & _ & N).
    eexists _, _. split; [exact E|].
    intros i Hi _. cbn [with_services Pq.below Pq.above].
    destruct (N i Hi) as [Nb Na]. cbv zeta. rewrite Nb, Na.
    rewrite normal_one_iff, !b2q_one.
    unfold closed_below, closed_above.
    rewrite !Qc_leb_iff, !Qc_leb_false. tauto.
Qed.

Lemma closed_bound_indicators_witness :
  exists self' dae',
    gcall closed_below closed_above cfg_switch (load1 (qc 1 2) (qc 1 4)) (bus1 (qc 11 10))
      = Ok (self', dae') /\
    forall i, (i < 1)%nat ->
      at_ [qc 9 10] i < at_ [qc 11 10] i ->
      (at_ (Pq.below self') i = 1 <-> nth (nth i [1%nat] 0%nat) [0; qc 11 10] 0 <= at_ [qc 9 10] i) /\
      (normal_of (at_ (Pq.below self') i) (at_ (Pq.above self') i) = 1 <->
         at_ [qc 9 10] i < nth (nth i [1%nat] 0%nat) [0; qc 11 10] 0 /\
         nth (nth i [1%nat] 0%nat) [0; qc 11 10] 0 < at_ [qc 11 10] i) /\
      (at_ (Pq.above self') i = 1 <-> at_ [qc 11 10] i <= nth (nth i [1%nat] 0%nat) [0; qc 11 10] 0).
Proof.
  apply (proj2 (proj2 closed_bound_indicators)
           cfg_switch (load1 (qc 1 2) (qc 1 4)) (bus1 (qc 11 10))); reflexivity.
Defined.

(** With the strict reading of the helpers' names the same tie falls in
    the normal band: the tie-break is a property of the helpers, not of
    the pass that calls them. *)
Lemma strict_reading_at_tie :
  exists self' dae',
    gcall strict_below strict_above cfg_switch (load1 (qc 1 2) (qc 1 4)) (bus1 (qc 11 10))
      = Ok (self', dae') /\
    at_ (Pq.above self') 0 = 0 /\
    normal_of (at_ (Pq.below self') 0) (at_ (Pq.above self') 0) = 1.
Proof.
  destruct (gcall_spec strict_below strict_above cfg_switch
              (load1 (qc 1 2) (qc 1 4)) (bus1 (qc 11 10)))
    as (bl & ab & np0 & nq0 & ng & E & _ & _ & _ & _ & _ & Sw & _); try reflexivity.
  destruct Sw as (_ & _ & N); try reflexivity.
  destruct (N 0%nat) as [Nb Na]; [simpl; lia|].
  eexists _, _. split; [exact E|].
  cbn [with_services Pq.below Pq.above]. rewrite Nb, Na.
  split; apply Qc_is_canon; reflexivity.
Qed.

(** ** The Jacobian pass *)

Lemma gycall_k_spec cfg self dae :
  sized self = true -> addressed self dae = true -> divides_gy cfg self = true ->
  exists k,
    gycall_k cfg self dae = Ok k /\ length k = Pq.n self /\
    forall i, (i < Pq.n self)%nat -> at_ k i = dk_inst cfg self dae i.
Proof.
  intros Hs Ha Hd.
  destruct (sized_elim self Hs) as (Lu & Lp & Lq & Lmin & Lmax & La & Lv).
  destruct (addressed_elim self dae Ha) as (Lg & Ry & Ra & Rv).
  unfold divides_gy in Hd. unfold gycall_k, dk_inst.
  destruct (forcez cfg) eqn:Fz.
  - destruct (truthy (Pq.v0 self)) eqn:T.
    + apply andb_true_iff in Hd. destruct Hd as [L0 N0]. apply Nat.eqb_eq in L0.
      rewrite (gather_ok _ _ Ry). cbn [bind].
      rewrite div_ok by (try apply vsq_nonzero; try assumption; len).
      eexists. split; [reflexivity|]. split; [len|].
      intros i Hi. unfold at_.
      rewrite (map2_nth _ _ _ _ 0 0 0) by len.
      unfold vsq, vdouble. rewrite !(map_nth_in _ _ _ 0 0) by len.
      rewrite gather_volt by lia. reflexivity.
    + exists (zeros (Pq.n self)). split; [reflexivity|]. split; [len|].
      intros i Hi. unfold at_, zeros. now apply repeat_nth.
  - repeat (apply andb_true_iff in Hd; destruct Hd as [Hd ?]).
    repeat match goal with E : Nat.eqb _ _ = true |- _ => apply Nat.eqb_eq in E end.
    rewrite (gather_ok _ _ Ry). cbn [bind].
    set (yv := map (fun i => nth i (Dae.y dae) 0) (Pq.v self)).
    assert (Lyv : length yv = Pq.n self) by (unfold yv; rewrite length_map; exact Lv).
    unfold mul, vadd.
    rewrite div_ok by (try apply vsq_nonzero; try assumption; len). cbn [bind].
    rewrite ew_ok by len. cbn [bind].
    rewrite ew_ok by len. cbn [bind].
    rewrite div_ok by (try apply vsq_nonzero; try assumption; len). cbn [bind].
    rewrite ew_ok by len. cbn [bind].
    rewrite ew_ok by len.
    eexists. split; [reflexivity|]. split; [len|].
    intros i Hi. unfold at_, dk_switch.
    repeat (rewrite (map2_nth _ _ _ _ 0 0 0) by len).
    unfold zeros, vsq, vdouble. rewrite repeat_nth by lia.
    rewrite !(map_nth_in _ _ _ 0 0) by len.
    unfold yv. rewrite gather_volt by lia. reflexivity.
Qed.

(** The pass returns and appends its stamps, one pair per instance. *)
Lemma gycall_spec cfg self dae :
  forcepq cfg = false ->
  sized self = true -> addressed self dae = true -> divides_gy cfg self = true ->
  exists pv qv,
    gycall cfg self dae
      = Ok (Dae.mk (Dae.y dae) (Dae.g dae) (Dae.m dae) (Dae.Gy dae ++ stamps self pv qv)) /\
    length pv = Pq.n self /\ length qv = Pq.n self /\
    forall i, (i < Pq.n self)%nat ->
      at_ pv i = at_ (Pq.p self) i * (at_ (Pq.u self) i * dk_inst cfg self dae i) /\
      at_ qv i = at_ (Pq.q self) i * (at_ (Pq.u self) i * dk_inst cfg self dae i).
Proof.
  intros Fpq Hs Ha Hd.
  destruct (gycall_k_spec cfg self dae Hs Ha Hd) as (k & E & Lk & Nk).
  destruct (sized_elim self Hs) as (Lu & Lp & Lq & Lmin & Lmax & La & Lv).
  unfold gycall. rewrite Fpq, E. cbn [bind].
  unfold mul. rewrite ew_ok by len. cbn [bind].
  rewrite ew_ok by len. cbn [bind].
  set (pv := map2 Qcmult (Pq.p self) (map2 Qcmult (Pq.u self) k)).
  assert (Lpv : length pv = Pq.n self) by (unfold pv; len).
  unfold add_jac at 1.
  replace (Nat.eqb (length pv) (length (Pq.a self))) with true
    by (symmetry; apply Nat.eqb_eq; lia).
  replace (Nat.eqb (length (Pq.a self)) (length (Pq.v self))) with true
    by (symmetry; apply Nat.eqb_eq; lia).
  cbn [andb bind].
  rewrite ew_ok by len. cbn [bind].
  set (qv := map2 Qcmult (Pq.q self) (map2 Qcmult (Pq.u self) k)).
  assert (Lqv : length qv = Pq.n self) by (unfold qv; len).
  unfold add_jac.
  replace (Nat.eqb (length qv) (length (Pq.v self))) with true
    by (symmetry; apply Nat.eqb_eq; lia).
  rewrite Nat.eqb_refl. cbn [andb bind].
  exists pv, qv. split.
  { unfold stamps. now rewrite <- app_assoc. }
  split; [exact Lpv|]. split; [exact Lqv|].
  intros i Hi. unfold at_, pv, qv.
  repeat (rewrite (map2_nth _ _ _ _ 0 0 0) by len).
  rewrite <- (Nk i Hi). unfold at_. split; reflexivity.
Qed.

(** ** Derivatives of the branch residuals *)

Lemma qc_two : qc 2 1 = 1 + 1.
Proof. apply Qc_is_canon. reflexivity. Qed.

Lemma two_nonzero : (1 + 1 : Qc) <> 0.
Proof. intro H. apply (f_equal this) in H. discriminate H. Qed.

(** The definition pins the derivative down. *)
Lemma derivative_unique f x J J' :
  derivative_at f x J -> derivative_at f x J' -> J = J'.
Proof.
  intros [c Hc] [c' Hc'].
  pose proof (Hc 1) as A1. rewrite (Hc' 1) in A1.
  pose proof (Hc (1 + 1)) as A2. rewrite (Hc' (1 + 1)) in A2.
  assert (D : (1 + 1) * (J - J') = 0).
  { transitivity ((J' * (1 + 1) + c' * (1 + 1) * (1 + 1)
                   - (J * (1 + 1) + c * (1 + 1) * (1 + 1)))
                  - (1 + 1) * (1 + 1) * (J' * 1 + c' * 1 * 1 - (J * 1 + c * 1 * 1))).
    - ring.
    - rewrite A1, A2. ring. }
  apply Qcmult_integral in D. destruct D as [D|D].
  - exfalso. exact (two_nonzero D).
  - transitivity (J' + (J - J')); [ring | rewrite D; ring].
Qed.

Lemma derivative_switch u s bl ab lo hi x :
  lo <> 0 -> hi <> 0 ->
  derivative_at (residual_switch u s bl ab lo hi) x (s * (u * dk_switch bl ab x lo hi)).
Proof.
  intros Hlo Hhi.
  exists (u * s * (bl / sq lo + ab / sq hi)). intro h.
  unfold residual_switch, k_switch, dk_switch, sq. rewrite qc_two.
  field. split; assumption.
Qed.

Lemma derivative_forcez u s ref x :
  ref <> 0 ->
  derivative_at (residual_forcez u s ref) x (s * (u * (qc 2 1 * x / sq ref))).
Proof.
  intro Href.
  exists (u * s / sq ref). intro h.
  unfold residual_forcez, sq. rewrite qc_two.
  field. assumption.
Qed.

Lemma derivative_constant (c x : Qc) : derivative_at (fun _ => c) x 0.
Proof. exists 0. intro h. ring. Qed.

Lemma nonzero_at l i : nonzero l = true -> (i < length l)%nat -> at_ l i <> 0.
Proof.
  intros H Hi. apply q2b_true. unfold at_. now apply forallb_nth.
Qed.

Lemma stamps_nth self pv qv i :
  length (Pq.a self) = Pq.n self -> length (Pq.v self) = Pq.n self ->
  length pv = Pq.n self -> length qv = Pq.n self -> (i < Pq.n self)%nat ->
  nth i (stamps self pv qv) (0%nat, 0%nat, 0)
    = (nth i (Pq.a self) 0%nat, nth i (Pq.v self) 0%nat, at_ pv i) /\
  nth (Pq.n self + i) (stamps self pv qv) (0%nat, 0%nat, 0)
    = (nth i (Pq.v self) 0%nat, nth i (Pq.v self) 0%nat, at_ qv i).
Proof.
  intros La Lv Lp Lq Hi. unfold stamps, at_.
  assert (L1 : length (combine (combine (Pq.a self) (Pq.v self)) pv) = Pq.n self).
  { rewrite !length_combine. lia. }
  split.
  - rewrite app_nth1 by lia.
    rewrite combine_nth by (rewrite length_combine; lia).
    rewrite combine_nth by lia. reflexivity.
  - rewrite app_nth2 by lia. rewrite L1.
    replace (Pq.n self + i - Pq.n self)%nat with i by lia.
    rewrite combine_nth by (rewrite length_combine; lia).
    rewrite combine_nth by lia. reflexivity.
Qed.

(** C6: whenever [gycall] stamps, the value it puts at (angle offset,
    voltage offset) and at (voltage offset, voltage offset) of an
    instance is the derivative, in the voltage, of that instance's
    residual contribution with the indicators held at their stored
    values.  In the switching branch the two values are
    [u*p*(below*2v/vmin^2 + above*2v/vmax^2)] and the same with [q], and
    they vanish in the normal band. *)
Theorem jacobian_stamp_is_branch_derivative cfg self dae :
  forcepq cfg = false ->
  sized self = true -> addressed self dae = true -> divides_gy cfg self = true ->
  exists pv qv,
    gycall cfg self dae
      = Ok (Dae.mk (Dae.y dae) (Dae.g dae) (Dae.m dae) (Dae.Gy dae ++ stamps self pv qv)) /\
    forall i, (i < Pq.n self)%nat ->
      let x := volt self dae i in
      let u := at_ (Pq.u self) i in
      let p := at_ (Pq.p self) i in
      let q := at_ (Pq.q self) i in
      let lo := at_ (Pq.vmin self) i in
      let hi := at_ (Pq.vmax self) i in
      let bl := at_ (Pq.below self) i in
      let ab := at_ (Pq.above self) i in
      nth i (stamps self pv qv) (0%nat, 0%nat, 0)
        = (nth i (Pq.a self) 0%nat, nth i (Pq.v self) 0%nat, at_ pv i) /\
      nth (Pq.n self + i) (stamps self pv qv) (0%nat, 0%nat, 0)
        = (nth i (Pq.v self) 0%nat, nth i (Pq.v self) 0%nat, at_ qv i) /\
      (forcez cfg = false ->
         at_ pv i = u * p * (bl * (qc 2 1 * x / sq lo) + ab * (qc 2 1 * x / sq hi)) /\
         at_ qv i = u * q * (bl * (qc 2 1 * x / sq lo) + ab * (qc 2 1 * x / sq hi)) /\
         derivative_at (residual_switch u p bl ab lo hi) x (at_ pv i) /\
         derivative_at (residual_switch u q bl ab lo hi) x (at_ qv i) /\
         (bl = 0 -> ab = 0 -> at_ pv i = 0 /\ at_ qv i = 0)) /\
      (forcez cfg = true -> truthy (Pq.v0 self) = true ->
         derivative_at (residual_forcez u p (at_ (Pq.v0 self) i)) x (at_ pv i) /\
         derivative_at (residual_forcez u q (at_ (Pq.v0 self) i)) x (at_ qv i)) /\
      (forcez cfg = true -> truthy (Pq.v0 self) = false ->
         at_ pv i = 0 /\ at_ qv i = 0).
Proof.
  intros Fpq Hs Ha Hd.
  destruct (gycall_spec cfg self dae Fpq Hs Ha Hd) as (pv & qv & E & Lpv & Lqv & N).
  destruct (sized_elim self Hs) as (Lu & Lp & Lq & Lmin & Lmax & La & Lv).
  exists pv, qv. split; [exact E|].
  intros i Hi. cbv zeta.
  destruct (stamps_nth self pv qv i La Lv Lpv Lqv Hi) as [S1 S2].
  destruct (N i Hi) as [Ep Eq].
  split; [exact S1|]. split; [exact S2|].
  unfold divides_gy in Hd. unfold dk_inst in Ep, Eq.
  destruct (forcez cfg) eqn:Fz.
  - split; [discriminate|].
    destruct (truthy (Pq.v0 self)) eqn:T.
    + apply andb_true_iff in Hd. destruct Hd as [L0 N0]. apply Nat.eqb_eq in L0.
      split; [|discriminate]. intros _ _.
      assert (R : at_ (Pq.v0 self) i <> 0) by (apply nonzero_at; [assumption|lia]).
      rewrite Ep, Eq. split; now apply derivative_forcez.
    + split; [discriminate|]. intros _ _. rewrite Ep, Eq. split; ring.
  - split; [|split; discriminate]. intros _.
    repeat (apply andb_true_iff in Hd; destruct Hd as [Hd ?]).
    assert (Rlo : at_ (Pq.vmin self) i <> 0) by (apply nonzero_at; [assumption|lia]).
    assert (Rhi : at_ (Pq.vmax self) i <> 0) by (apply nonzero_at; [assumption|lia]).
    rewrite Ep, Eq.
    split; [unfold dk_switch; ring|]. split; [unfold dk_switch; ring|].
    split; [now apply derivative_switch|]. split; [now apply derivative_switch|].
    intros B A. rewrite B, A. unfold dk_switch. split; ring.
Qed.

(** The residual functions the Jacobian statement differentiates are
    what [gcall] contributes: in the switching branch with the
    indicators the pass has just stored, under forced impedance with the
    stored reference voltage. *)
Lemma gcall_contribution_is_branch_residual
    (altb_test agtb_test : Qc -> Qc -> bool) cfg self dae :
  forcepq cfg = false ->
  sized self = true -> addressed self dae = true -> divides_g cfg self = true ->
  exists self' dae',
    gcall altb_test agtb_test cfg self dae = Ok (self', dae') /\
    forall i, (i < Pq.n self)%nat ->
      (forcez cfg = false ->
         at_ (Pq.p0 self') i
           = residual_switch (at_ (Pq.u self) i) (at_ (Pq.p self) i)
               (at_ (Pq.below self') i) (at_ (Pq.above self') i)
               (at_ (Pq.vmin self) i) (at_ (Pq.vmax self) i) (volt self dae i) /\
         at_ (Pq.q0 self') i
           = residual_switch (at_ (Pq.u self) i) (at_ (Pq.q self) i)
               (at_ (Pq.below self') i) (at_ (Pq.above self') i)
               (at_ (Pq.vmin self) i) (at_ (Pq.vmax self) i) (volt self dae i)) /\
      (forcez cfg = true -> truthy (Pq.v0 self) = true ->
         at_ (Pq.p0 self') i
           = residual_forcez (at_ (Pq.u self) i) (at_ (Pq.p self) i)
               (at_ (Pq.v0 self) i) (volt self dae i) /\
         at_ (Pq.q0 self') i
           = residual_forcez (at_ (Pq.u self) i) (at_ (Pq.q self) i)
               (at_ (Pq.v0 self) i) (volt self dae i)).
Proof.
  intros Fpq Hs Ha Hd.
  destruct (gcall_spec altb_test agtb_test cfg self dae Hs Ha Hd)
    as (bl & ab & np0 & nq0 & ng & E & _ & _ & _ & Np & _ & Sw & _).
  eexists _, _. split; [exact E|].
  intros i Hi. cbn [with_services Pq.p0 Pq.q0 Pq.below Pq.above].
  destruct (Np i Hi) as [Ep Eq]. unfold k_inst in Ep, Eq.
  split.
  - intro Fz. rewrite Fz, Fpq in Ep, Eq.
    destruct (Sw Fz Fpq) as (_ & _ & N). destruct (N i Hi) as [Nb Na].
    unfold residual_switch. rewrite Nb, Na. split; assumption.
  - intros Fz T. rewrite Fz, T in Ep, Eq.
    unfold residual_forcez. split; assumption.
Qed.

Lemma jacobian_stamp_is_branch_derivative_witness :
  exists pv qv,
    gycall cfg_switch (load1_ind (qc 1 2) (qc 1 4) 1 0) (bus1 (qc 8 10))
      = Ok (Dae.mk [0; qc 8 10] [0; 0] 2
              ([] ++ stamps (load1_ind (qc 1 2) (qc 1 4) 1 0) pv qv)) /\
    at_ pv 0 = qc 80 81 /\ at_ qv 0 = qc 40 81.
Proof.
  destruct (jacobian_stamp_is_branch_derivative cfg_switch
              (load1_ind (qc 1 2) (qc 1 4) 1 0) (bus1 (qc 8 10)))
    as (pv & qv & E & N); try reflexivity.
  exists pv, qv. split; [exact E|].
  destruct (N 0%nat) as (_ & _ & Sw & _); [simpl; lia|].
  destruct (Sw eq_refl) as (Ep & Eq & _).
  rewrite Ep, Eq. split; apply Qc_is_canon; reflexivity.
Defined.

(** ** Disabled instances *)

Lemma contrib_zero o row vals :
  (forall i, (i < length row)%nat -> nth i row 0%nat = o -> nth i vals 0 = 0) ->
  contrib o row vals = 0.
Proof.
  revert vals. induction row as [|r row IH]; intros [|x vals] H; simpl; auto.
  rewrite IH.
  - destruct (Nat.eqb r o) eqn:E; [|ring].
    apply Nat.eqb_eq in E.
    rewrite (H 0%nat (Nat.lt_0_succ _) E : x = 0). ring.
  - intros i Hi Ho. apply (H (S i)); simpl; [lia | exact Ho].
Qed.

Lemma cell_app J K r c : cell (J ++ K) r c = cell J r c + cell K r c.
Proof.
  induction J as [|[[r' c'] x] J IH]; simpl.
  - ring.
  - rewrite IH. ring.
Qed.

Lemma cell_combine_zero row col vals r c :
  (forall i, (i < length row)%nat ->
     nth i row 0%nat = r -> nth i col 0%nat = c -> nth i vals 0 = 0) ->
  cell (combine (combine row col) vals) r c = 0.
Proof.
  revert col vals.
  induction row as [|r' row IH]; intros [|c' col] [|x vals] H; simpl; auto.
  rewrite IH.
  - destruct (Nat.eqb r' r) eqn:Er; destruct (Nat.eqb c' c) eqn:Ec; simpl; try ring.
    apply Nat.eqb_eq in Er, Ec.
    rewrite (H 0%nat (Nat.lt_0_succ _) Er Ec : x = 0). ring.
  - intros i Hi Hr Hc. apply (H (S i)); simpl; [lia | exact Hr | exact Hc].
Qed.

Section Passes.

Variable altb_test : Qc -> Qc -> bool.
Variable agtb_test : Qc -> Qc -> bool.

(** One iteration: the residual pass, then the Jacobian pass on what the
    residual pass left.  Both return; the second stamps nothing under
    forced constant power and one pair of values per instance
    otherwise. *)
Lemma iteration_spec cfg self dae :
  sized self = true -> addressed self dae = true -> divides_g cfg self = true ->
  exists self' dae' dae'' pv qv,
    gcall altb_test agtb_test cfg self dae = Ok (self', dae') /\
    gycall cfg self' dae' = Ok dae'' /\
    Dae.g dae'' = Dae.g dae' /\
    length (Pq.p0 self') = Pq.n self /\ length (Pq.q0 self') = Pq.n self /\
    (forall i, (i < Pq.n self)%nat ->
       at_ (Pq.p0 self') i
         = (at_ (Pq.u self) i * k_inst altb_test agtb_test cfg self dae i)
           * at_ (Pq.p self) i /\
       at_ (Pq.q0 self') i
         = (at_ (Pq.u self) i * k_inst altb_test agtb_test cfg self dae i)
           * at_ (Pq.q self) i) /\
    (forall o, nth o (Dae.g dae') 0
               = nth o (Dae.g dae) 0 + (contrib o (Pq.a self) (Pq.p0 self')
                                        + contrib o (Pq.v self) (Pq.q0 self'))) /\
    (forcepq cfg = true -> Dae.Gy dae'' = Dae.Gy dae) /\
    (forcepq cfg = false ->
       Dae.Gy dae'' = Dae.Gy dae ++ stamps self pv qv /\
       length pv = Pq.n self /\ length qv = Pq.n self /\
       forall i, (i < Pq.n self)%nat ->
         at_ pv i = at_ (Pq.p self) i * (at_ (Pq.u self) i * dk_inst cfg self' dae' i) /\
         at_ qv i = at_ (Pq.q self) i * (at_ (Pq.u self) i * dk_inst cfg self' dae' i)).
Proof.
  intros Hs Ha Hd.
  destruct (gcall_spec altb_test agtb_test cfg self dae Hs Ha Hd)
    as (bl & ab & np0 & nq0 & ng & E & Lnp & Lnq & Lng & Np & Ng & Sw & Fr).
  destruct (addressed_elim self dae Ha) as (Lg & Ry & Ra & Rv).
  set (self' := with_services self np0 nq0 bl ab) in *.
  set (dae' := Dae.mk (Dae.y dae) ng (Dae.m dae) (Dae.Gy dae)) in *.
  assert (Hs' : sized self' = true) by exact Hs.
  assert (Ha' : addressed self' dae' = true).
  { unfold addressed in *. cbn [self' dae' with_services Dae.g Dae.m Dae.y Pq.a Pq.v].
    rewrite Lng. exact Ha. }
  destruct (forcepq cfg) eqn:Fpq.
  - exists self', dae', dae', [], []. split; [exact E|].
    split; [unfold gycall; now rewrite Fpq|].
    split; [reflexivity|]. split; [exact Lnp|]. split; [exact Lnq|].
    split; [exact Np|]. split; [exact Ng|]. split; [reflexivity | discriminate].
  - assert (Hd' : divides_gy cfg self' = true).
    { unfold divides_g in Hd. unfold divides_gy.
      cbn [self' with_services Pq.v0 Pq.n Pq.vmin Pq.vmax Pq.below Pq.above].
      destruct (forcez cfg) eqn:Fz; [exact Hd|].
      rewrite Fpq in Hd.
      destruct (Sw eq_refl eq_refl) as (Lbl & Lab & _).
      rewrite Hd, Lbl, Lab, Nat.eqb_refl. reflexivity. }
    destruct (gycall_spec cfg self' dae' Fpq Hs' Ha' Hd') as (pv & qv & Ey & Lpv & Lqv & Ny).
    eexists self', dae', _, pv, qv. split; [exact E|]. split; [exact Ey|].
    cbn [Dae.g Dae.Gy dae'].
    split; [reflexivity|]. split; [exact Lnp|]. split; [exact Lnq|].
    split; [exact Np|]. split; [exact Ng|]. split; [discriminate|].
    intros _. split; [reflexivity|]. split; [exact Lpv|]. split; [exact Lqv|]. exact Ny.
Qed.

End Passes.

Section Disabled.

Variable altb_test : Qc -> Qc -> bool.
Variable agtb_test : Qc -> Qc -> bool.

(** C9, as the code has it: in every branch, as long as every divisor
    the branch reads is nonzero ([divides_g]: the reference voltages
    once forced impedance scales, both voltage limits of every instance
    in the switching branch), an instance with [u = 0] contributes zero
    to the residual and gets zero Jacobian stamps; a residual entry or a
    Jacobian cell that only disabled instances aim at is the same after
    the two passes as before. *)
Theorem disabled_instance_is_inert cfg self dae :
  sized self = true -> addressed self dae = true -> divides_g cfg self = true ->
  exists self' dae' dae'',
    gcall altb_test agtb_test cfg self dae = Ok (self', dae') /\
    gycall cfg self' dae' = Ok dae'' /\
    (forall i, (i < Pq.n self)%nat -> at_ (Pq.u self) i = 0 ->
       at_ (Pq.p0 self') i = 0 /\ at_ (Pq.q0 self') i = 0) /\
    (forall o,
       (forall i, (i < Pq.n self)%nat ->
          nth i (Pq.a self) 0%nat = o \/ nth i (Pq.v self) 0%nat = o ->
          at_ (Pq.u self) i = 0) ->
       nth o (Dae.g dae'') 0 = nth o (Dae.g dae) 0) /\
    (forcepq cfg = true -> Dae.Gy dae'' = Dae.Gy dae) /\
    (forcepq cfg = false ->
       exists pv qv,
         Dae.Gy dae'' = Dae.Gy dae ++ stamps self pv qv /\
         forall i, (i < Pq.n self)%nat -> at_ (Pq.u self) i = 0 ->
           at_ pv i = 0 /\ at_ qv i = 0) /\
    (forall r c,
       (forall i, (i < Pq.n self)%nat ->
          nth i (Pq.a self) 0%nat = r \/ nth i (Pq.v self) 0%nat = r ->
          nth i (Pq.v self) 0%nat = c ->
          at_ (Pq.u self) i = 0) ->
       cell (Dae.Gy dae'') r c = cell (Dae.Gy dae) r c).
Proof.
  intros Hs Ha Hd.
  destruct (iteration_spec altb_test agtb_test cfg self dae Hs Ha Hd)
    as (self' & dae' & dae'' & pv & qv & Eg & Ey & Gsame & Lnp & Lnq & Np & Ng & Jpq & Jst).
  destruct (sized_elim self Hs) as (Lu & Lp & Lq & Lmin & Lmax & La & Lv).
  exists self', dae', dae''. split; [exact Eg|]. split; [exact Ey|].
  assert (Zero : forall i, (i < Pq.n self)%nat -> at_ (Pq.u self) i = 0 ->
                   at_ (Pq.p0 self') i = 0 /\ at_ (Pq.q0 self') i = 0).
  { intros i Hi Hu. destruct (Np i Hi) as [Ep Eq]. rewrite Ep, Eq, Hu. split; ring. }
  split; [exact Zero|]. split; [|split; [exact Jpq|]].
  { intros o Ho. rewrite Gsame, Ng.
    rewrite !contrib_zero; [ring | |].
    - intros i Hi Hv. apply (Zero i); [lia|]. apply Ho; [lia | now right].
    - intros i Hi Hv. apply (Zero i); [lia|]. apply Ho; [lia | now left]. }
  destruct (forcepq cfg) eqn:Fpq.
  - split; [discriminate|]. intros r c _. now rewrite (Jpq eq_refl).
  - destruct (Jst eq_refl) as (EJ & Lpv & Lqv & Nst).
    assert (ZeroJ : forall i, (i < Pq.n self)%nat -> at_ (Pq.u self) i = 0 ->
                      at_ pv i = 0 /\ at_ qv i = 0).
    { intros i Hi Hu. destruct (Nst i Hi) as [Ep Eq]. rewrite Ep, Eq, Hu. split; ring. }
    split.
    + intros _. exists pv, qv. split; [exact EJ | exact ZeroJ].
    + intros r c Hrc. rewrite EJ, cell_app. unfold stamps. rewrite cell_app.
      rewrite !cell_combine_zero; [ring | |].
      * intros i Hi Hr Hc. apply (ZeroJ i); [lia|]. apply Hrc; [lia | now right | exact Hc].
      * intros i Hi Hr Hc. apply (ZeroJ i); [lia|]. apply Hrc; [lia | now left | exact Hc].
Qed.

End Disabled.

Lemma disabled_instance_is_inert_witness :
  exists self' dae' dae'',
    gcall closed_below closed_above cfg_forcez (load2_off (qc 1 2) (qc 1 4)) (bus1 (qc 8 10))
      = Ok (self', dae') /\
    gycall cfg_forcez self' dae' = Ok dae'' /\
    at_ (Pq.p0 self') 1 = 0 /\ at_ (Pq.q0 self') 1 = 0.
Proof.
  destruct (disabled_instance_is_inert closed_below closed_above cfg_forcez
              (load2_off (qc 1 2) (qc 1 4)) (bus1 (qc 8 10)))
    as (self' & dae' & dae'' & Eg & Ey & Zero & _); try reflexivity.
  exists self', dae', dae''. split; [exact Eg|]. split; [exact Ey|].
  apply (Zero 1%nat); [simpl; lia | reflexivity].
Defined.

(** ** Forced constant power *)

Section ForcedPQ.

Variable altb_test : Qc -> Qc -> bool.
Variable agtb_test : Qc -> Qc -> bool.

(** With [forcepq] set and [forcez] clear, the contributions are [u*p]
    and [u*q] whatever the voltage is, and the Jacobian pass leaves
    [dae] as it found it. *)
Lemma forcepq_alone_constant_power cfg self dae :
  forcez cfg = false -> forcepq cfg = true ->
  sized self = true -> addressed self dae = true ->
  exists self' dae',
    gcall altb_test agtb_test cfg self dae = Ok (self', dae') /\
    gycall cfg self' dae' = Ok dae' /\
    forall i, (i < Pq.n self)%nat ->
      at_ (Pq.p0 self') i = at_ (Pq.u self) i * at_ (Pq.p self) i /\
      at_ (Pq.q0 self') i = at_ (Pq.u self) i * at_ (Pq.q self) i.
Proof.
  intros Fz Fpq Hs Ha.
  assert (Hd : divides_g cfg self = true) by (unfold divides_g; now rewrite Fz, Fpq).
  destruct (gcall_spec altb_test agtb_test cfg self dae Hs Ha Hd)
    as (bl & ab & np0 & nq0 & ng & E & _ & _ & _ & Np & _).
  eexists _, _. split; [exact E|].
  split; [unfold gycall; now rewrite Fpq|].
  intros i Hi. cbn [with_services Pq.p0 Pq.q0].
  destruct (Np i Hi) as [Ep Eq]. rewrite Ep, Eq.
  unfold k_inst. rewrite Fz, Fpq. split; ring.
Qed.

(** With both flags set [gcall] takes the impedance branch, which it
    tests first, while [gycall] tests [forcepq] first and returns. *)
Lemma both_flags_scale_by_voltage cfg self dae :
  forcez cfg = true -> forcepq cfg = true -> truthy (Pq.v0 self) = true ->
  sized self = true -> addressed self dae = true -> divides_g cfg self = true ->
  exists self' dae',
    gcall altb_test agtb_test cfg self dae = Ok (self', dae') /\
    gycall cfg self' dae' = Ok dae' /\
    forall i, (i < Pq.n self)%nat ->
      at_ (Pq.p0 self') i
        = at_ (Pq.u self) i * (sq (volt self dae i) / sq (at_ (Pq.v0 self) i))
          * at_ (Pq.p self) i /\
      at_ (Pq.q0 self') i
        = at_ (Pq.u self) i * (sq (volt self dae i) / sq (at_ (Pq.v0 self) i))
          * at_ (Pq.q self) i.
Proof.
  intros Fz Fpq T Hs Ha Hd.
  destruct (gcall_spec altb_test agtb_test cfg self dae Hs Ha Hd)
    as (bl & ab & np0 & nq0 & ng & E & _ & _ & _ & Np & _).
  eexists _, _. split; [exact E|].
  split; [unfold gycall; now rewrite Fpq|].
  intros i Hi. cbn [with_services Pq.p0 Pq.q0].
  destruct (Np i Hi) as [Ep Eq]. rewrite Ep, Eq.
  unfold k_inst. rewrite Fz, T. split; reflexivity.
Qed.

End ForcedPQ.

(** C10, at the input where it fails: both flags set, one enabled load
    with [p = q = 1] and reference voltage 1, voltage iterate 0.8.  The
    residual receives 16/25 at both offsets, not the constant power 1;
    the Jacobian pass stamps nothing. *)
Theorem forcepq_overridden_by_forcez :
  exists self' dae',
    gcall closed_below closed_above cfg_both (load1_ref 1 1 1) (bus1 (qc 8 10))
      = Ok (self', dae') /\
    at_ (Pq.u (load1_ref 1 1 1)) 0 * at_ (Pq.p (load1_ref 1 1 1)) 0 = 1 /\
    at_ (Pq.p0 self') 0 = qc 16 25 /\
    at_ (Pq.q0 self') 0 = qc 16 25 /\
    qc 16 25 <> 1 /\
    nth 0 (Dae.g dae') 0 = qc 16 25 /\
    nth 1 (Dae.g dae') 0 = qc 16 25 /\
    gycall cfg_both self' dae' = Ok dae' /\
    Dae.Gy dae' = [].
Proof.
  destruct (gcall_spec closed_below closed_above cfg_both (load1_ref 1 1 1) (bus1 (qc 8 10)))
    as (bl & ab & np0 & nq0 & ng & E & Lnp & Lnq & _ & Np & Ng & _); try reflexivity.
  eexists _, _. split; [exact E|].
  cbn [with_services Pq.p0 Pq.q0 Dae.g Dae.Gy].
  destruct (Np 0%nat) as [Ep Eq]; [simpl; lia|].
  assert (P0 : at_ np0 0 = qc 16 25) by (rewrite Ep; apply Qc_is_canon; reflexivity).
  assert (Q0 : at_ nq0 0 = qc 16 25) by (rewrite Eq; apply Qc_is_canon; reflexivity).
  destruct np0 as [|xp [|? ?]]; try discriminate Lnp.
  destruct nq0 as [|xq [|? ?]]; try discriminate Lnq.
  unfold at_ in P0, Q0. simpl in P0, Q0. subst xp xq.
  split; [apply Qc_is_canon; reflexivity|].
  split; [reflexivity|]. split; [reflexivity|].
  split; [intro H; apply (f_equal this) in H; discriminate H|].
  split; [|split].
  - rewrite Ng. simpl. ring.
  - rewrite Ng. simpl. ring.
  - split; reflexivity.
Qed.

(** ** Failures of a pass *)

Lemma lib_ok {A} (x : A) : ~ raises_numeric_failure (Ok x).
Proof. intros (i & w & H). discriminate H. Qed.

Lemma lib_err {A} (e : exn) :
  (forall i w, e <> NumericFailure i w) -> ~ raises_numeric_failure (@Err A e).
Proof. intros H (i & w & E). injection E as E. exact (H i w E). Qed.

Lemma lib_bind {A B} (r : result A) (f : A -> result B) :
  ~ raises_numeric_failure r -> (forall x, ~ raises_numeric_failure (f x)) ->
  ~ raises_numeric_failure (bind r f).
Proof.
  intros Hr Hf. destruct r as [x|e]; simpl.
  - apply Hf.
  - intros (i & w & E). apply Hr. exists i, w. congruence.
Qed.

Lemma lib_ew f x y : ~ raises_numeric_failure (ew f x y).
Proof.
  unfold ew. destruct (Nat.eqb _ _); [apply lib_ok | apply lib_err; discriminate].
Qed.

Lemma lib_div x y : ~ raises_numeric_failure (div x y).
Proof.
  unfold div. destruct (Nat.eqb _ _); [destruct (forallb _ _)|];
    try apply lib_ok; apply lib_err; discriminate.
Qed.

Lemma lib_gather yv idx : ~ raises_numeric_failure (gather yv idx).
Proof.
  induction idx as [|i idx IH]; simpl; [apply lib_ok|].
  destruct (nth_error yv i); [|apply lib_err; discriminate].
  apply lib_bind; [exact IH | intro; apply lib_ok].
Qed.

Lemma lib_add_at gv i x : ~ raises_numeric_failure (add_at gv i x).
Proof.
  unfold add_at. destruct (nth_error gv i); [apply lib_ok | apply lib_err; discriminate].
Qed.

Lemma lib_dense_loop rows : forall gv, ~ raises_numeric_failure (dense_loop gv rows).
Proof.
  induction rows as [|[[[ia iv] xp] xq] rest IH]; intro gv; simpl; [apply lib_ok|].
  apply lib_bind; [apply lib_add_at | intro g1].
  apply lib_bind; [apply lib_add_at | intro g2]. apply IH.
Qed.

Lemma lib_coo k data row cnt : ~ raises_numeric_failure (coo_toarray k data row cnt).
Proof.
  unfold coo_toarray. destruct (_ && _); [destruct (forallb _ _)|];
    try apply lib_ok; apply lib_err; discriminate.
Qed.

Lemma lib_accumulate cnt k gv la lv lp lq :
  ~ raises_numeric_failure (accumulate cnt k gv la lv lp lq).
Proof.
  unfold accumulate. destruct (Nat.leb cnt 400); [apply lib_dense_loop|].
  unfold sparse_accumulate, vadd.
  repeat (apply lib_bind; [first [apply lib_coo | apply lib_ew] | intro]).
  apply lib_ew.
Qed.

Lemma lib_add_jac J val row col : ~ raises_numeric_failure (add_jac J val row col).
Proof.
  unfold add_jac. destruct (_ && _); [apply lib_ok | apply lib_err; discriminate].
Qed.

Ltac lib_step :=
  first [ apply lib_ok | apply lib_ew | apply lib_div | apply lib_gather
        | apply lib_accumulate | apply lib_add_jac
        | apply lib_bind; [|intro] ].

Lemma q2b_sq x : q2b (sq x) = q2b x.
Proof.
  destruct (q2b x) eqn:E.
  - apply q2b_true, sq_nonzero, q2b_true. exact E.
  - apply q2b_false in E. subst. reflexivity.
Qed.

Lemma nonzero_vsq x : nonzero (vsq x) = nonzero x.
Proof.
  unfold nonzero, vsq. induction x as [|a x IH]; simpl; [reflexivity|].
  now rewrite q2b_sq, IH.
Qed.

Lemma truthy_false_all_zero x i : truthy x = false -> at_ x i = 0.
Proof.
  unfold truthy, at_. revert i. induction x as [|a x IH]; intros [|i] H; simpl in *;
    try reflexivity; apply orb_false_iff in H; destruct H as [Ha Hx].
  - now apply q2b_false.
  - now apply IH.
Qed.

Section Failures.

Variable altb_test : Qc -> Qc -> bool.
Variable agtb_test : Qc -> Qc -> bool.

Lemma gcall_never_numeric_failure cfg self dae :
  ~ raises_numeric_failure (gcall altb_test agtb_test cfg self dae).
Proof.
  unfold gcall. apply lib_bind.
  - unfold gcall_k, altb, agtb, aorb, mul, vadd.
    destruct (forcez cfg); [destruct (truthy _)|destruct (forcepq cfg)];
      repeat lib_step.
  - intros [self1 k]. unfold mul. repeat lib_step.
Qed.

Lemma gycall_never_numeric_failure cfg self dae :
  ~ raises_numeric_failure (gycall cfg self dae).
Proof.
  unfold gycall. destruct (forcepq cfg); [apply lib_ok|].
  apply lib_bind.
  - unfold gycall_k, mul, vadd.
    destruct (forcez cfg); [destruct (truthy _)|]; repeat lib_step.
  - intro k0. unfold mul. repeat lib_step.
Qed.

End Failures.

(** ** Composition rejects an undefined symbol *)

Lemma compile_undefined (m : Composition.model) (x : string) :
  In x (Composition.referenced m) -> Composition.known m x = false ->
  exists x', Composition.compile m
               = inl (Composition.UndefinedSymbol (Composition.name m) x') /\
             In x' (Composition.referenced m) /\ Composition.known m x' = false.
Proof.
  intros Hin Hk. unfold Composition.compile.
  destruct (find (fun s => negb (Composition.known m s)) (Composition.referenced m))
    as [x'|] eqn:F.
  - apply find_some in F. destruct F as [Hin' Hk'].
    exists x'. split; [reflexivity|]. split; [exact Hin'|].
    now apply negb_true_iff.
  - exfalso. pose proof (find_none _ _ F x Hin) as N. simpl in N.
    rewrite Hk in N. discriminate N.
Qed.

Lemma compile_result (m : Composition.model) :
  (exists x, Composition.compile m
               = inl (Composition.UndefinedSymbol (Composition.name m) x) /\
             In x (Composition.referenced m) /\ Composition.known m x = false) \/
  Composition.compile m = inr m.
Proof.
  unfold Composition.compile.
  destruct (find (fun s => negb (Composition.known m s)) (Composition.referenced m))
    as [x|] eqn:F.
  - left. apply find_some in F. destruct F as [Hin Hk].
    exists x. split; [reflexivity|]. split; [exact Hin|]. now apply negb_true_iff.
  - now right.
Qed.

(** Compiling a case that holds a model with an undefined symbol stops
    at the first model that has one. *)
Lemma compile_all_undefined (case : list Composition.model) (m : Composition.model) (x : string) :
  In m case -> In x (Composition.referenced m) -> Composition.known m x = false ->
  exists m' x',
    Composition.compile_all case
      = inl (Composition.UndefinedSymbol (Composition.name m') x') /\
    In m' case /\ In x' (Composition.referenced m') /\ Composition.known m' x' = false.
Proof.
  induction case as [|m0 rest IH]; intros Hm Hin Hk; [destruct Hm|].
  simpl. destruct (compile_result m0) as [(x0 & E0 & Hin0 & Hk0) | E0]; rewrite E0.
  - exists m0, x0. repeat split; auto using in_eq.
  - destruct Hm as [-> | Hm].
    + destruct (compile_undefined m x Hin Hk) as (x' & E' & _). congruence.
    + destruct (IH Hm Hin Hk) as (m' & x' & E' & Hm' & Hin' & Hk').
      rewrite E'. exists m', x'. repeat split; auto using in_cons.
Qed.

(** C8: a model that refers to a name it neither declares nor reaches
    through a bound reference does not compile: [compile] fails with
    [UndefinedSymbol]; [initialize] of any case that holds the model
    returns no system but a [ModelCompositionError], and that error wraps
    an [UndefinedSymbol] as soon as the registry and resolver stages
    report nothing.  The base TCSC model, whose indexer [syn] nothing
    assigns, is such a model. *)
Theorem undefined_symbol_fails_composition
    (resolve : list Composition.model -> Composition.model -> option Composition.cause)
    (m : Composition.model) (x : string) :
  In x (Composition.referenced m) -> Composition.known m x = false ->
  (exists x', Composition.compile m
                = inl (Composition.UndefinedSymbol (Composition.name m) x') /\
              In x' (Composition.referenced m) /\ Composition.known m x' = false) /\
  (forall case, In m case ->
     (exists c, Composition.initialize resolve case
                  = inl (Composition.ModelCompositionError c)) /\
     (forall sys, Composition.initialize resolve case <> inr sys) /\
     (Composition.first_failure Composition.build_registry case = None ->
      Composition.first_failure (resolve case) case = None ->
      exists m' x',
        Composition.initialize resolve case
          = inl (Composition.ModelCompositionError
                   (Composition.UndefinedSymbol (Composition.name m') x')) /\
        In m' case /\ In x' (Composition.referenced m') /\
        Composition.known m' x' = false)) /\
  (Composition.first_failure Composition.build_registry [m] = None ->
   Composition.first_failure (resolve [m]) [m] = None ->
   exists x',
     Composition.initialize resolve [m]
       = inl (Composition.ModelCompositionError
                (Composition.UndefinedSymbol (Composition.name m) x')) /\
     In x' (Composition.referenced m) /\ Composition.known m x' = false) /\
  Composition.compile Composition.TCSCBase
    = inl (Composition.UndefinedSymbol "TCSCBase" "syn") /\
  Composition.compile Composition.TCSC
    = inl (Composition.UndefinedSymbol "TCSC" "syn").
Proof.
  intros Hin Hk.
  split; [now apply (compile_undefined m x)|].
  split; [|split; [|split; reflexivity]].
  - intros case Hm.
    destruct (compile_all_undefined case m x Hm Hin Hk) as (m' & x' & E & Hm' & Hin' & Hk').
    assert (F : exists c, Composition.initialize resolve case
                            = inl (Composition.ModelCompositionError c)).
    { unfold Composition.initialize.
      destruct (Composition.first_failure Composition.build_registry case) as [c|];
        [now exists c|].
      destruct (Composition.first_failure (resolve case) case) as [c|]; [now exists c|].
      rewrite E. eexists. reflexivity. }
    split; [exact F|]. split.
    + intros sys H. destruct F as [c F]. congruence.
    + intros R1 R2. exists m', x'.
      unfold Composition.initialize. rewrite R1, R2, E.
      repeat split; assumption.
  - intros R1 R2.
    destruct (compile_undefined m x Hin Hk) as (x' & E & Hin' & Hk').
    exists x'. unfold Composition.initialize. rewrite R1, R2.
    simpl. rewrite E. repeat split; assumption.
Qed.

Lemma undefined_symbol_fails_composition_witness :
  exists x',
    Composition.initialize Composition.resolve_nothing [Composition.TCSCBase]
      = inl (Composition.ModelCompositionError
               (Composition.UndefinedSymbol "TCSCBase" x')) /\
    In x' (Composition.referenced Composition.TCSCBase) /\
    Composition.known Composition.TCSCBase x' = false.
Proof.
  destruct (undefined_symbol_fails_composition Composition.resolve_nothing
              Composition.TCSCBase "syn")
    as (_ & _ & S & _); [simpl; auto | reflexivity |].
  apply S; reflexivity.
Defined.

(** * Further properties of the passes *)

(** ** Order facts about the voltage factor *)

Lemma Qc_pos_nonzero (x : Qc) : 0 < x -> x <> 0.
Proof. intros H E. subst. exact (Qclt_not_le _ _ H (Qcle_refl 0)). Qed.

Lemma ratio_ok (x lo : Qc) : lo <> 0 -> (x / lo) * lo = x.
Proof. intro H. field. exact H. Qed.

Lemma ratio_nonneg (x lo : Qc) : 0 < lo -> 0 <= x -> 0 <= x / lo.
Proof.
  intros Hlo Hx. apply Qcnot_lt_le. intro N.
  pose proof (Qcmult_lt_compat_r _ _ _ Hlo N) as M.
  rewrite ratio_ok in M by now apply Qc_pos_nonzero.
  replace (0 * lo) with 0 in M by ring.
  exact (Qclt_not_le _ _ M Hx).
Qed.

Lemma ratio_lt_one (x lo : Qc) : 0 < lo -> x < lo -> x / lo < 1.
Proof.
  intros Hlo Hx. apply Qcnot_le_lt. intro N.
  pose proof (Qcmult_le_compat_r _ _ _ N (Qclt_le_weak _ _ Hlo)) as M.
  rewrite ratio_ok in M by now apply Qc_pos_nonzero.
  replace (1 * lo) with lo in M by ring.
  exact (Qclt_not_le _ _ Hx M).
Qed.

Lemma ratio_gt_one (x hi : Qc) : 0 < hi -> hi < x -> 1 < x / hi.
Proof.
  intros Hhi Hx. apply Qcnot_le_lt. intro N.
  pose proof (Qcmult_le_compat_r _ _ _ N (Qclt_le_weak _ _ Hhi)) as M.
  rewrite ratio_ok in M by now apply Qc_pos_nonzero.
  replace (1 * hi) with hi in M by ring.
  exact (Qclt_not_le _ _ Hx M).
Qed.

Lemma sq_nonneg (r : Qc) : 0 <= r -> 0 <= sq r.
Proof.
  intro H. unfold sq.
  replace 0 with (0 * r) by ring. now apply Qcmult_le_compat_r.
Qed.

Lemma sq_lt_one (r : Qc) : 0 <= r -> r < 1 -> sq r < 1.
Proof.
  intros H0 H1. unfold sq.
  apply Qcle_lt_trans with (1 * r).
  - apply Qcmult_le_compat_r; [now apply Qclt_le_weak | exact H0].
  - now replace (1 * r) with r by ring.
Qed.

Lemma sq_gt_one (r : Qc) : 1 < r -> 1 < sq r.
Proof.
  intro H1. unfold sq.
  assert (P : 0 < r).
  { apply Qclt_trans with 1; [|exact H1]. apply Qc_ltb_iff. reflexivity. }
  apply Qclt_trans with (1 * r).
  - now replace (1 * r) with r by ring.
  - now apply Qcmult_lt_compat_r.
Qed.

Section Regimes.

Variable altb_test : Qc -> Qc -> bool.
Variable agtb_test : Qc -> Qc -> bool.

Hypothesis altb_below : forall x y, x < y -> altb_test x y = true.
Hypothesis altb_above : forall x y, y < x -> altb_test x y = false.
Hypothesis agtb_above : forall x y, y < x -> agtb_test x y = true.
Hypothesis agtb_below : forall x y, x < y -> agtb_test x y = false.

(** The factor at a voltage that sits exactly on a limit is 1 whatever
    the helpers answer there. *)
Lemma k_switch_at_tie (b : bool) (lo hi : Qc) :
  lo <> 0 -> hi <> 0 ->
  k_switch (b2q b) 0 lo lo hi = 1 /\ k_switch 0 (b2q b) hi lo hi = 1.
Proof.
  intros Hlo Hhi. destruct b; cbn [b2q].
  - rewrite k_switch_below, k_switch_above by assumption.
    unfold sq. split; field; assumption.
  - rewrite !k_switch_normal. split; reflexivity.
Qed.

(** X1: the residual is continuous across a switch: with the voltage of an
    instance exactly on [vmin] or on [vmax], the switching branch of
    [gcall] contributes [u*p] and [u*q], whichever side the helpers put
    the tie on. *)
Theorem contribution_at_limit_is_nominal cfg self dae i :
  forcez cfg = false -> forcepq cfg = false ->
  sized self = true -> addressed self dae = true -> divides_g cfg self = true ->
  (i < Pq.n self)%nat ->
  at_ (Pq.vmin self) i < at_ (Pq.vmax self) i ->
  volt self dae i = at_ (Pq.vmin self) i \/ volt self dae i = at_ (Pq.vmax self) i ->
  exists self' dae',
    gcall altb_test agtb_test cfg self dae = Ok (self', dae') /\
    at_ (Pq.p0 self') i = at_ (Pq.u self) i * at_ (Pq.p self) i /\
    at_ (Pq.q0 self') i = at_ (Pq.u self) i * at_ (Pq.q self) i.
Proof.
  intros Fz Fpq Hs Ha Hd Hi Hlt Htie.
  destruct (gcall_spec altb_test agtb_test cfg self dae Hs Ha Hd)
    as (bl & ab & np0 & nq0 & ng & E & _ & _ & _ & Np & _).
  destruct (sized_elim self Hs) as (Lu & Lp & Lq & Lmin & Lmax & La & Lv).
  eexists _, _. split; [exact E|]. cbn [with_services Pq.p0 Pq.q0].
  destruct (Np i Hi) as [Ep Eq].
  unfold divides_g in Hd. rewrite Fz, Fpq in Hd.
  apply andb_true_iff in Hd. destruct Hd as [Nmin Nmax].
  assert (Rlo : at_ (Pq.vmin self) i <> 0) by (apply nonzero_at; [assumption|lia]).
  assert (Rhi : at_ (Pq.vmax self) i <> 0) by (apply nonzero_at; [assumption|lia]).
  assert (K : k_inst altb_test agtb_test cfg self dae i = 1).
  { unfold k_inst. rewrite Fz, Fpq. destruct Htie as [T|T]; rewrite T.
    - rewrite (agtb_below _ _ Hlt). cbn [b2q].
      exact (proj1 (k_switch_at_tie _ _ _ Rlo Rhi)).
    - rewrite (altb_above _ _ Hlt). cbn [b2q].
      exact (proj2 (k_switch_at_tie _ _ _ Rlo Rhi)). }
  rewrite Ep, Eq, K. split; ring.
Qed.

(** X2: below the lower limit the load draws less than its nominal power,
    between the limits exactly the nominal power, above the upper limit
    more: for limits [0 < vmin < vmax] and a voltage that is not
    negative, the contributions of [gcall] are [u*k*p] and [u*k*q] with
    [0 <= k < 1], [k = 1] and [1 < k] in the three bands, and
    [k = (v/vmin)^2] or [(v/vmax)^2] outside the normal band. *)
Theorem switching_factor_bands cfg self dae i :
  forcez cfg = false -> forcepq cfg = false ->
  sized self = true -> addressed self dae = true -> divides_g cfg self = true ->
  (i < Pq.n self)%nat ->
  0 < at_ (Pq.vmin self) i -> at_ (Pq.vmin self) i < at_ (Pq.vmax self) i ->
  0 <= volt self dae i ->
  exists self' dae' k,
    gcall altb_test agtb_test cfg self dae = Ok (self', dae') /\
    at_ (Pq.p0 self') i = (at_ (Pq.u self) i * k) * at_ (Pq.p self) i /\
    at_ (Pq.q0 self') i = (at_ (Pq.u self) i * k) * at_ (Pq.q self) i /\
    0 <= k /\
    (volt self dae i < at_ (Pq.vmin self) i ->
       k = sq (volt self dae i / at_ (Pq.vmin self) i) /\ k < 1) /\
    (at_ (Pq.vmin self) i <= volt self dae i ->
     volt self dae i <= at_ (Pq.vmax self) i -> k = 1) /\
    (at_ (Pq.vmax self) i < volt self dae i ->
       k = sq (volt self dae i / at_ (Pq.vmax self) i) /\ 1 < k).
Proof.
  intros Fz Fpq Hs Ha Hd Hi Hpos Hlt Hv.
  destruct (gcall_spec altb_test agtb_test cfg self dae Hs Ha Hd)
    as (bl & ab & np0 & nq0 & ng & E & _ & _ & _ & Np & _).
  destruct (Np i Hi) as [Ep Eq].
  set (x := volt self dae i) in *.
  set (lo := at_ (Pq.vmin self) i) in *.
  set (hi := at_ (Pq.vmax self) i) in *.
  assert (Hhi : 0 < hi) by (eapply Qclt_trans; eassumption).
  assert (Rlo : lo <> 0) by now apply Qc_pos_nonzero.
  assert (Rhi : hi <> 0) by now apply Qc_pos_nonzero.
  assert (One : (0 : Qc) <= 1) by (apply Qc_leb_iff; reflexivity).
  exists (with_services self np0 nq0 bl ab),
         (Dae.mk (Dae.y dae) ng (Dae.m dae) (Dae.Gy dae)),
         (k_inst altb_test agtb_test cfg self dae i).
  split; [exact E|]. cbn [with_services Pq.p0 Pq.q0].
  split; [exact Ep|]. split; [exact Eq|].
  unfold k_inst. rewrite Fz, Fpq. fold x lo hi.
  assert (Below : x < lo ->
            k_switch (b2q (altb_test x lo)) (b2q (agtb_test x hi)) x lo hi = sq (x / lo)).
  { intro L. rewrite (altb_below _ _ L).
    rewrite (agtb_below x hi) by (eapply Qclt_trans; eassumption).
    cbn [b2q]. now apply k_switch_below. }
  assert (Above : hi < x ->
            k_switch (b2q (altb_test x lo)) (b2q (agtb_test x hi)) x lo hi = sq (x / hi)).
  { intro L. rewrite (agtb_above _ _ L).
    rewrite (altb_above x lo) by (eapply Qclt_trans; eassumption).
    cbn [b2q]. now apply k_switch_above. }
  assert (Mid : lo <= x -> x <= hi ->
            k_switch (b2q (altb_test x lo)) (b2q (agtb_test x hi)) x lo hi = 1).
  { intros L1 L2.
    destruct (Qcle_lt_or_eq _ _ L1) as [S1 | T1];
      destruct (Qcle_lt_or_eq _ _ L2) as [S2 | T2].
    - rewrite (altb_above _ _ S1), (agtb_below _ _ S2). cbn [b2q].
      apply k_switch_normal.
    - rewrite (altb_above _ _ S1), T2. cbn [b2q].
      exact (proj2 (k_switch_at_tie _ _ _ Rlo Rhi)).
    - rewrite (agtb_below _ _ S2), <- T1. cbn [b2q].
      exact (proj1 (k_switch_at_tie _ _ _ Rlo Rhi)).
    - exfalso. rewrite <- T2, <- T1 in Hlt. exact (Qclt_not_le _ _ Hlt (Qcle_refl _)). }
  split; [|split; [|split]].
  - destruct (Qclt_le_dec x lo) as [L|L].
    + rewrite (Below L). apply sq_nonneg. now apply ratio_nonneg.
    + destruct (Qclt_le_dec hi x) as [U|U].
      * rewrite (Above U). apply sq_nonneg. now apply ratio_nonneg.
      * now rewrite (Mid L U).
  - intro L. split; [now apply Below|]. rewrite (Below L).
    apply sq_lt_one; [now apply ratio_nonneg | now apply ratio_lt_one].
  - exact Mid.
  - intro U. split; [now apply Above|]. rewrite (Above U).
    apply sq_gt_one. now apply ratio_gt_one.
Qed.

End Regimes.

(** ** Initialisation followed by the passes *)

Lemma nonzero_gathered self dae :
  length (Pq.v self) = Pq.n self ->
  (forall i, (i < Pq.n self)%nat -> volt self dae i <> 0) ->
  nonzero (map (fun j => nth j (Dae.y dae) 0) (Pq.v self)) = true.
Proof.
  intros Lv H. unfold nonzero. apply forallb_forall. intros z Hz.
  apply (In_nth _ _ 0) in Hz. destruct Hz as (i & Hi & <-).
  rewrite length_map in Hi.
  rewrite gather_volt by exact Hi. apply q2b_true, H. lia.
Qed.

Section Initialised.

Variable altb_test : Qc -> Qc -> bool.
Variable agtb_test : Qc -> Qc -> bool.

(** X3: under forced impedance, right after [init1] has stored the bus
    voltages as reference, [gcall] at the same iterate contributes the
    nominal powers [u*p] and [u*q], and (unless [forcepq] makes it
    return) [gycall] stamps [p*u*2/v] and [q*u*2/v]: the impedance is
    the one that draws the nominal power at the initial voltage. *)
Theorem forced_impedance_is_nominal_at_reference cfg self dae :
  forcez cfg = true ->
  sized self = true -> addressed self dae = true ->
  (forall i, (i < Pq.n self)%nat -> volt self dae i <> 0) ->
  exists self1 self' dae',
    init1 self dae = Ok self1 /\
    gcall altb_test agtb_test cfg self1 dae = Ok (self', dae') /\
    (forall i, (i < Pq.n self)%nat ->
       at_ (Pq.v0 self1) i = volt self dae i /\
       at_ (Pq.p0 self') i = at_ (Pq.u self) i * at_ (Pq.p self) i /\
       at_ (Pq.q0 self') i = at_ (Pq.u self) i * at_ (Pq.q self) i) /\
    (forcepq cfg = false ->
       exists pv qv,
         gycall cfg self1 dae
           = Ok (Dae.mk (Dae.y dae) (Dae.g dae) (Dae.m dae)
                   (Dae.Gy dae ++ stamps self pv qv)) /\
         forall i, (i < Pq.n self)%nat ->
           at_ pv i = at_ (Pq.p self) i * (at_ (Pq.u self) i * (qc 2 1 / volt self dae i)) /\
           at_ qv i = at_ (Pq.q self) i * (at_ (Pq.u self) i * (qc 2 1 / volt self dae i))).
Proof.
  intros Fz Hs Ha Hnz.
  destruct (sized_elim self Hs) as (Lu & Lp & Lq & Lmin & Lmax & La & Lv).
  destruct (addressed_elim self dae Ha) as (Lg & Ry & Ra & Rv).
  set (nv0 := map (fun j => nth j (Dae.y dae) 0) (Pq.v self)).
  set (self1 := Pq.mk (Pq.n self) (Pq.u self) (Pq.p self) (Pq.q self) (Pq.vmin self)
                  (Pq.vmax self) (Pq.a self) (Pq.v self) nv0 (Pq.p0 self) (Pq.q0 self)
                  (Pq.below self) (Pq.above self)).
  assert (E1 : init1 self dae = Ok self1).
  { unfold init1. rewrite (gather_ok _ _ Ry). reflexivity. }
  assert (Hs1 : sized self1 = true) by exact Hs.
  assert (Ha1 : addressed self1 dae = true) by exact Ha.
  assert (Lnv : length nv0 = Pq.n self) by (unfold nv0; rewrite length_map; exact Lv).
  assert (Nnv : nonzero nv0 = true) by (apply nonzero_gathered; assumption).
  assert (V0 : forall i, (i < Pq.n self)%nat -> at_ nv0 i = volt self dae i).
  { intros i Hi. unfold at_, nv0. apply gather_volt. lia. }
  assert (Hd1 : divides_g cfg self1 = true).
  { unfold divides_g. rewrite Fz. cbn [self1 Pq.v0 Pq.n].
    destruct (truthy nv0); [|reflexivity].
    rewrite Lnv, Nat.eqb_refl, Nnv. reflexivity. }
  assert (Hdy : divides_gy cfg self1 = true).
  { unfold divides_gy. rewrite Fz. cbn [self1 Pq.v0 Pq.n].
    destruct (truthy nv0); [|reflexivity].
    rewrite Lnv, Nat.eqb_refl, Nnv. reflexivity. }
  assert (T : truthy nv0 = false -> Pq.n self = 0%nat).
  { intro F. destruct (Pq.n self) as [|k] eqn:En; [reflexivity|].
    exfalso. apply (Hnz 0%nat); [lia|].
    rewrite <- V0 by lia. now apply truthy_false_all_zero. }
  destruct (gcall_spec altb_test agtb_test cfg self1 dae Hs1 Ha1 Hd1)
    as (bl & ab & np0 & nq0 & ng & E & _ & _ & _ & Np & _).
  exists self1. eexists _, _. split; [exact E1|]. split; [exact E|].
  split.
  - intros i Hi. cbn [with_services Pq.p0 Pq.q0 self1 Pq.v0].
    split; [now apply V0|].
    destruct (Np i Hi) as [Ep Eq]. rewrite Ep, Eq.
    unfold k_inst. rewrite Fz. cbn [self1 Pq.v0 Pq.u Pq.p Pq.q].
    destruct (truthy nv0) eqn:Tr.
    + rewrite (V0 i Hi).
      change (volt self1 dae i) with (volt self dae i).
      pose proof (Hnz i Hi) as Nz. unfold sq. split; field; exact Nz.
    + split; ring.
  - intro Fpq.
    destruct (gycall_spec cfg self1 dae Fpq Hs1 Ha1 Hdy) as (pv & qv & Ey & _ & _ & Ny).
    exists pv, qv. split; [exact Ey|].
    intros i Hi. destruct (Ny i Hi) as [Ep Eq]. rewrite Ep, Eq.
    unfold dk_inst. rewrite Fz. cbn [self1 Pq.v0 Pq.u Pq.p Pq.q].
    destruct (truthy nv0) eqn:Tr.
    + rewrite (V0 i Hi).
      change (volt self1 dae i) with (volt self dae i).
      pose proof (Hnz i Hi) as Nz. unfold sq. split; field; exact Nz.
    + exfalso. rewrite (T eq_refl) in Hi. lia.
Qed.

End Initialised.

(** ** Calling the residual pass again *)

Lemma at_ext (x z : vec) :
  length x = length z -> (forall i, (i < length x)%nat -> at_ x i = at_ z i) -> x = z.
Proof.
  intros L N. apply (nth_ext x z 0 0 L). intros i Hi. exact (N i Hi).
Qed.

Section Repeated.

Variable altb_test : Qc -> Qc -> bool.
Variable agtb_test : Qc -> Qc -> bool.

(** X4: [gcall] adds to the residual and does not reset it: a second call
    at the same iterate returns the same object (the columns [p0], [q0],
    [below], [above] it wrote are written again with the same values)
    and leaves every residual entry with the contributions added
    twice. *)
Theorem second_call_adds_again cfg self dae :
  sized self = true -> addressed self dae = true -> divides_g cfg self = true ->
  exists self1 dae1 dae2,
    gcall altb_test agtb_test cfg self dae = Ok (self1, dae1) /\
    gcall altb_test agtb_test cfg self1 dae1 = Ok (self1, dae2) /\
    forall o,
      nth o (Dae.g dae2) 0
        = nth o (Dae.g dae) 0
          + (1 + 1) * (contrib o (Pq.a self) (Pq.p0 self1)
                       + contrib o (Pq.v self) (Pq.q0 self1)).
Proof.
  intros Hs Ha Hd.
  destruct (gcall_spec altb_test agtb_test cfg self dae Hs Ha Hd)
    as (bl & ab & np0 & nq0 & ng & E & Lnp & Lnq & Lng & Np & Ng & Sw & Fr).
  set (self1 := with_services self np0 nq0 bl ab) in *.
  set (dae1 := Dae.mk (Dae.y dae) ng (Dae.m dae) (Dae.Gy dae)) in *.
  assert (Hs1 : sized self1 = true) by exact Hs.
  assert (Ha1 : addressed self1 dae1 = true).
  { unfold addressed in *. cbn [self1 dae1 with_services Dae.g Dae.m Dae.y Pq.a Pq.v].
    rewrite Lng. exact Ha. }
  assert (Hd1 : divides_g cfg self1 = true) by exact Hd.
  destruct (gcall_spec altb_test agtb_test cfg self1 dae1 Hs1 Ha1 Hd1)
    as (bl' & ab' & np0' & nq0' & ng' & E' & Lnp' & Lnq' & Lng' & Np' & Ng' & Sw' & Fr').
  cbn [self1 dae1 with_services Pq.n Pq.u Pq.p Pq.q Pq.a Pq.v Pq.vmin Pq.vmax
       Pq.below Pq.above Dae.g Dae.y Dae.m Dae.Gy] in Lnp', Lnq', Np', Ng', Sw', Fr'.
  assert (EP : np0' = np0).
  { apply at_ext; [congruence|]. intros i Hi. rewrite Lnp' in Hi.
    destruct (Np i Hi) as [A _]. destruct (Np' i Hi) as [A' _].
    rewrite A, A'. reflexivity. }
  assert (EQ : nq0' = nq0).
  { apply at_ext; [congruence|]. intros i Hi. rewrite Lnq' in Hi.
    destruct (Np i Hi) as [_ A]. destruct (Np' i Hi) as [_ A'].
    rewrite A, A'. reflexivity. }
  assert (EB : bl' = bl /\ ab' = ab).
  { destruct (forcez cfg) eqn:Fz; [|destruct (forcepq cfg) eqn:Fpq].
    - apply Fr'. now left.
    - apply Fr'. now right.
    - destruct (Sw eq_refl eq_refl) as (Lb & La & N).
      destruct (Sw' eq_refl eq_refl) as (Lb' & La' & N').
      split; (apply at_ext; [congruence|]); intros i Hi.
      + rewrite Lb' in Hi. destruct (N i Hi) as [A _]. destruct (N' i Hi) as [A' _].
        rewrite A, A'. reflexivity.
      + rewrite La' in Hi. destruct (N i Hi) as [_ A]. destruct (N' i Hi) as [_ A'].
        rewrite A, A'. reflexivity. }
  destruct EB as [EB EA]. subst np0' nq0' bl' ab'.
  exists self1, dae1. eexists. split; [exact E|]. split; [exact E'|].
  intro o. cbn [Dae.g self1 with_services Pq.p0 Pq.q0].
  rewrite Ng', Ng. ring.
Qed.

End Repeated.

(** ** Offsets outside the residual *)

Lemma add_at_length gv i x g1 : add_at gv i x = Ok g1 -> length g1 = length gv.
Proof.
  unfold add_at. destruct (nth_error gv i); [|discriminate].
  intro H. injection H as <-. apply upd_length.
Qed.

Lemma add_at_out gv i x : (length gv <= i)%nat -> add_at gv i x = Err IndexError.
Proof.
  intro H. unfold add_at.
  destruct (nth_error gv i) eqn:E; [|reflexivity].
  assert (nth_error gv i <> None) by congruence.
  apply nth_error_Some in H0. lia.
Qed.

Lemma dense_loop_out la : forall lv lp lq gv,
  length la = length lv -> length la = length lp -> length la = length lq ->
  forallb (fun i => Nat.ltb i (length gv)) la
    && forallb (fun i => Nat.ltb i (length gv)) lv = false ->
  dense_loop gv (zip4 la lv lp lq) = Err IndexError.
Proof.
  induction la as [|ia la IH]; intros [|iv lv] [|xp lp] [|xq lq] gv L1 L2 L3 H;
    simpl in *; try discriminate.
  destruct (Nat.ltb ia (length gv)) eqn:Ea.
  - apply Nat.ltb_lt in Ea. rewrite (add_at_ok gv ia xp Ea). cbn [bind].
    set (g1 := upd gv ia (nth ia gv 0 + xp)).
    assert (Lg1 : length g1 = length gv) by apply upd_length.
    destruct (Nat.ltb iv (length gv)) eqn:Ev.
    + apply Nat.ltb_lt in Ev.
      rewrite (add_at_ok g1 iv xq) by (rewrite Lg1; exact Ev). cbn [bind].
      apply IH; try congruence.
      rewrite upd_length, Lg1. simpl in H.
      destruct (forallb (fun i => Nat.ltb i (length gv)) la); simpl in *; exact H.
    + apply Nat.ltb_ge in Ev. rewrite add_at_out by (rewrite Lg1; exact Ev).
      reflexivity.
  - apply Nat.ltb_ge in Ea. now rewrite add_at_out.
Qed.

(** X5: the accumulation step of [gcall] on columns of the instance count:
    it returns a residual of the old size when every offset lies inside
    [dae.g], and otherwise it fails, the dense loop with the
    [IndexError] of the first bad position, the coordinate-list path
    with the [ValueError] of the matrix constructor. *)
Theorem accumulate_offsets_in_range (cnt k : nat) (gv : vec) (la lv : list nat) (lp lq : vec) :
  length gv = k ->
  length la = cnt -> length lv = cnt -> length lp = cnt -> length lq = cnt ->
  (forallb (fun i => Nat.ltb i k) la && forallb (fun i => Nat.ltb i k) lv = true ->
     exists g', accumulate cnt k gv la lv lp lq = Ok g' /\ length g' = k) /\
  (forallb (fun i => Nat.ltb i k) la && forallb (fun i => Nat.ltb i k) lv = false ->
     accumulate cnt k gv la lv lp lq
       = Err (if Nat.leb cnt 400 then IndexError else ValueError)).
Proof.
  intros Hg Ha Hv Hp Hq. split; intro H.
  - apply andb_true_iff in H. destruct H as [Ra Rv].
    apply forallb_ltb_Forall in Ra, Rv.
    destruct (accumulate_paths cnt k gv la lv lp lq Hg Ha Hv Hp Hq Ra Rv)
      as (g' & Ed & _ & Eacc & _).
    exists g'. split; [exact Eacc|].
    destruct (dense_loop_spec (zip4 la lv lp lq) gv) as (g1 & E1 & L1 & _).
    { apply rows_in_range_zip4; rewrite Hg; assumption. }
    congruence.
  - unfold accumulate. destruct (Nat.leb cnt 400).
    + apply dense_loop_out; try congruence. rewrite Hg. exact H.
    + unfold sparse_accumulate, coo_toarray.
      rewrite Hp, Hq, Ha, Hv, Nat.eqb_refl. cbn [andb].
      destruct (forallb (fun r => Nat.ltb r k) la); [|reflexivity].
      cbn [bind]. simpl in H. rewrite H. reflexivity.
Qed.

(** ** Reordering the instances *)

Lemma zip4_cols rows : zip4 (col_a rows) (col_v rows) (col_p rows) (col_q rows) = rows.
Proof.
  induction rows as [|[[[ia iv] xp] xq] rest IH]; simpl; [reflexivity|].
  now rewrite IH.
Qed.

Lemma cols_in_range k rows :
  rows_in_range k rows ->
  Forall (fun i => (i < k)%nat) (col_a rows) /\ Forall (fun i => (i < k)%nat) (col_v rows).
Proof.
  unfold rows_in_range, col_a, col_v. intro H. split; apply Forall_map;
    (eapply Forall_impl; [|exact H]); intros r [A B]; assumption.
Qed.

Lemma contrib_cols o rows :
  contrib o (col_a rows) (col_p rows) + contrib o (col_v rows) (col_q rows)
    = contrib_rows o rows.
Proof.
  rewrite <- (zip4_cols rows) at 5.
  symmetry. apply contrib_rows_zip4; unfold col_a, col_v, col_p, col_q;
    now rewrite !length_map.
Qed.

(** X6: the accumulation step does not depend on the order of the instances,
    on either path: listing the same instances in another order gives
    the same residual, for every instance count. *)
Theorem accumulate_order_independent (k : nat) (gv : vec)
    (rows rows' : list (nat * nat * Qc * Qc)) :
  length gv = k -> rows_in_range k rows -> Permutation rows rows' ->
  exists g',
    accumulate (length rows) k gv (col_a rows) (col_v rows) (col_p rows) (col_q rows)
      = Ok g' /\
    accumulate (length rows') k gv (col_a rows') (col_v rows') (col_p rows') (col_q rows')
      = Ok g' /\
    sparse_accumulate k gv (col_a rows) (col_v rows) (col_p rows) (col_q rows) (length rows)
      = Ok g' /\
    sparse_accumulate k gv (col_a rows') (col_v rows') (col_p rows') (col_q rows')
      (length rows') = Ok g'.
Proof.
  intros Hg Hr P.
  pose proof (rows_in_range_perm _ _ _ P Hr) as Hr'.
  destruct (cols_in_range k rows Hr) as [Ra Rv].
  destruct (cols_in_range k rows' Hr') as [Ra' Rv'].
  assert (L : forall rs, length (col_a rs) = length rs /\ length (col_v rs) = length rs /\
                         length (col_p rs) = length rs /\ length (col_q rs) = length rs).
  { intro rs. unfold col_a, col_v, col_p, col_q. now rewrite !length_map. }
  destruct (L rows) as (A1 & A2 & A3 & A4). destruct (L rows') as (B1 & B2 & B3 & B4).
  destruct (accumulate_paths (length rows) k gv _ _ _ _ Hg A1 A2 A3 A4 Ra Rv)
    as (g1 & Ed1 & Es1 & Ea1 & N1).
  destruct (accumulate_paths (length rows') k gv _ _ _ _ Hg B1 B2 B3 B4 Ra' Rv')
    as (g2 & Ed2 & Es2 & Ea2 & N2).
  assert (EQ : g2 = g1).
  { rewrite zip4_cols in Ed1, Ed2.
    destruct (dense_loop_spec rows gv) as (h1 & F1 & M1 & _); [now rewrite Hg|].
    destruct (dense_loop_spec rows' gv) as (h2 & F2 & M2 & _); [now rewrite Hg|].
    apply list_eq_nth; [congruence|].
    intro o. rewrite N1, N2, !contrib_cols. f_equal. symmetry.
    now apply contrib_rows_perm. }
  subst g2. exists g1. repeat split; assumption.
Qed.

(** ** The total of the residual *)

Lemma vsum_upd gv i x :
  (i < length gv)%nat -> vsum (upd gv i (nth i gv 0 + x)) = vsum gv + x.
Proof.
  revert i. induction gv as [|h t IH]; intros [|i] H; simpl in *; try lia.
  - ring.
  - rewrite IH by lia. ring.
Qed.

Lemma dense_loop_total rows : forall gv g',
  dense_loop gv rows = Ok g' ->
  vsum g' = vsum gv + (vsum (col_p rows) + vsum (col_q rows)).
Proof.
  induction rows as [|[[[ia iv] xp] xq] rest IH]; intros gv g' E; simpl in E.
  - injection E as <-. simpl. ring.
  - unfold add_at in E at 1.
    destruct (nth_error gv ia) as [z|] eqn:Ea; [|discriminate]. cbn [bind] in E.
    set (g1 := upd gv ia (z + xp)) in *.
    unfold add_at in E at 1.
    destruct (nth_error g1 iv) as [w|] eqn:Ev; [|discriminate]. cbn [bind] in E.
    rewrite (IH _ _ E).
    assert (Ia : (ia < length gv)%nat) by (apply nth_error_Some; congruence).
    assert (Iv : (iv < length g1)%nat) by (apply nth_error_Some; congruence).
    rewrite <- (nth_error_nth _ _ 0 Ev), vsum_upd by exact Iv.
    unfold g1. rewrite <- (nth_error_nth _ _ 0 Ea), vsum_upd by exact Ia.
    simpl. ring.
Qed.

(** X7: nothing is lost and nothing is counted twice: whenever the
    accumulation step returns, on either path, the sum of all residual
    entries has grown by the sum of the [p0] column plus the sum of the
    [q0] column. *)
Theorem accumulate_conserves_total (cnt k : nat) (gv : vec) (la lv : list nat) (lp lq : vec) :
  length gv = k ->
  length la = cnt -> length lv = cnt -> length lp = cnt -> length lq = cnt ->
  Forall (fun i => (i < k)%nat) la -> Forall (fun i => (i < k)%nat) lv ->
  exists g',
    accumulate cnt k gv la lv lp lq = Ok g' /\
    sparse_accumulate k gv la lv lp lq cnt = Ok g' /\
    vsum g' = vsum gv + (vsum lp + vsum lq).
Proof.
  intros Hg Ha Hv Hp Hq Ra Rv.
  destruct (accumulate_paths cnt k gv la lv lp lq Hg Ha Hv Hp Hq Ra Rv)
    as (g' & Ed & Es & Eacc & _).
  exists g'. split; [exact Eacc|]. split; [exact Es|].
  rewrite (dense_loop_total _ _ _ Ed).
  assert (C : forall (xa xv : list nat) (xp xq : vec),
            length xa = length xv -> length xa = length xp -> length xa = length xq ->
            col_p (zip4 xa xv xp xq) = xp /\ col_q (zip4 xa xv xp xq) = xq).
  { induction xa as [|ia xa IH]; intros [|iv xv] [|x1 xp] [|x2 xq] L1 L2 L3;
      simpl in *; try discriminate; [split; reflexivity|].
    destruct (IH xv xp xq) as [P Q]; try congruence.
    unfold col_p, col_q in *. now rewrite P, Q. }
  destruct (C la lv lp lq ltac:(congruence) ltac:(congruence) ltac:(congruence)) as [P Q].
  now rewrite P, Q.
Qed.

(** ** The two declarations of the load *)

Lemma PQNew_e_expr u s vv lo hi :
  PQNew_e u s vv lo hi
    = PQNew_expr u s vv lo hi
        (normal_of (b2q (closed_below vv lo)) (b2q (closed_above vv hi)))
        (b2q (closed_below vv lo)) (b2q (closed_above vv hi)).
Proof.
  unfold PQNew_e, PQNew_expr, Comparer.evaluate, closed_below, closed_above.
  cbn [Comparer.zi Comparer.zl Comparer.zu].
  rewrite normal_of_b2q, negb_orb. reflexivity.
Qed.

Lemma PQNew_expr_value u s vv lo hi zl zu :
  lo <> 0 -> hi <> 0 ->
  PQNew_expr u s vv lo hi (normal_of zl zu) zl zu
    = Ok ((u * k_switch zl zu vv lo hi) * s).
Proof.
  intros Hlo Hhi. unfold PQNew_expr, qdiv.
  rewrite !q2b_sq.
  rewrite (proj2 (q2b_true lo) Hlo), (proj2 (q2b_true hi) Hhi). cbn [bind].
  f_equal. unfold k_switch. ring.
Qed.

(** Any two pairs of tests that answer correctly away from a tie give
    the same factor, ties included. *)
Lemma k_switch_any_reading (t1 t2 : Qc -> Qc -> bool) vv lo hi :
  (forall x y, x < y -> t1 x y = true) -> (forall x y, y < x -> t1 x y = false) ->
  (forall x y, y < x -> t2 x y = true) -> (forall x y, x < y -> t2 x y = false) ->
  lo < hi -> lo <> 0 -> hi <> 0 ->
  k_switch (b2q (t1 vv lo)) (b2q (t2 vv hi)) vv lo hi
    = k_switch (b2q (closed_below vv lo)) (b2q (closed_above vv hi)) vv lo hi.
Proof.
  intros A1 A2 A3 A4 Hlt Hlo Hhi.
  destruct (Qc_dec vv lo) as [[L|L]|L].
  - assert (L' : vv < hi) by (eapply Qclt_trans; eassumption).
    now rewrite (A1 _ _ L), (A4 _ _ L'), (closed_below_lt _ _ L), (closed_above_lt _ _ L').
  - rewrite (A2 _ _ L), (closed_below_gt _ _ L). cbn [b2q].
    destruct (Qc_dec vv hi) as [[U|U]|U].
    + now rewrite (A4 _ _ U), (closed_above_lt _ _ U).
    + now rewrite (A3 _ _ U), (closed_above_gt _ _ U).
    + subst vv.
      rewrite (proj2 (k_switch_at_tie (t2 hi hi) lo hi Hlo Hhi)).
      now rewrite (proj2 (k_switch_at_tie (closed_above hi hi) lo hi Hlo Hhi)).
  - subst vv.
    rewrite (A4 _ _ Hlt), (closed_above_lt _ _ Hlt). cbn [b2q].
    rewrite (proj1 (k_switch_at_tie (t1 lo lo) lo hi Hlo Hhi)).
    now rewrite (proj1 (k_switch_at_tie (closed_below lo lo) lo hi Hlo Hhi)).
Qed.

Section Declarations.

Variable altb_test : Qc -> Qc -> bool.
Variable agtb_test : Qc -> Qc -> bool.

Hypothesis altb_below : forall x y, x < y -> altb_test x y = true.
Hypothesis altb_above : forall x y, y < x -> altb_test x y = false.
Hypothesis agtb_above : forall x y, y < x -> agtb_test x y = true.
Hypothesis agtb_below : forall x y, x < y -> agtb_test x y = false.

(** X8: the equations of [PQNew] and the switching branch of the legacy
    [gcall] describe the same load: for an instance with [vmin < vmax],
    the value of [a.e_symbolic] (of [v.e_symbolic]) at the data and
    voltage of the instance is the [p0] (the [q0]) entry [gcall]
    computes, wherever the comparator and the legacy helpers put a
    tie. *)
Theorem declarations_agree cfg self dae i :
  forcez cfg = false -> forcepq cfg = false ->
  sized self = true -> addressed self dae = true -> divides_g cfg self = true ->
  (i < Pq.n self)%nat ->
  at_ (Pq.vmin self) i < at_ (Pq.vmax self) i ->
  exists self' dae',
    gcall altb_test agtb_test cfg self dae = Ok (self', dae') /\
    PQNew_e (at_ (Pq.u self) i) (at_ (Pq.p self) i) (volt self dae i)
            (at_ (Pq.vmin self) i) (at_ (Pq.vmax self) i)
      = Ok (at_ (Pq.p0 self') i) /\
    PQNew_e (at_ (Pq.u self) i) (at_ (Pq.q self) i) (volt self dae i)
            (at_ (Pq.vmin self) i) (at_ (Pq.vmax self) i)
      = Ok (at_ (Pq.q0 self') i) /\
    forall zl_test zu_test : Qc -> Qc -> bool,
      (forall x y, x < y -> zl_test x y = true) ->
      (forall x y, y < x -> zl_test x y = false) ->
      (forall x y, y < x -> zu_test x y = true) ->
      (forall x y, x < y -> zu_test x y = false) ->
      let zl := b2q (zl_test (volt self dae i) (at_ (Pq.vmin self) i)) in
      let zu := b2q (zu_test (volt self dae i) (at_ (Pq.vmax self) i)) in
      PQNew_expr (at_ (Pq.u self) i) (at_ (Pq.p self) i) (volt self dae i)
                 (at_ (Pq.vmin self) i) (at_ (Pq.vmax self) i) (normal_of zl zu) zl zu
        = Ok (at_ (Pq.p0 self') i) /\
      PQNew_expr (at_ (Pq.u self) i) (at_ (Pq.q self) i) (volt self dae i)
                 (at_ (Pq.vmin self) i) (at_ (Pq.vmax self) i) (normal_of zl zu) zl zu
        = Ok (at_ (Pq.q0 self') i).
Proof.
  intros Fz Fpq Hs Ha Hd Hi Hlt.
  destruct (gcall_spec altb_test agtb_test cfg self dae Hs Ha Hd)
    as (bl & ab & np0 & nq0 & ng & E & _ & _ & _ & Np & _).
  destruct (sized_elim self Hs) as (Lu & Lp & Lq & Lmin & Lmax & La & Lv).
  destruct (Np i Hi) as [Ep Eq].
  unfold divides_g in Hd. rewrite Fz, Fpq in Hd.
  apply andb_true_iff in Hd. destruct Hd as [Nmin Nmax].
  assert (Rlo : at_ (Pq.vmin self) i <> 0) by (apply nonzero_at; [assumption|lia]).
  assert (Rhi : at_ (Pq.vmax self) i <> 0) by (apply nonzero_at; [assumption|lia]).
  unfold k_inst in Ep, Eq. rewrite Fz, Fpq in Ep, Eq.
  rewrite (k_switch_any_reading altb_test agtb_test) in Ep, Eq by assumption.
  eexists _, _. split; [exact E|]. cbn [with_services Pq.p0 Pq.q0].
  split; [|split].
  - rewrite PQNew_e_expr, PQNew_expr_value by assumption. now rewrite Ep.
  - rewrite PQNew_e_expr, PQNew_expr_value by assumption. now rewrite Eq.
  - intros zl_test zu_test Z1 Z2 Z3 Z4. cbv zeta.
    rewrite !PQNew_expr_value by assumption.
    rewrite (k_switch_any_reading zl_test zu_test) by assumption.
    rewrite Ep, Eq. split; reflexivity.
Qed.

End Declarations.

(** ** A model without instances *)

Section Empty.

Variable altb_test : Qc -> Qc -> bool.
Variable agtb_test : Qc -> Qc -> bool.

(** X9: a model with no instance changes nothing: in every configuration
    both passes return [dae] as they found it (the reference voltage
    column, if forced impedance reads it, being empty as well). *)
Theorem empty_model_is_inert cfg self dae :
  Pq.n self = 0%nat -> sized self = true ->
  length (Dae.g dae) = Dae.m dae ->
  (forcez cfg = true -> Pq.v0 self = []) ->
  (forcez cfg = false -> forcepq cfg = false ->
     Pq.below self = [] /\ Pq.above self = []) ->
  exists self',
    gcall altb_test agtb_test cfg self dae = Ok (self', dae) /\
    gycall cfg self' dae = Ok dae /\
    Pq.p0 self' = [] /\ Pq.q0 self' = [] /\
    gycall cfg self dae = Ok dae.
Proof.
  intros Hn Hs Lg Hv0 Hind.
  destruct (sized_elim self Hs) as (Lu & Lp & Lq & Lmin & Lmax & La & Lv).
  rewrite Hn in *.
  assert (Ea : Pq.a self = []) by now apply length_zero_iff_nil.
  assert (Ev : Pq.v self = []) by now apply length_zero_iff_nil.
  assert (Emin : Pq.vmin self = []) by now apply length_zero_iff_nil.
  assert (Emax : Pq.vmax self = []) by now apply length_zero_iff_nil.
  assert (Ha : addressed self dae = true).
  { unfold addressed. rewrite Ea, Ev, Lg, Nat.eqb_refl. reflexivity. }
  assert (Hd : divides_g cfg self = true).
  { unfold divides_g. destruct (forcez cfg).
    - now rewrite (Hv0 eq_refl).
    - destruct (forcepq cfg); [reflexivity|]. now rewrite Emin, Emax. }
  destruct (gcall_spec altb_test agtb_test cfg self dae Hs Ha Hd)
    as (bl & ab & np0 & nq0 & ng & E & Lnp & Lnq & Lng & _ & Ng & Sw & _).
  rewrite Hn in Lnp, Lnq.
  apply length_zero_iff_nil in Lnp, Lnq. subst np0 nq0.
  assert (EG : ng = Dae.g dae).
  { apply list_eq_nth; [exact Lng|]. intro o. rewrite Ng, Ea, Ev. simpl. ring. }
  subst ng.
  assert (ED : Dae.mk (Dae.y dae) (Dae.g dae) (Dae.m dae) (Dae.Gy dae) = dae)
    by (destruct dae; reflexivity).
  rewrite ED in E.
  assert (GY : forall s, Pq.n s = 0%nat -> sized s = true ->
                 (forcepq cfg = false -> divides_gy cfg s = true) ->
                 gycall cfg s dae = Ok dae).
  { intros s Sn Ss Sd. destruct (forcepq cfg) eqn:Fpq.
    - unfold gycall. now rewrite Fpq.
    - assert (Sa : addressed s dae = true).
      { destruct (sized_elim s Ss) as (_ & _ & _ & _ & _ & Sa & Sv).
        rewrite Sn in Sa, Sv. apply length_zero_iff_nil in Sa, Sv.
        unfold addressed. rewrite Sa, Sv, Lg, Nat.eqb_refl. reflexivity. }
      destruct (gycall_spec cfg s dae Fpq Ss Sa (Sd eq_refl))
        as (pv & qv & Ey & Lpv & Lqv & _).
      rewrite Sn in Lpv, Lqv. apply length_zero_iff_nil in Lpv, Lqv. subst pv qv.
      unfold stamps in Ey. rewrite !combine_nil, app_nil_r in Ey.
      rewrite Ey. f_equal. destruct dae; reflexivity. }
  eexists. split; [exact E|].
  split; [|split; [reflexivity | split; [reflexivity|]]].
  - apply GY; [exact Hn | exact Hs |]. intro Fpq.
    unfold divides_gy. cbn [with_services Pq.v0 Pq.n Pq.vmin Pq.vmax Pq.below Pq.above].
    destruct (forcez cfg) eqn:Fz.
    + now rewrite (Hv0 eq_refl).
    + destruct (Sw eq_refl Fpq) as (Lb & Lab & _).
      rewrite Emin, Emax, Lb, Lab, Hn. reflexivity.
  - apply GY; [exact Hn | exact Hs |]. intro Fpq.
    unfold divides_gy. destruct (forcez cfg) eqn:Fz.
    + now rewrite (Hv0 eq_refl).
    + destruct (Hind eq_refl Fpq) as [B A]. now rewrite Emin, Emax, B, A, Hn.
Qed.

End Empty.

(** ** The power-flow initialisation *)

Section Nominal.

Variable altb_test : Qc -> Qc -> bool.
Variable agtb_test : Qc -> Qc -> bool.

Hypothesis altb_above : forall x y, y < x -> altb_test x y = false.
Hypothesis agtb_below : forall x y, x < y -> agtb_test x y = false.

(** X10: [init0] copies [p] and [q] into [p0] and [q0]; as long as every
    instance is enabled, no voltage limit is zero and every voltage lies
    strictly between its limits, the switching branch of [gcall] writes
    the same two columns back. *)
Theorem init0_columns_kept_in_normal_band cfg self dae :
  forcez cfg = false -> forcepq cfg = false ->
  sized self = true -> addressed self dae = true -> divides_g cfg self = true ->
  (forall i, (i < Pq.n self)%nat ->
     at_ (Pq.u self) i = 1 /\
     at_ (Pq.vmin self) i < volt self dae i /\
     volt self dae i < at_ (Pq.vmax self) i) ->
  exists self0 self' dae',
    init0 self dae = Ok self0 /\
    Pq.p0 self0 = Pq.p self /\ Pq.q0 self0 = Pq.q self /\
    gcall altb_test agtb_test cfg self0 dae = Ok (self', dae') /\
    Pq.p0 self' = Pq.p0 self0 /\ Pq.q0 self' = Pq.q0 self0.
Proof.
  intros Fz Fpq Hs Ha Hd Hall.
  destruct (sized_elim self Hs) as (Lu & Lp & Lq & Lmin & Lmax & La & Lv).
  set (self0 := Pq.mk (Pq.n self) (Pq.u self) (Pq.p self) (Pq.q self) (Pq.vmin self)
                  (Pq.vmax self) (Pq.a self) (Pq.v self) (Pq.v0 self)
                  (Pq.p self) (Pq.q self) (Pq.below self) (Pq.above self)).
  assert (E0 : init0 self dae = Ok self0).
  { unfold init0, as_column. rewrite Lp, Lq, Nat.eqb_refl. reflexivity. }
  assert (Hs0 : sized self0 = true) by exact Hs.
  assert (Ha0 : addressed self0 dae = true) by exact Ha.
  assert (Hd0 : divides_g cfg self0 = true) by exact Hd.
  destruct (gcall_spec altb_test agtb_test cfg self0 dae Hs0 Ha0 Hd0)
    as (bl & ab & np0 & nq0 & ng & E & Lnp & Lnq & _ & Np & _).
  cbn [self0 Pq.n Pq.u Pq.p Pq.q] in Lnp, Lnq, Np.
  exists self0. eexists _, _. split; [exact E0|].
  split; [reflexivity|]. split; [reflexivity|]. split; [exact E|].
  cbn [with_services Pq.p0 Pq.q0 self0].
  assert (K : forall i, (i < Pq.n self)%nat ->
                k_inst altb_test agtb_test cfg self0 dae i = 1).
  { intros i Hi. destruct (Hall i Hi) as (_ & L1 & L2).
    unfold k_inst. rewrite Fz, Fpq. cbn [self0 Pq.vmin Pq.vmax].
    change (volt self0 dae i) with (volt self dae i).
    rewrite (altb_above _ _ L1), (agtb_below _ _ L2). apply k_switch_normal. }
  split; (apply at_ext; [congruence|]); intros i Hi.
  - rewrite Lnp in Hi. destruct (Np i Hi) as [Ep _]. destruct (Hall i Hi) as (U & _).
    rewrite Ep, (K i Hi), U. ring.
  - rewrite Lnq in Hi. destruct (Np i Hi) as [_ Eq]. destruct (Hall i Hi) as (U & _).
    rewrite Eq, (K i Hi), U. ring.
Qed.

End Nominal.

(** ** Offset lists shorter than the instance count *)

Lemma zip4_truncates la : forall lv lp lq,
  length la = length lv ->
  zip4 la lv lp lq = zip4 la lv (firstn (length la) lp) (firstn (length la) lq).
Proof.
  induction la as [|ia la IH]; intros [|iv lv] lp lq L; simpl in *; try discriminate;
    [reflexivity|].
  destruct lp as [|xp lp]; [reflexivity|].
  destruct lq as [|xq lq]; simpl; [reflexivity|].
  rewrite <- IH by congruence. reflexivity.
Qed.

(** X11: the two paths part on ill-sized input: with fewer offsets than
    instances the dense loop stops at the shortest sequence, silently
    leaving the later instances out, while the coordinate-list path
    refuses the columns with a [ValueError]. *)
Theorem short_offsets_dense_drops_sparse_refuses (cnt c k : nat) (gv : vec)
    (la lv : list nat) (lp lq : vec) :
  length la = c -> length lv = c -> length lp = cnt -> length lq = cnt ->
  (c < cnt)%nat ->
  dense_loop gv (zip4 la lv lp lq)
    = dense_loop gv (zip4 la lv (firstn c lp) (firstn c lq)) /\
  length (zip4 la lv lp lq) = c /\
  sparse_accumulate k gv la lv lp lq cnt = Err ValueError.
Proof.
  intros La Lv Lp Lq Hc. split; [|split].
  - rewrite <- La. now rewrite <- zip4_truncates by congruence.
  - clear k gv. revert lv lp lq c cnt La Lv Lp Lq Hc.
    induction la as [|ia la IH]; intros [|iv lv] lp lq c cnt La Lv Lp Lq Hc;
      simpl in *; try congruence; try lia.
    destruct lp as [|xp lp]; simpl in *; [lia|].
    destruct lq as [|xq lq]; simpl in *; [lia|].
    destruct c as [|c]; [discriminate|]. destruct cnt as [|cnt]; [lia|].
    f_equal. apply (IH lv lp lq c cnt); lia.
  - unfold sparse_accumulate, coo_toarray.
    rewrite Lp, La.
    replace (Nat.eqb cnt c) with false by (symmetry; apply Nat.eqb_neq; lia).
    reflexivity.
Qed.

(** ** A voltage offset outside the iterate *)

Lemma gather_out yv idx :
  forallb (fun i => Nat.ltb i (length yv)) idx = false ->
  gather yv idx = Err IndexError.
Proof.
  induction idx as [|i idx IH]; simpl; intro H; [discriminate|].
  destruct (nth_error yv i) as [x|] eqn:E; [|reflexivity].
  assert (Hi : Nat.ltb i (length yv) = true).
  { apply Nat.ltb_lt. apply nth_error_Some. congruence. }
  rewrite Hi in H. simpl in H. now rewrite (IH H).
Qed.

Section BadOffset.

Variable altb_test : Qc -> Qc -> bool.
Variable agtb_test : Qc -> Qc -> bool.

(** X12: whenever a pass reads the voltage (the switching branch, and the
    impedance branch once a reference voltage is stored), a voltage
    offset that lies outside [dae.y] makes it fail with [IndexError]
    before it computes anything; the Jacobian pass does the same unless
    [forcepq] makes it return at once. *)
Theorem voltage_offset_out_of_range cfg self dae :
  forallb (fun i => Nat.ltb i (length (Dae.y dae))) (Pq.v self) = false ->
  (forcez cfg = true /\ truthy (Pq.v0 self) = true) \/
  (forcez cfg = false /\ forcepq cfg = false) ->
  gcall altb_test agtb_test cfg self dae = Err IndexError /\
  (forcepq cfg = false -> gycall cfg self dae = Err IndexError) /\
  (forcepq cfg = true -> gycall cfg self dae = Ok dae).
Proof.
  intros Hout Hcfg. split; [|split].
  - unfold gcall, gcall_k.
    destruct Hcfg as [[Fz T] | [Fz Fpq]].
    + rewrite Fz, T, (gather_out _ _ Hout). reflexivity.
    + rewrite Fz, Fpq, (gather_out _ _ Hout). reflexivity.
  - intro Fpq. unfold gycall, gycall_k. rewrite Fpq.
    destruct Hcfg as [[Fz T] | [Fz _]].
    + rewrite Fz, T, (gather_out _ _ Hout). reflexivity.
    + rewrite Fz, (gather_out _ _ Hout). reflexivity.
  - intro Fpq. unfold gycall. now rewrite Fpq.
Qed.

End BadOffset.

(** ** The further properties at concrete loads *)

Lemma contribution_at_limit_is_nominal_witness :
  exists self' dae',
    gcall strict_below strict_above cfg_switch (load1 (qc 1 2) (qc 1 4)) (bus1 (qc 9 10))
      = Ok (self', dae') /\
    at_ (Pq.p0 self') 0 = 1 * qc 1 2 /\
    at_ (Pq.q0 self') 0 = 1 * qc 1 4.
Proof.
  apply (contribution_at_limit_is_nominal strict_below strict_above
           strict_below_gt strict_above_lt
           cfg_switch (load1 (qc 1 2) (qc 1 4)) (bus1 (qc 9 10)) 0%nat);
    try reflexivity; try (simpl; lia); try (apply Qc_ltb_iff; reflexivity).
  left. reflexivity.
Defined.

Lemma switching_factor_bands_witness :
  exists self' dae' k,
    gcall strict_below strict_above cfg_switch (load1 (qc 1 2) (qc 1 4)) (bus1 (qc 8 10))
      = Ok (self', dae') /\
    at_ (Pq.p0 self') 0 = (1 * k) * qc 1 2 /\
    0 <= k /\ k < 1.
Proof.
  destruct (switching_factor_bands strict_below strict_above
              strict_below_lt strict_below_gt strict_above_gt strict_above_lt
              cfg_switch (load1 (qc 1 2) (qc 1 4)) (bus1 (qc 8 10)) 0%nat)
    as (self' & dae' & k & E & Ep & _ & K0 & Kb & _);
    [reflexivity | reflexivity | reflexivity | reflexivity | reflexivity
    | simpl; lia
    | apply Qc_ltb_iff; reflexivity
    | apply Qc_ltb_iff; reflexivity
    | apply Qc_leb_iff; reflexivity |].
  exists self', dae', k. split; [exact E|]. split; [exact Ep|].
  split; [exact K0|]. apply Kb. apply Qc_ltb_iff. reflexivity.
Defined.

Lemma forced_impedance_is_nominal_at_reference_witness :
  exists self1 self' dae',
    init1 (load1 (qc 1 2) (qc 1 4)) (bus1 (qc 8 10)) = Ok self1 /\
    gcall closed_below closed_above cfg_forcez self1 (bus1 (qc 8 10)) = Ok (self', dae') /\
    at_ (Pq.v0 self1) 0 = qc 8 10 /\
    at_ (Pq.p0 self') 0 = 1 * qc 1 2.
Proof.
  destruct (forced_impedance_is_nominal_at_reference closed_below closed_above
              cfg_forcez (load1 (qc 1 2) (qc 1 4)) (bus1 (qc 8 10)))
    as (self1 & self' & dae' & E1 & E & N & _);
    [reflexivity | reflexivity | reflexivity | |].
  - intros i Hi. simpl in Hi. assert (i = 0%nat) by lia. subst i.
    apply q2b_true. reflexivity.
  - exists self1, self', dae'. split; [exact E1|]. split; [exact E|].
    destruct (N 0%nat) as (V & P & _); [simpl; lia|]. split; assumption.
Defined.

Lemma second_call_adds_again_witness :
  exists self1 dae1 dae2,
    gcall closed_below closed_above cfg_switch (load1 (qc 1 2) (qc 1 4)) (bus1 1)
      = Ok (self1, dae1) /\
    gcall closed_below closed_above cfg_switch self1 dae1 = Ok (self1, dae2) /\
    forall o,
      nth o (Dae.g dae2) 0
        = nth o [0; 0] 0
          + (1 + 1) * (contrib o [0%nat] (Pq.p0 self1) + contrib o [1%nat] (Pq.q0 self1)).
Proof.
  apply (second_call_adds_again closed_below closed_above
           cfg_switch (load1 (qc 1 2) (qc 1 4)) (bus1 1)); reflexivity.
Defined.

Lemma accumulate_offsets_in_range_witness :
  accumulate 1 2 [0; 0] [5%nat] [1%nat] [1] [1] = Err IndexError /\
  accumulate 401 2 [0; 0] (repeat 5%nat 401) (repeat 1%nat 401)
             (repeat 1 401) (repeat 1 401) = Err ValueError.
Proof.
  split.
  - apply (proj2 (accumulate_offsets_in_range 1 2 [0; 0] [5%nat] [1%nat] [1] [1]
                    eq_refl eq_refl eq_refl eq_refl eq_refl)).
    reflexivity.
  - apply (proj2 (accumulate_offsets_in_range 401 2 [0; 0]
                    (repeat 5%nat 401) (repeat 1%nat 401) (repeat 1 401) (repeat 1 401)
                    eq_refl (repeat_length _ _) (repeat_length _ _)
                    (repeat_length _ _) (repeat_length _ _))).
    reflexivity.
Defined.

Lemma accumulate_order_independent_witness :
  exists g',
    accumulate 2 2 [0; 0] (col_a rows2) (col_v rows2) (col_p rows2) (col_q rows2) = Ok g' /\
    accumulate 2 2 [0; 0] (col_a (rev rows2)) (col_v (rev rows2))
               (col_p (rev rows2)) (col_q (rev rows2)) = Ok g'.
Proof.
  destruct (accumulate_order_independent 2 [0; 0] rows2 (rev rows2))
    as (g' & E1 & E2 & _).
  - reflexivity.
  - repeat constructor.
  - apply Permutation_rev.
  - exists g'. split; assumption.
Defined.

Lemma accumulate_conserves_total_witness :
  exists g',
    accumulate 2 2 [qc 1 2; 0] [0%nat; 0%nat] [1%nat; 1%nat] [qc 5 1; qc 3 1] [1; 0] = Ok g' /\
    vsum g' = vsum [qc 1 2; 0] + (vsum [qc 5 1; qc 3 1] + vsum [1; 0]).
Proof.
  destruct (accumulate_conserves_total 2 2 [qc 1 2; 0] [0%nat; 0%nat] [1%nat; 1%nat]
              [qc 5 1; qc 3 1] [1; 0])
    as (g' & E & _ & S); try reflexivity.
  - repeat constructor.
  - repeat constructor.
  - exists g'. split; assumption.
Defined.

Lemma declarations_agree_witness :
  exists self' dae',
    gcall strict_below strict_above cfg_switch (load1 (qc 1 2) (qc 1 4)) (bus1 (qc 11 10))
      = Ok (self', dae') /\
    PQNew_e 1 (qc 1 2) (qc 11 10) (qc 9 10) (qc 11 10) = Ok (at_ (Pq.p0 self') 0) /\
    PQNew_e 1 (qc 1 4) (qc 11 10) (qc 9 10) (qc 11 10) = Ok (at_ (Pq.q0 self') 0).
Proof.
  destruct (declarations_agree strict_below strict_above
              strict_below_lt strict_below_gt strict_above_gt strict_above_lt
              cfg_switch (load1 (qc 1 2) (qc 1 4)) (bus1 (qc 11 10)) 0%nat)
    as (self' & dae' & E & P & Q & _);
    [reflexivity | reflexivity | reflexivity | reflexivity | reflexivity
    | simpl; lia
    | apply Qc_ltb_iff; reflexivity |].
  exists self', dae'. split; [exact E|]. split; assumption.
Defined.

Lemma empty_model_is_inert_witness :
  exists self',
    gcall closed_below closed_above cfg_switch no_load (bus1 1) = Ok (self', bus1 1) /\
    gycall cfg_switch self' (bus1 1) = Ok (bus1 1).
Proof.
  destruct (empty_model_is_inert closed_below closed_above cfg_switch no_load (bus1 1))
    as (self' & E & Ey & _);
    [reflexivity | reflexivity | reflexivity | discriminate | split; reflexivity |].
  exists self'. split; assumption.
Defined.

Lemma init0_columns_kept_in_normal_band_witness :
  exists self0 self' dae',
    init0 (load1 (qc 1 2) (qc 1 4)) (bus1 1) = Ok self0 /\
    gcall strict_below strict_above cfg_switch self0 (bus1 1) = Ok (self', dae') /\
    Pq.p0 self' = Pq.p0 self0 /\ Pq.q0 self' = Pq.q0 self0.
Proof.
  destruct (init0_columns_kept_in_normal_band strict_below strict_above
              strict_below_gt strict_above_lt
              cfg_switch (load1 (qc 1 2) (qc 1 4)) (bus1 1))
    as (self0 & self' & dae' & E0 & _ & _ & E & P & Q);
    [reflexivity | reflexivity | reflexivity | reflexivity | reflexivity | |].
  - intros i Hi. simpl in Hi. assert (i = 0%nat) by lia. subst i.
    split; [reflexivity|]. split; apply Qc_ltb_iff; reflexivity.
  - exists self0, self', dae'. repeat split; assumption.
Defined.

Lemma short_offsets_dense_drops_sparse_refuses_witness :
  dense_loop [0; 0] (zip4 [0%nat] [1%nat] [1; qc 2 1] [qc 3 1; qc 4 1])
    = dense_loop [0; 0] (zip4 [0%nat] [1%nat] (firstn 1 [1; qc 2 1])
                              (firstn 1 [qc 3 1; qc 4 1])) /\
  length (zip4 [0%nat] [1%nat] [1; qc 2 1] [qc 3 1; qc 4 1]) = 1%nat /\
  sparse_accumulate 2 [0; 0] [0%nat] [1%nat] [1; qc 2 1] [qc 3 1; qc 4 1] 2
    = Err ValueError.
Proof.
  apply (short_offsets_dense_drops_sparse_refuses 2 1 2 [0; 0]
           [0%nat] [1%nat] [1; qc 2 1] [qc 3 1; qc 4 1]); try reflexivity.
  lia.
Defined.

Lemma voltage_offset_out_of_range_witness :
  gcall closed_below closed_above cfg_switch (load1 (qc 1 2) (qc 1 4)) short_iterate
    = Err IndexError /\
  (forcepq cfg_switch = false ->
     gycall cfg_switch (load1 (qc 1 2) (qc 1 4)) short_iterate = Err IndexError) /\
  (forcepq cfg_switch = true ->
     gycall cfg_switch (load1 (qc 1 2) (qc 1 4)) short_iterate = Ok short_iterate).
Proof.
  apply (voltage_offset_out_of_range closed_below closed_above
           cfg_switch (load1 (qc 1 2) (qc 1 4)) short_iterate).
  - reflexivity.
  - right. split; reflexivity.
Defined.

(** * The passes on floats *)

(** ** The float passes extend the rational ones *)

Lemma map2_inj (f : Qc -> Qc -> Qc) (a b : vec) :
  map2 (xlift f) (inj a) (inj b) = inj (map2 f a b).
Proof.
  revert b. induction a as [|x a IH]; intros [|y b]; simpl; try reflexivity.
  now rewrite IH.
Qed.

Lemma inj_length (a : vec) : length (inj a) = length a.
Proof. apply length_map. Qed.

Lemma xew_inj f (a b : vec) : xew f (inj a) (inj b) = rmap inj (ew f a b).
Proof.
  unfold xew, ew. rewrite !inj_length.
  destruct (Nat.eqb (length a) (length b)); simpl; [|reflexivity].
  now rewrite map2_inj.
Qed.

Lemma map2_xquot (a b : vec) :
  forallb q2b b = true -> map2 xquot a b = inj (map2 Qcdiv a b).
Proof.
  revert b. induction a as [|x a IH]; intros [|y b] H; simpl in *; try reflexivity.
  apply andb_true_iff in H. destruct H as [Hy Hb].
  unfold xquot at 1. rewrite Hy, (IH b Hb). reflexivity.
Qed.

Lemma xdiv_inj (r : bool) (a b : vec) :
  r = true \/ forallb q2b b = true -> xdiv r a b = rmap inj (div a b).
Proof.
  intro H. unfold xdiv, div.
  destruct (Nat.eqb (length a) (length b)); [|reflexivity].
  destruct (forallb q2b b) eqn:N.
  - rewrite andb_false_r. simpl. now rewrite map2_xquot.
  - destruct H as [-> | H]; [reflexivity | discriminate].
Qed.

Lemma upd_inj (g : vec) i z : upd (inj g) i (Fin z) = inj (upd g i z).
Proof.
  revert i. induction g as [|h t IH]; intros [|i]; simpl; try reflexivity.
  unfold inj in IH. now rewrite IH.
Qed.

Lemma xadd_at_inj (g : vec) i x : xadd_at (inj g) i (Fin x) = rmap inj (add_at g i x).
Proof.
  unfold xadd_at, add_at, inj. rewrite nth_error_map.
  destruct (nth_error g i) as [z|]; simpl; [|reflexivity].
  f_equal. apply upd_inj.
Qed.

Lemma xdense_loop_inj la : forall lv lp lq g,
  xdense_loop (inj g) (xzip4 la lv (inj lp) (inj lq))
    = rmap inj (dense_loop g (zip4 la lv lp lq)).
Proof.
  induction la as [|ia la IH]; intros [|iv lv] [|cp lp] [|cq lq] g; simpl;
    try reflexivity.
  rewrite xadd_at_inj. destruct (add_at g ia cp) as [g1|]; simpl; [|reflexivity].
  rewrite xadd_at_inj. destruct (add_at g1 iv cq) as [g2|]; simpl; [|reflexivity].
  apply IH.
Qed.

Lemma xcoo_fold_inj row : forall data B,
  fold_left (fun B rx => upd B (fst rx) (xlift Qcplus (nth (fst rx) B (Fin 0)) (snd rx)))
            (combine row (inj data)) (inj B)
    = inj (fold_left (fun B rx => upd B (fst rx) (nth (fst rx) B 0 + snd rx))
             (combine row data) B).
Proof.
  induction row as [|r row IH]; intros [|x data] B; simpl; try reflexivity.
  replace (nth r (inj B) (Fin 0)) with (Fin (nth r B 0))
    by (symmetry; apply (map_nth Fin)).
  cbn [xlift]. rewrite upd_inj. apply IH.
Qed.

Lemma xcoo_toarray_inj k (data : vec) row cnt :
  xcoo_toarray k (inj data) row cnt = rmap inj (coo_toarray k data row cnt).
Proof.
  unfold xcoo_toarray, coo_toarray. rewrite inj_length.
  destruct (_ && _); [|reflexivity].
  destruct (forallb _ row); [|reflexivity].
  simpl. f_equal. apply xcoo_fold_inj.
Qed.

Lemma xaccumulate_inj cnt k (g : vec) la lv (lp lq : vec) :
  xaccumulate cnt k (inj g) la lv (inj lp) (inj lq)
    = rmap inj (accumulate cnt k g la lv lp lq).
Proof.
  unfold xaccumulate, accumulate. destruct (Nat.leb cnt 400).
  - apply xdense_loop_inj.
  - unfold xsparse_accumulate, sparse_accumulate, xvadd, vadd.
    rewrite !xcoo_toarray_inj.
    destruct (coo_toarray k lp la cnt) as [P0|]; simpl; [|reflexivity].
    destruct (coo_toarray k lq lv cnt) as [Q0|]; simpl; [|reflexivity].
    rewrite xew_inj. destruct (ew Qcplus g P0) as [g1|]; simpl; [|reflexivity].
    apply xew_inj.
Qed.

Section Agreement.

Variable raises_on_zero : bool.
Variable altb_test : Qc -> Qc -> bool.
Variable agtb_test : Qc -> Qc -> bool.

Lemma gcall_k_x_agrees cfg self y :
  raises_on_zero = true \/ divides_g cfg self = true ->
  forall dae, Dae.y dae = y ->
  gcall_k_x raises_on_zero altb_test agtb_test cfg self y
    = rmap (fun sk => (Pq.below (fst sk), Pq.above (fst sk), inj (snd sk)))
           (gcall_k altb_test agtb_test cfg self dae).
Proof.
  intros H dae <-. unfold gcall_k_x, gcall_k, divides_g in *.
  destruct (forcez cfg); [destruct (truthy (Pq.v0 self))
                         | destruct (forcepq cfg)]; try reflexivity.
  - destruct (gather (Dae.y dae) (Pq.v self)) as [yv|]; cbn [bind rmap];
      [|reflexivity].
    rewrite xdiv_inj.
    + destruct (div _ _); reflexivity.
    + destruct H as [H|H]; [now left | right].
      apply andb_true_iff in H. apply vsq_nonzero, H.
  - assert (Nz : raises_on_zero = true \/
                 (forallb q2b (vsq (Pq.vmin self)) = true /\
                  forallb q2b (vsq (Pq.vmax self)) = true)).
    { destruct H as [H|H]; [now left | right].
      apply andb_true_iff in H. split; apply vsq_nonzero, H. }
    unfold xmul, xvadd, mul, vadd.
    destruct (gather (Dae.y dae) (Pq.v self)) as [yv|]; cbn [bind rmap];
      [|reflexivity].
    destruct (altb altb_test yv (Pq.vmin self)) as [bl|]; cbn [bind rmap];
      [|reflexivity].
    rewrite xdiv_inj by tauto.
    destruct (div (vsq yv) (vsq (Pq.vmin self))) as [d1|]; cbn [bind rmap];
      [|reflexivity].
    rewrite xew_inj. destruct (ew Qcmult bl d1) as [t1|]; cbn [bind rmap];
      [|reflexivity].
    rewrite xew_inj. destruct (ew Qcplus (zeros (Pq.n self)) t1) as [k1|];
      cbn [bind rmap]; [|reflexivity].
    destruct (agtb agtb_test yv (Pq.vmax self)) as [ab|]; cbn [bind rmap];
      [|reflexivity].
    rewrite xdiv_inj by tauto.
    destruct (div (vsq yv) (vsq (Pq.vmax self))) as [d2|]; cbn [bind rmap];
      [|reflexivity].
    rewrite xew_inj. destruct (ew Qcmult ab d2) as [t2|]; cbn [bind rmap];
      [|reflexivity].
    rewrite xew_inj. destruct (ew Qcplus k1 t2) as [k2|]; cbn [bind rmap];
      [|reflexivity].
    destruct (aorb bl ab) as [bo|]; cbn [bind rmap]; [|reflexivity].
    rewrite xew_inj. destruct (ew Qcmult (nota bo) (ones (Pq.n self))) as [t3|];
      cbn [bind rmap]; [|reflexivity].
    rewrite xew_inj. destruct (ew Qcplus k2 t3) as [k3|]; reflexivity.
Qed.

(** Wherever the rational pass is defined (no zero divisor in the branch
    the configuration selects), and everywhere if the library raises on
    a zero divisor, [gcall] on floats is [gcall] on rationals: same
    failure, or the same columns and the same residual. *)
Lemma gcall_x_agrees cfg self dae :
  raises_on_zero = true \/ divides_g cfg self = true ->
  gcall_x raises_on_zero altb_test agtb_test cfg self
          (Dae.y dae) (Dae.m dae) (inj (Dae.g dae))
    = rmap written_of (gcall altb_test agtb_test cfg self dae).
Proof.
  intro H. unfold gcall_x, gcall.
  rewrite (gcall_k_x_agrees cfg self (Dae.y dae) H dae eq_refl).
  assert (F : forall s, gcall_k altb_test agtb_test cfg self dae = Ok s ->
                Pq.n (fst s) = Pq.n self /\ Pq.u (fst s) = Pq.u self /\
                Pq.p (fst s) = Pq.p self /\ Pq.q (fst s) = Pq.q self /\
                Pq.a (fst s) = Pq.a self /\ Pq.v (fst s) = Pq.v self).
  { intros s E. unfold gcall_k in E.
    destruct (forcez cfg); [destruct (truthy (Pq.v0 self))|destruct (forcepq cfg)].
    - destruct (gather _ _); cbn [bind] in E; [|discriminate].
      destruct (div _ _); cbn [bind] in E; [|discriminate].
      injection E as <-. repeat split.
    - injection E as <-. repeat split.
    - injection E as <-. repeat split.
    - repeat match type of E with
             | bind ?r _ = _ => destruct r; cbn [bind] in E; [|discriminate]
             end.
      injection E as <-. repeat split. }
  destruct (gcall_k altb_test agtb_test cfg self dae) as [[self1 k]|] eqn:Ek;
    cbn [bind rmap fst snd]; [|reflexivity].
  destruct (F _ eq_refl) as (Fn & Fu & Fp & Fq & Fa & Fv). cbn [fst] in *.
  rewrite Fn, Fu, Fp, Fq, Fa, Fv.
  unfold xmul, mul.
  rewrite xew_inj. destruct (ew Qcmult (Pq.u self) k) as [k'|]; cbn [bind rmap];
    [|reflexivity].
  rewrite xew_inj. destruct (ew Qcmult k' (Pq.p self)) as [np0|]; cbn [bind rmap];
    [|reflexivity].
  rewrite xew_inj. destruct (ew Qcmult k' (Pq.q self)) as [nq0|]; cbn [bind rmap];
    [|reflexivity].
  rewrite xaccumulate_inj.
  destruct (accumulate _ _ _ _ _ _ _) as [ng|]; reflexivity.
Qed.

End Agreement.

(** ** A zero divisor when the library returns the IEEE quotient *)

Lemma xlift_nf_r f s : xlift f s NonFinite = NonFinite.
Proof. now destruct s. Qed.

Lemma xew_ok f (a b : xvec) :
  length a = length b -> xew f a b = Ok (map2 (xlift f) a b).
Proof. intro H. unfold xew. now rewrite H, Nat.eqb_refl. Qed.

Lemma xdiv_false_ok (a b : vec) :
  length a = length b -> xdiv false a b = Ok (map2 xquot a b).
Proof. intro H. unfold xdiv. now rewrite H, Nat.eqb_refl. Qed.

Lemma xquot_zero x d : d = 0 -> xquot x (sq d) = NonFinite.
Proof. intros ->. reflexivity. Qed.

Ltac xlen := unfold inj in *; len.

Lemma xnth_default (l : xvec) i : (length l <= i)%nat -> nth i l (Fin 0) = Fin 0.
Proof. intro H. now apply nth_overflow. Qed.

Lemma xadd_at_spec (g : xvec) i x :
  (i < length g)%nat ->
  exists g1, xadd_at g i x = Ok g1 /\ length g1 = length g /\
    forall o, nth o g1 (Fin 0)
              = if Nat.eqb i o then xlift Qcplus (nth o g (Fin 0)) x else nth o g (Fin 0).
Proof.
  intro H. unfold xadd_at.
  destruct (nth_error g i) as [z|] eqn:E.
  - eexists. split; [reflexivity|]. split; [apply upd_length|].
    intro o. rewrite upd_nth by exact H.
    destruct (Nat.eqb i o) eqn:Eo; [|reflexivity].
    apply Nat.eqb_eq in Eo. subst o. now rewrite (nth_error_nth _ _ (Fin 0) E).
  - apply nth_error_None in E. lia.
Qed.

(** The dense loop on floats returns, and a non-finite value stays
    where it is and gets where it is added. *)
Lemma xdense_loop_taint la : forall lv lp lq g,
  length la = length lv -> length la = length lp -> length la = length lq ->
  Forall (fun i => (i < length g)%nat) la -> Forall (fun i => (i < length g)%nat) lv ->
  exists g', xdense_loop g (xzip4 la lv lp lq) = Ok g' /\ length g' = length g /\
    (forall o, nth o g (Fin 0) = NonFinite -> nth o g' (Fin 0) = NonFinite) /\
    (forall i, (i < length la)%nat ->
       (nth i lp (Fin 0) = NonFinite -> nth (nth i la 0%nat) g' (Fin 0) = NonFinite) /\
       (nth i lq (Fin 0) = NonFinite -> nth (nth i lv 0%nat) g' (Fin 0) = NonFinite)).
Proof.
  induction la as [|ia la IH]; intros [|iv lv] [|cp lp] [|cq lq] g L1 L2 L3 Ra Rv;
    simpl in *; try discriminate.
  - exists g. repeat split; auto; lia.
  - inversion Ra as [|? ? Ha Ra']; inversion Rv as [|? ? Hv Rv']; subst.
    destruct (xadd_at_spec g ia cp Ha) as (g1 & E1 & Lg1 & N1).
    rewrite E1. cbn [bind].
    destruct (xadd_at_spec g1 iv cq) as (g2 & E2 & Lg2 & N2); [lia|].
    rewrite E2. cbn [bind].
    assert (Keep : forall o, nth o g (Fin 0) = NonFinite -> nth o g2 (Fin 0) = NonFinite).
    { intros o Ho. rewrite N2, N1, Ho.
      destruct (Nat.eqb ia o), (Nat.eqb iv o); reflexivity. }
    destruct (IH lv lp lq g2) as (g' & E & Lg' & K & T); try congruence;
      try (rewrite Lg2, Lg1; assumption).
    exists g'. split; [exact E|]. split; [congruence|]. split.
    + intros o Ho. apply K, Keep, Ho.
    + intros [|i] Hi.
      * split; intro Hnf; simpl in Hnf; subst; apply K.
        -- rewrite N2, N1, Nat.eqb_refl, xlift_nf_r.
           destruct (Nat.eqb iv ia); reflexivity.
        -- rewrite N2, Nat.eqb_refl. apply xlift_nf_r.
      * apply T. lia.
Qed.

Lemma xcoo_fold_taint row : forall data B,
  length row = length data ->
  Forall (fun i => (i < length B)%nat) row ->
  let B' := fold_left (fun B rx => upd B (fst rx)
                                     (xlift Qcplus (nth (fst rx) B (Fin 0)) (snd rx)))
              (combine row data) B in
  length B' = length B /\
  (forall o, nth o B (Fin 0) = NonFinite -> nth o B' (Fin 0) = NonFinite) /\
  (forall i, (i < length row)%nat -> nth i data (Fin 0) = NonFinite ->
             nth (nth i row 0%nat) B' (Fin 0) = NonFinite).
Proof.
  induction row as [|r row IH]; intros [|x data] B L H; simpl in *; try discriminate.
  - repeat split; auto; lia.
  - inversion H as [|? ? Hr Hrest]; subst.
    set (B1 := upd B r (xlift Qcplus (nth r B (Fin 0)) x)).
    assert (L1 : length B1 = length B) by apply upd_length.
    assert (N1 : forall o, nth o B1 (Fin 0)
                   = if Nat.eqb r o then xlift Qcplus (nth r B (Fin 0)) x
                     else nth o B (Fin 0)).
    { intro o. unfold B1. now rewrite upd_nth by exact Hr. }
    destruct (IH data B1) as (L' & K & T); [congruence | rewrite L1; assumption|].
    split; [congruence|]. split.
    + intros o Ho. apply K. rewrite N1.
      destruct (Nat.eqb r o) eqn:E; [|exact Ho].
      apply Nat.eqb_eq in E. subst o. now rewrite Ho.
    + intros [|i] Hi Hnf; simpl in *.
      * subst x. apply K. rewrite N1, Nat.eqb_refl. apply xlift_nf_r.
      * apply T; [lia | exact Hnf].
Qed.

Lemma xvadd_spec (a b : xvec) :
  length a = length b ->
  exists c, xvadd a b = Ok c /\ length c = length a /\
    forall o, (o < length a)%nat ->
              nth o c (Fin 0) = xlift Qcplus (nth o a (Fin 0)) (nth o b (Fin 0)).
Proof.
  intro H. unfold xvadd. rewrite (xew_ok _ _ _ H).
  eexists. split; [reflexivity|]. split; [rewrite map2_length_min; lia|].
  intros o Ho. apply map2_nth; lia.
Qed.

(** The accumulation step on floats returns on well-sized columns, on
    either path, and the residual entries a non-finite contribution is
    aimed at are non-finite afterwards. *)
Lemma xaccumulate_taint cnt k (g : xvec) la lv (lp lq : xvec) :
  length g = k ->
  length la = cnt -> length lv = cnt -> length lp = cnt -> length lq = cnt ->
  Forall (fun i => (i < k)%nat) la -> Forall (fun i => (i < k)%nat) lv ->
  exists g', xaccumulate cnt k g la lv lp lq = Ok g' /\ length g' = k /\
    forall i, (i < cnt)%nat ->
      (nth i lp (Fin 0) = NonFinite -> nth (nth i la 0%nat) g' (Fin 0) = NonFinite) /\
      (nth i lq (Fin 0) = NonFinite -> nth (nth i lv 0%nat) g' (Fin 0) = NonFinite).
Proof.
  intros Hg Ha Hv Hp Hq Ra Rv. unfold xaccumulate.
  destruct (Nat.leb cnt 400).
  - destruct (xdense_loop_taint la lv lp lq g) as (g' & E & L & _ & T);
      try congruence; try (rewrite Hg; assumption).
    exists g'. split; [exact E|]. split; [congruence|].
    intros i Hi. apply T. lia.
  - unfold xsparse_accumulate, xcoo_toarray.
    rewrite Hp, Hq, Ha, Hv, Nat.eqb_refl. cbn [andb].
    rewrite (proj2 (forallb_ltb_Forall k la) Ra), (proj2 (forallb_ltb_Forall k lv) Rv).
    cbn [bind].
    assert (Lz : length (inj (zeros k)) = k) by xlen.
    destruct (xcoo_fold_taint la lp (inj (zeros k))) as (LP & _ & TP);
      [congruence | rewrite Lz; exact Ra|].
    destruct (xcoo_fold_taint lv lq (inj (zeros k))) as (LQ & _ & TQ);
      [congruence | rewrite Lz; exact Rv|].
    cbv zeta in LP, TP, LQ, TQ.
    match goal with
    | |- context [xvadd g ?P] => set (P0 := P) in *
    end.
    destruct (xvadd_spec g P0) as (g1 & E1 & L1 & N1); [congruence|].
    rewrite E1. cbn [bind].
    match goal with
    | |- context [xvadd g1 ?Q] => set (Q0 := Q) in *
    end.
    destruct (xvadd_spec g1 Q0) as (g2 & E2 & L2 & N2); [congruence|].
    exists g2. split; [exact E2|]. split; [congruence|].
    assert (InA : forall i, (i < cnt)%nat -> (nth i la 0%nat < k)%nat).
    { intros i Hi. rewrite Forall_forall in Ra. apply Ra, nth_In. lia. }
    assert (InV : forall i, (i < cnt)%nat -> (nth i lv 0%nat < k)%nat).
    { intros i Hi. rewrite Forall_forall in Rv. apply Rv, nth_In. lia. }
    intros i Hi. split; intro Hnf.
    + rewrite N2 by (rewrite L1, Hg; now apply InA).
      rewrite N1 by (rewrite Hg; now apply InA).
      rewrite (TP i) by (try lia; exact Hnf).
      now rewrite xlift_nf_r.
    + rewrite N2 by (rewrite L1, Hg; now apply InV).
      rewrite (TQ i) by (try lia; exact Hnf).
      apply xlift_nf_r.
Qed.

Lemma zero_at_nonzero_false l i :
  (i < length l)%nat -> Qc_eqb (at_ l i) 0 = true -> nonzero l = false.
Proof.
  intros Hi E. destruct (nonzero l) eqn:N; [|reflexivity].
  pose proof (nonzero_at l i N Hi) as Nz. apply Qc_eqb_iff in E. contradiction.
Qed.

Section ZeroDivisor.

Variable altb_test : Qc -> Qc -> bool.
Variable agtb_test : Qc -> Qc -> bool.

(** With the IEEE quotient the factor is computed in every branch, and
    it is non-finite for an instance with a zero divisor. *)
Lemma gcall_k_x_false cfg self y :
  sized self = true ->
  forallb (fun i => Nat.ltb i (length y)) (Pq.v self) = true ->
  (forcez cfg = true -> truthy (Pq.v0 self) = true ->
   length (Pq.v0 self) = Pq.n self) ->
  exists bl ab k,
    gcall_k_x false altb_test agtb_test cfg self y = Ok (bl, ab, k) /\
    length k = Pq.n self /\
    forall i, (i < Pq.n self)%nat -> zero_divisor_at cfg self i = true ->
              nth i k (Fin 0) = NonFinite.
Proof.
  intros Hs Ry L0.
  destruct (sized_elim self Hs) as (Lu & Lp & Lq & Lmin & Lmax & La & Lv).
  unfold gcall_k_x, zero_divisor_at.
  destruct (forcez cfg) eqn:Fz; [destruct (truthy (Pq.v0 self)) eqn:T
                                | destruct (forcepq cfg) eqn:Fpq].
  - specialize (L0 eq_refl eq_refl).
    rewrite (gather_ok _ _ Ry). cbn [bind].
    rewrite xdiv_false_ok by len. cbn [bind].
    eexists _, _, _. split; [reflexivity|]. split; [len|].
    intros i Hi Z. simpl in Z. apply Qc_eqb_iff in Z.
    rewrite (map2_nth _ _ _ _ 0 0) by len.
    unfold vsq. rewrite !(map_nth_in _ _ _ 0 0) by len.
    apply xquot_zero. exact Z.
  - eexists _, _, _. split; [reflexivity|]. split; [xlen|].
    intros i Hi Z. discriminate Z.
  - eexists _, _, _. split; [reflexivity|]. split; [xlen|].
    intros i Hi Z. discriminate Z.
  - rewrite (gather_ok _ _ Ry). cbn [bind].
    set (yv := map (fun i => nth i y 0) (Pq.v self)).
    assert (Lyv : length yv = Pq.n self) by (unfold yv; rewrite length_map; exact Lv).
    unfold altb, agtb, aorb, xmul, xvadd.
    rewrite ew_ok by len. cbn [bind].
    set (bl := map2 (fun s t => b2q (altb_test s t)) yv (Pq.vmin self)).
    assert (Lbl : length bl = Pq.n self) by (unfold bl; len).
    rewrite xdiv_false_ok by len. cbn [bind].
    rewrite xew_ok by xlen. cbn [bind].
    rewrite xew_ok by xlen. cbn [bind].
    rewrite ew_ok by len. cbn [bind].
    set (ab := map2 (fun s t => b2q (agtb_test s t)) yv (Pq.vmax self)).
    assert (Lab : length ab = Pq.n self) by (unfold ab; len).
    rewrite xdiv_false_ok by len. cbn [bind].
    rewrite xew_ok by xlen. cbn [bind].
    rewrite xew_ok by xlen. cbn [bind].
    rewrite ew_ok by len. cbn [bind].
    rewrite xew_ok by xlen. cbn [bind].
    rewrite xew_ok by xlen. cbn [bind].
    eexists _, _, _. split; [reflexivity|]. split; [xlen|].
    intros i Hi Z.
    repeat (rewrite (map2_nth _ _ _ _ (Fin 0) (Fin 0) (Fin 0)) by xlen).
    rewrite !(map2_nth xquot _ _ _ 0 0) by len.
    unfold vsq. rewrite !(map_nth_in sq _ _ 0 0) by len.
    apply orb_true_iff in Z. destruct Z as [Z|Z]; apply Qc_eqb_iff in Z;
      unfold at_ in Z; rewrite Z.
    + replace (xquot (sq (nth i yv 0)) (sq 0)) with NonFinite by reflexivity.
      rewrite !xlift_nf_r. reflexivity.
    + replace (xquot (sq (nth i yv 0)) (sq 0)) with NonFinite by reflexivity.
      rewrite !xlift_nf_r. reflexivity.
Qed.

(** The rational pass stops at a zero divisor. *)
Lemma gcall_zero_divisor_rational cfg self dae i :
  sized self = true -> addressed self dae = true ->
  (forcez cfg = true -> truthy (Pq.v0 self) = true ->
   length (Pq.v0 self) = Pq.n self) ->
  (i < Pq.n self)%nat -> zero_divisor_at cfg self i = true ->
  gcall altb_test agtb_test cfg self dae = Err ArithmeticFailure.
Proof.
  intros Hs Ha L0 Hi Z.
  destruct (sized_elim self Hs) as (Lu & Lp & Lq & Lmin & Lmax & La & Lv).
  destruct (addressed_elim self dae Ha) as (Lg & Ry & Ra & Rv).
  assert (D : forall num den, length num = Pq.n self -> length den = Pq.n self ->
                nonzero den = false -> div num (vsq den) = Err ArithmeticFailure).
  { intros num den Ln Ld N0. unfold div.
    replace (Nat.eqb (length num) (length (vsq den))) with true
      by (symmetry; apply Nat.eqb_eq; len).
    fold (nonzero (vsq den)). now rewrite nonzero_vsq, N0. }
  unfold zero_divisor_at in Z. unfold gcall, gcall_k.
  destruct (forcez cfg) eqn:Fz; [|destruct (forcepq cfg) eqn:Fpq]; try discriminate.
  - apply andb_true_iff in Z. destruct Z as [T Z]. rewrite T.
    specialize (L0 eq_refl T).
    rewrite (gather_ok _ _ Ry). cbn [bind].
    rewrite D; [reflexivity | len | exact L0 |].
    apply (zero_at_nonzero_false _ i); [lia | exact Z].
  - rewrite (gather_ok _ _ Ry). cbn [bind].
    unfold altb, agtb, mul, vadd. rewrite ew_ok by len. cbn [bind].
    destruct (nonzero (Pq.vmin self)) eqn:Nmin.
    + assert (Nmax : nonzero (Pq.vmax self) = false).
      { apply orb_true_iff in Z. destruct Z as [Z|Z].
        - rewrite (zero_at_nonzero_false _ i) in Nmin; [discriminate | lia | exact Z].
        - apply (zero_at_nonzero_false _ i); [lia | exact Z]. }
      rewrite div_ok by (try apply vsq_nonzero; try assumption; len). cbn [bind].
      rewrite ew_ok by len. cbn [bind].
      rewrite ew_ok by len. cbn [bind].
      rewrite ew_ok by len. cbn [bind].
      rewrite D by (assumption || len). reflexivity.
    + rewrite D by (assumption || len). reflexivity.
Qed.

End ZeroDivisor.

Lemma gycall_k_x_false cfg self y :
  sized self = true ->
  forallb (fun i => Nat.ltb i (length y)) (Pq.v self) = true ->
  (forcez cfg = true -> truthy (Pq.v0 self) = true ->
   length (Pq.v0 self) = Pq.n self) ->
  (forcez cfg = false ->
   length (Pq.below self) = Pq.n self /\ length (Pq.above self) = Pq.n self) ->
  forcepq cfg = false ->
  exists k,
    gycall_k_x false cfg self y = Ok k /\ length k = Pq.n self /\
    forall i, (i < Pq.n self)%nat -> zero_divisor_at cfg self i = true ->
              nth i k (Fin 0) = NonFinite.
Proof.
  intros Hs Ry L0 Lind Fpq.
  destruct (sized_elim self Hs) as (Lu & Lp & Lq & Lmin & Lmax & La & Lv).
  unfold gycall_k_x, zero_divisor_at. rewrite Fpq.
  destruct (forcez cfg) eqn:Fz; [destruct (truthy (Pq.v0 self)) eqn:T|].
  - specialize (L0 eq_refl eq_refl).
    rewrite (gather_ok _ _ Ry). cbn [bind].
    rewrite xdiv_false_ok by len.
    eexists. split; [reflexivity|]. split; [len|].
    intros i Hi Z. simpl in Z. apply Qc_eqb_iff in Z.
    rewrite (map2_nth _ _ _ _ 0 0) by len.
    unfold vsq at 1. rewrite (map_nth_in sq _ _ 0 0) by len.
    apply xquot_zero. exact Z.
  - eexists. split; [reflexivity|]. split; [xlen|].
    intros i Hi Z. discriminate Z.
  - destruct (Lind eq_refl) as [Lb Lab].
    rewrite (gather_ok _ _ Ry). cbn [bind].
    set (yv := map (fun i => nth i y 0) (Pq.v self)).
    assert (Lyv : length yv = Pq.n self) by (unfold yv; rewrite length_map; exact Lv).
    unfold xmul, xvadd.
    rewrite xdiv_false_ok by len. cbn [bind].
    rewrite xew_ok by xlen. cbn [bind].
    rewrite xew_ok by xlen. cbn [bind].
    rewrite xdiv_false_ok by len. cbn [bind].
    rewrite xew_ok by xlen. cbn [bind].
    rewrite xew_ok by xlen.
    eexists. split; [reflexivity|]. split; [xlen|].
    intros i Hi Z.
    repeat (rewrite (map2_nth _ _ _ _ (Fin 0) (Fin 0) (Fin 0)) by xlen).
    rewrite !(map2_nth xquot _ _ _ 0 0) by len.
    unfold vsq. rewrite !(map_nth_in sq _ _ 0 0) by len.
    apply orb_true_iff in Z. destruct Z as [Z|Z]; apply Qc_eqb_iff in Z;
      unfold at_ in Z; rewrite Z.
    + replace (xquot (nth i (vdouble yv) 0) (sq 0)) with NonFinite by reflexivity.
      rewrite !xlift_nf_r. reflexivity.
    + replace (xquot (nth i (vdouble yv) 0) (sq 0)) with NonFinite by reflexivity.
      rewrite !xlift_nf_r. reflexivity.
Qed.

Lemma gycall_x_true_zero cfg self y J i :
  sized self = true ->
  forallb (fun i => Nat.ltb i (length y)) (Pq.v self) = true ->
  (forcez cfg = true -> truthy (Pq.v0 self) = true ->
   length (Pq.v0 self) = Pq.n self) ->
  (forcez cfg = false ->
   length (Pq.below self) = Pq.n self /\ length (Pq.above self) = Pq.n self) ->
  forcepq cfg = false ->
  (i < Pq.n self)%nat -> zero_divisor_at cfg self i = true ->
  gycall_x true cfg self y J = Err ArithmeticFailure.
Proof.
  intros Hs Ry L0 Lind Fpq Hi Z.
  destruct (sized_elim self Hs) as (Lu & Lp & Lq & Lmin & Lmax & La & Lv).
  assert (D : forall num den, length num = Pq.n self -> length den = Pq.n self ->
                nonzero den = false -> xdiv true num (vsq den) = Err ArithmeticFailure).
  { intros num den Ln Ld N0. unfold xdiv.
    replace (Nat.eqb (length num) (length (vsq den))) with true
      by (symmetry; apply Nat.eqb_eq; len).
    fold (nonzero (vsq den)). now rewrite nonzero_vsq, N0. }
  assert (Dok : forall num den, length num = Pq.n self -> length den = Pq.n self ->
                  nonzero den = true -> xdiv true num (vsq den) = Ok (map2 xquot num (vsq den))).
  { intros num den Ln Ld N0. unfold xdiv.
    replace (Nat.eqb (length num) (length (vsq den))) with true
      by (symmetry; apply Nat.eqb_eq; len).
    fold (nonzero (vsq den)). now rewrite nonzero_vsq, N0. }
  unfold zero_divisor_at in Z. rewrite Fpq in Z.
  unfold gycall_x, gycall_k_x. rewrite Fpq.
  destruct (forcez cfg) eqn:Fz.
  - apply andb_true_iff in Z. destruct Z as [T Z]. rewrite T.
    specialize (L0 eq_refl T).
    rewrite (gather_ok _ _ Ry). cbn [bind].
    rewrite D; [reflexivity | len | exact L0 |].
    apply (zero_at_nonzero_false _ i); [lia | exact Z].
  - destruct (Lind eq_refl) as [Lb Lab].
    rewrite (gather_ok _ _ Ry). cbn [bind].
    destruct (nonzero (Pq.vmin self)) eqn:Nmin.
    + assert (Nmax : nonzero (Pq.vmax self) = false).
      { apply orb_true_iff in Z. destruct Z as [Z|Z].
        - rewrite (zero_at_nonzero_false _ i) in Nmin; [discriminate | lia | exact Z].
        - apply (zero_at_nonzero_false _ i); [lia | exact Z]. }
      rewrite Dok by (assumption || len). cbn [bind].
      unfold xmul, xvadd.
      rewrite xew_ok by xlen. cbn [bind].
      rewrite xew_ok by xlen. cbn [bind].
      rewrite D by (assumption || len). reflexivity.
    + rewrite D by (assumption || len). reflexivity.
Qed.

Lemma inj_nth (x : vec) i : nth i (inj x) (Fin 0) = Fin (at_ x i).
Proof. unfold inj, at_. apply (map_nth Fin). Qed.

Lemma lib_xew f x y : ~ raises_numeric_failure (xew f x y).
Proof.
  unfold xew. destruct (Nat.eqb _ _); [apply lib_ok | apply lib_err; discriminate].
Qed.

Lemma lib_xdiv r x y : ~ raises_numeric_failure (xdiv r x y).
Proof.
  unfold xdiv. destruct (Nat.eqb _ _); [destruct (_ && _)|];
    try apply lib_ok; apply lib_err; discriminate.
Qed.

Lemma lib_xadd_at gv i x : ~ raises_numeric_failure (xadd_at gv i x).
Proof.
  unfold xadd_at. destruct (nth_error gv i); [apply lib_ok | apply lib_err; discriminate].
Qed.

Lemma lib_xdense_loop rows : forall gv, ~ raises_numeric_failure (xdense_loop gv rows).
Proof.
  induction rows as [|[[[ia iv] cp] cq] rest IH]; intro gv; simpl; [apply lib_ok|].
  apply lib_bind; [apply lib_xadd_at | intro g1].
  apply lib_bind; [apply lib_xadd_at | intro g2]. apply IH.
Qed.

Lemma lib_xcoo k data row cnt : ~ raises_numeric_failure (xcoo_toarray k data row cnt).
Proof.
  unfold xcoo_toarray. destruct (_ && _); [destruct (forallb _ _)|];
    try apply lib_ok; apply lib_err; discriminate.
Qed.

Lemma lib_xaccumulate cnt k gv la lv lp lq :
  ~ raises_numeric_failure (xaccumulate cnt k gv la lv lp lq).
Proof.
  unfold xaccumulate. destruct (Nat.leb cnt 400); [apply lib_xdense_loop|].
  unfold xsparse_accumulate, xvadd.
  repeat (apply lib_bind; [first [apply lib_xcoo | apply lib_xew] | intro]).
  apply lib_xew.
Qed.

Lemma lib_xadd_jac J val row col : ~ raises_numeric_failure (xadd_jac J val row col).
Proof.
  unfold xadd_jac. destruct (_ && _); [apply lib_ok | apply lib_err; discriminate].
Qed.

Ltac xlib_step :=
  first [ apply lib_ok | apply lib_ew | apply lib_xew | apply lib_xdiv | apply lib_gather
        | apply lib_xaccumulate | apply lib_xadd_jac
        | apply lib_bind; [|intro] ].

Lemma gcall_x_never_numeric_failure r altb_test agtb_test cfg self y m gx :
  ~ raises_numeric_failure (gcall_x r altb_test agtb_test cfg self y m gx).
Proof.
  unfold gcall_x. apply lib_bind.
  - unfold gcall_k_x, altb, agtb, aorb, xmul, xvadd.
    destruct (forcez cfg); [destruct (truthy _)|destruct (forcepq cfg)];
      repeat xlib_step.
  - intros [[bl ab] k]. unfold xmul. repeat xlib_step.
Qed.

Lemma gycall_x_never_numeric_failure r cfg self y J :
  ~ raises_numeric_failure (gycall_x r cfg self y J).
Proof.
  unfold gycall_x. destruct (forcepq cfg); [apply lib_ok|].
  apply lib_bind.
  - unfold gycall_k_x, xmul, xvadd.
    destruct (forcez cfg); [destruct (truthy _)|]; repeat xlib_step.
  - intro k0. unfold xmul. repeat xlib_step.
Qed.

(** C7, as the code has it.  When the elementwise division of a pass
    meets a zero divisor, nothing in the pass reports it: if the library
    raises there, the pass fails with the library's own failure, which
    names no instance and no variable, and no pass ever fails with a
    [NumericFailure]; if the library returns the IEEE
    quotient, the pass completes, and the non-finite value is in [p0],
    [q0] and in the residual entries of that instance (in the Jacobian
    values for [gycall]).  When the reference voltage column is all
    zero, the guard [if self.v0:] skips the division and the residual
    pass returns the plain powers [u*p], [u*q]. *)
Theorem zero_divisor_is_not_reported :
  (forall altb_test agtb_test cfg self dae i,
     sized self = true -> addressed self dae = true ->
     (forcez cfg = true -> truthy (Pq.v0 self) = true ->
      length (Pq.v0 self) = Pq.n self) ->
     (i < Pq.n self)%nat -> zero_divisor_at cfg self i = true ->
     gcall_x true altb_test agtb_test cfg self (Dae.y dae) (Dae.m dae) (inj (Dae.g dae))
       = Err ArithmeticFailure /\
     exists w,
       gcall_x false altb_test agtb_test cfg self (Dae.y dae) (Dae.m dae) (inj (Dae.g dae))
         = Ok w /\
       nth i (w_p0 w) (Fin 0) = NonFinite /\
       nth i (w_q0 w) (Fin 0) = NonFinite /\
       nth (nth i (Pq.a self) 0%nat) (w_g w) (Fin 0) = NonFinite /\
       nth (nth i (Pq.v self) 0%nat) (w_g w) (Fin 0) = NonFinite) /\
  (forall cfg self y J i,
     sized self = true ->
     forallb (fun j => Nat.ltb j (length y)) (Pq.v self) = true ->
     (forcez cfg = true -> truthy (Pq.v0 self) = true ->
      length (Pq.v0 self) = Pq.n self) ->
     (forcez cfg = false ->
      length (Pq.below self) = Pq.n self /\ length (Pq.above self) = Pq.n self) ->
     forcepq cfg = false ->
     (i < Pq.n self)%nat -> zero_divisor_at cfg self i = true ->
     gycall_x true cfg self y J = Err ArithmeticFailure /\
     exists pv qv,
       gycall_x false cfg self y J
         = Ok (J ++ combine (combine (Pq.a self) (Pq.v self)) pv
                 ++ combine (combine (Pq.v self) (Pq.v self)) qv) /\
       nth i pv (Fin 0) = NonFinite /\ nth i qv (Fin 0) = NonFinite) /\
  (forall raises_on_zero altb_test agtb_test cfg self dae,
     sized self = true -> addressed self dae = true ->
     forcez cfg = true -> truthy (Pq.v0 self) = false ->
     exists w,
       gcall_x raises_on_zero altb_test agtb_test cfg self
               (Dae.y dae) (Dae.m dae) (inj (Dae.g dae)) = Ok w /\
       forall i, (i < Pq.n self)%nat ->
         at_ (Pq.v0 self) i = 0 /\
         nth i (w_p0 w) (Fin 0) = Fin (at_ (Pq.u self) i * at_ (Pq.p self) i) /\
         nth i (w_q0 w) (Fin 0) = Fin (at_ (Pq.u self) i * at_ (Pq.q self) i)) /\
  (forall raises_on_zero altb_test agtb_test cfg self y m gx J,
     ~ raises_numeric_failure
         (gcall_x raises_on_zero altb_test agtb_test cfg self y m gx) /\
     ~ raises_numeric_failure (gycall_x raises_on_zero cfg self y J)).
Proof.
  split; [|split; [|split]];
    [| | | intros; split;
           [apply gcall_x_never_numeric_failure | apply gycall_x_never_numeric_failure]].
  - intros altb_test agtb_test cfg self dae i Hs Ha L0 Hi Z.
    destruct (sized_elim self Hs) as (Lu & Lp & Lq & Lmin & Lmax & La & Lv).
    destruct (addressed_elim self dae Ha) as (Lg & Ry & Ra & Rv).
    split.
    + rewrite gcall_x_agrees by now left.
      now rewrite (gcall_zero_divisor_rational altb_test agtb_test cfg self dae i).
    + destruct (gcall_k_x_false altb_test agtb_test cfg self (Dae.y dae) Hs Ry L0)
        as (bl & ab & k & Ek & Lk & Nk).
      unfold gcall_x. rewrite Ek. cbn [bind fst snd].
      unfold xmul. rewrite xew_ok by xlen. cbn [bind].
      rewrite xew_ok by xlen. cbn [bind].
      rewrite xew_ok by xlen. cbn [bind].
      set (np0 := map2 (xlift Qcmult) (map2 (xlift Qcmult) (inj (Pq.u self)) k)
                       (inj (Pq.p self))).
      set (nq0 := map2 (xlift Qcmult) (map2 (xlift Qcmult) (inj (Pq.u self)) k)
                       (inj (Pq.q self))).
      assert (Lnp : length np0 = Pq.n self) by (unfold np0; xlen).
      assert (Lnq : length nq0 = Pq.n self) by (unfold nq0; xlen).
      assert (Pnf : nth i np0 (Fin 0) = NonFinite).
      { unfold np0.
        repeat (rewrite (map2_nth _ _ _ _ (Fin 0) (Fin 0) (Fin 0)) by xlen).
        rewrite (Nk i Hi Z), xlift_nf_r. reflexivity. }
      assert (Qnf : nth i nq0 (Fin 0) = NonFinite).
      { unfold nq0.
        repeat (rewrite (map2_nth _ _ _ _ (Fin 0) (Fin 0) (Fin 0)) by xlen).
        rewrite (Nk i Hi Z), xlift_nf_r. reflexivity. }
      destruct (xaccumulate_taint (Pq.n self) (Dae.m dae) (inj (Dae.g dae))
                  (Pq.a self) (Pq.v self) np0 nq0) as (g' & Eg & Lg' & Tg);
        try assumption; [xlen|].
      rewrite Eg. cbn [bind].
      eexists. split; [reflexivity|]. cbn [w_p0 w_q0 w_g].
      destruct (Tg i Hi) as [TA TV].
      repeat split; auto.
  - intros cfg self y J i Hs Ry L0 Lind Fpq Hi Z.
    destruct (sized_elim self Hs) as (Lu & Lp & Lq & Lmin & Lmax & La & Lv).
    split; [now apply (gycall_x_true_zero cfg self y J i)|].
    destruct (gycall_k_x_false cfg self y Hs Ry L0 Lind Fpq) as (k & Ek & Lk & Nk).
    unfold gycall_x. rewrite Fpq, Ek. cbn [bind].
    unfold xmul. rewrite xew_ok by xlen. cbn [bind].
    rewrite xew_ok by xlen. cbn [bind].
    set (pv := map2 (xlift Qcmult) (inj (Pq.p self))
                    (map2 (xlift Qcmult) (inj (Pq.u self)) k)).
    assert (Lpv : length pv = Pq.n self) by (unfold pv; xlen).
    unfold xadd_jac at 1.
    replace (Nat.eqb (length pv) (length (Pq.a self))) with true
      by (symmetry; apply Nat.eqb_eq; lia).
    replace (Nat.eqb (length (Pq.a self)) (length (Pq.v self))) with true
      by (symmetry; apply Nat.eqb_eq; lia).
    cbn [andb bind].
    rewrite xew_ok by xlen. cbn [bind].
    set (qv := map2 (xlift Qcmult) (inj (Pq.q self))
                    (map2 (xlift Qcmult) (inj (Pq.u self)) k)).
    assert (Lqv : length qv = Pq.n self) by (unfold qv; xlen).
    unfold xadd_jac.
    replace (Nat.eqb (length qv) (length (Pq.v self))) with true
      by (symmetry; apply Nat.eqb_eq; lia).
    rewrite Nat.eqb_refl. cbn [andb].
    exists pv, qv. split; [now rewrite <- app_assoc|].
    split.
    + unfold pv.
      repeat (rewrite (map2_nth _ _ _ _ (Fin 0) (Fin 0) (Fin 0)) by xlen).
      rewrite (Nk i Hi Z), !xlift_nf_r. reflexivity.
    + unfold qv.
      repeat (rewrite (map2_nth _ _ _ _ (Fin 0) (Fin 0) (Fin 0)) by xlen).
      rewrite (Nk i Hi Z), !xlift_nf_r. reflexivity.
  - intros r altb_test agtb_test cfg self dae Hs Ha Fz T.
    assert (Hd : divides_g cfg self = true) by (unfold divides_g; now rewrite Fz, T).
    rewrite gcall_x_agrees by now right.
    destruct (gcall_spec altb_test agtb_test cfg self dae Hs Ha Hd)
      as (bl & ab & np0 & nq0 & ng & E & _ & _ & _ & Np & _).
    rewrite E. cbn [rmap]. eexists. split; [reflexivity|].
    intros i Hi. unfold written_of.
    cbn [w_p0 w_q0 fst snd with_services Pq.p0 Pq.q0].
    rewrite !inj_nth. destruct (Np i Hi) as [Ep Eq]. rewrite Ep, Eq.
    unfold k_inst. rewrite Fz, T.
    split; [now apply truthy_false_all_zero|]. split; f_equal; ring.
Qed.

Lemma zero_divisor_is_not_reported_witness :
  (gcall_x true closed_below closed_above cfg_forcez (load2_zero_ref (qc 1 2) (qc 1 4))
           [0; qc 8 10] 2 (inj [0; 0]) = Err ArithmeticFailure /\
   exists w,
     gcall_x false closed_below closed_above cfg_forcez (load2_zero_ref (qc 1 2) (qc 1 4))
             [0; qc 8 10] 2 (inj [0; 0]) = Ok w /\
     nth 1 (w_p0 w) (Fin 0) = NonFinite /\
     nth 1 (w_g w) (Fin 0) = NonFinite) /\
  (gycall_x true cfg_forcez (load2_zero_ref (qc 1 2) (qc 1 4)) [0; qc 8 10] []
     = Err ArithmeticFailure /\
   exists pv qv,
     gycall_x false cfg_forcez (load2_zero_ref (qc 1 2) (qc 1 4)) [0; qc 8 10] []
       = Ok ([] ++ combine (combine [0%nat; 0%nat] [1%nat; 1%nat]) pv
                ++ combine (combine [1%nat; 1%nat] [1%nat; 1%nat]) qv) /\
     nth 1 pv (Fin 0) = NonFinite) /\
  exists w,
    gcall_x true closed_below closed_above cfg_forcez (load1_ref (qc 1 2) (qc 1 4) 0)
            [0; qc 8 10] 2 (inj [0; 0]) = Ok w /\
    nth 0 (w_p0 w) (Fin 0) = Fin (1 * qc 1 2).
Proof.
  destruct zero_divisor_is_not_reported as (G & GY & Guard & _).
  split; [|split].
  - destruct (G closed_below closed_above cfg_forcez (load2_zero_ref (qc 1 2) (qc 1 4))
                (bus1 (qc 8 10)) 1%nat) as (E & w & Ew & P & _ & _ & V);
      [reflexivity | reflexivity | intros; reflexivity | simpl; lia | reflexivity |].
    split; [exact E|]. exists w. split; [exact Ew|]. split; [exact P | exact V].
  - destruct (GY cfg_forcez (load2_zero_ref (qc 1 2) (qc 1 4)) [0; qc 8 10] [] 1%nat)
      as (E & pv & qv & Ey & P & _);
      [reflexivity | reflexivity | intros; reflexivity | discriminate | reflexivity
      | simpl; lia | reflexivity |].
    split; [exact E|]. exists pv, qv. split; [exact Ey | exact P].
  - destruct (Guard true closed_below closed_above cfg_forcez
                (load1_ref (qc 1 2) (qc 1 4) 0) (bus1 (qc 8 10)))
      as (w & Ew & N); [reflexivity | reflexivity | reflexivity | reflexivity |].
    exists w. split; [exact Ew|].
    destruct (N 0%nat) as (_ & P & _); [simpl; lia | exact P].
Defined.

(** Where C7 fails as it is written: under forced impedance with
    reference voltages 1 and 0, the division by the zero reference
    voltage is reported by neither pass.  If the library raises, the
    caller gets the library's failure, which names no instance and no
    variable; if it returns the IEEE quotient, both passes complete, and
    the non-finite value stands in [p0], in the residual and in the
    Jacobian values.  Neither way is there a [NumericFailure]. *)
Lemma zero_reference_voltage_is_not_reported :
  let self := load2_zero_ref (qc 1 2) (qc 1 4) in
  let y := [0; qc 8 10] in
  gcall_x true closed_below closed_above cfg_forcez self y 2 (inj [0; 0])
    = Err ArithmeticFailure /\
  gycall_x true cfg_forcez self y [] = Err ArithmeticFailure /\
  (exists w,
     gcall_x false closed_below closed_above cfg_forcez self y 2 (inj [0; 0]) = Ok w /\
     w_p0 w = [Fin (qc 8 25); NonFinite] /\
     w_q0 w = [Fin (qc 4 25); NonFinite] /\
     w_g w = [NonFinite; NonFinite]) /\
  (exists J,
     gycall_x false cfg_forcez self y [] = Ok J /\
     map snd J = [Fin (qc 8 10); NonFinite; Fin (qc 4 10); NonFinite]) /\
  forall raises_on_zero,
    ~ raises_numeric_failure
        (gcall_x raises_on_zero closed_below closed_above cfg_forcez self y 2 (inj [0; 0])) /\
    ~ raises_numeric_failure (gycall_x raises_on_zero cfg_forcez self y []).
Proof.
  intros self y.
  split; [reflexivity|]. split; [reflexivity|].
  split; [|split].
  - eexists. split; [reflexivity|]. cbn [w_p0 w_q0 w_g].
    repeat split; cbn; repeat (f_equal; try (apply Qc_is_canon; reflexivity)).
  - eexists. split; [reflexivity|]. cbn.
    repeat (f_equal; try (apply Qc_is_canon; reflexivity)).
  - intros [|]; split; intros (i & w & H); discriminate H.
Qed.

(** Where C9 fails as it is written: one disabled load ([u = 0]) whose
    lower voltage limit is zero, in the switching branch with the
    voltage inside the band.  Line 79 divides every row by [vmin**2]
    before line 94 multiplies by [u]: if the library raises, the pass
    fails; if it returns the IEEE quotient, the pass completes and the
    contribution of the disabled load is not zero but non-finite, in
    [p0], in [q0] and in both residual entries of its bus. *)
Lemma disabled_load_with_zero_limit_is_not_inert :
  let self := load1_off_zero_limit (qc 1 2) (qc 1 4) in
  at_ (Pq.u self) 0 = 0 /\
  divides_g cfg_switch self = false /\
  gcall_x true closed_below closed_above cfg_switch self [0; 1] 2 (inj [0; 0])
    = Err ArithmeticFailure /\
  exists w,
    gcall_x false closed_below closed_above cfg_switch self [0; 1] 2 (inj [0; 0]) = Ok w /\
    w_below w = [0] /\ w_above w = [0] /\
    w_p0 w = [NonFinite] /\ w_q0 w = [NonFinite] /\
    w_g w = [NonFinite; NonFinite].
Proof.
  intro self.
  split; [reflexivity|]. split; [reflexivity|]. split; [reflexivity|].
  eexists. split; [reflexivity|]. cbn [w_below w_above w_p0 w_q0 w_g].
  repeat split; cbn; repeat (f_equal; try (apply Qc_is_canon; reflexivity)).
Qed.
